(** * raptor-backend: a shallow embedding of the query engine and of the
      ingestion steps it relies on.

    Sources embedded here:
    - [src/server.js]      : the transfer index of initEngine (UIC fallback
                             and name linking), buildStopsIndex (the
                             stations.json branch), searchStops,
                             secondsToHHMM, timeToSeconds, transferEntries,
                             transferTime, extractOperator, resolveStopIds,
                             getFilteredData and its cache, tiAdjust,
                             buildStopToTrips, scanTrip, raptorCore,
                             cityKeyOfStop, searchJourneys,
                             reconstructJourney, uicFromStopId, getTarifLeg,
                             getTarifJourney and the [/api/search] and
                             [/api/explore] branches of the HTTP handler;
    - [src/gtfs-ingest.js] : timeToSeconds, parseCSVLine,
                             computeActiveServices, buildTransferIndex, the
                             circular-trip repair loop of ingestOperator and
                             mergeResults.

    Conventions.
    - Times are integer seconds, modelled in [Z]; a JS [null]/[undefined]
      time is [None].
    - A JS string that is only tested for truthiness or compared is a
      [string]; the empty string stands for every falsy value
      ([undefined], [null], the empty string).
    - Plain objects used as dictionaries are [gmap string _] when only
      looked up, and insertion-ordered association lists ([oget], [oset]) when the
      source iterates over them.  Stop identifiers are operator-prefixed,
      hence never array-index-like, so insertion order is the JS iteration
      order.
    - The identifiers stored in the timetable carry an operator prefix, so
      the dictionaries keyed by them have no own property named like a
      member of [Object.prototype]; a lookup by such a name can only come
      from the query string and is modelled where the query enters
      ([resolveStopIds], [getFilteredData]).
    - [Set]s that are iterated are duplicate-free lists in insertion order;
      sets that are only queried are [gset string].
    - Display-only fields of legs and journeys (names, HH:MM strings, route
      names) are not part of the model. *)

From Stdlib Require Import ZArith Lia Permutation Sorted Ascii DecimalString.
From stdpp Require Import base option gmap strings list fin_maps sorting.

Local Open Scope Z_scope.
#[local] Set Warnings "-clear-no-such-hyp".

(* ===================================================================== *)
(** * JavaScript building blocks *)
(* ===================================================================== *)

Module Js.

(** [a ?? b] on possibly-null numbers. *)
Definition nullish {A : Type} (a b : option A) : option A :=
  match a with
  | Some x => Some x
  | None => b
  end.

(** [x < (o ?? Infinity)] *)
Definition lt_inf (x : Z) (o : option Z) : bool :=
  match o with
  | Some y => x <? y
  | None => true
  end.

(** [(o ?? Infinity) > x] *)
Definition inf_gt (o : option Z) (x : Z) : bool :=
  match o with
  | Some y => x <? y
  | None => true
  end.

(** Truthiness of a string. *)
Definition truthy (s : string) : bool :=
  match s with
  | EmptyString => false
  | String _ _ => true
  end.

(** [a || b] on strings. *)
Definition or_else (a b : string) : string :=
  if truthy a then a else b.

(** [Math.round(x / 60)] for an integer [x]: the nearest integer, halves
    rounded towards +Infinity. *)
Definition round_div60 (x : Z) : Z := (x + 30) / 60.

(** [arr.join(sep)] *)
Fixpoint join (sep : string) (l : list string) : string :=
  match l with
  | [] => ""
  | [x] => x
  | x :: rest => x +:+ sep +:+ join sep rest
  end.

(** [arr.slice(0, n)], for an integer [n] (a negative [n] counts from the
    end). *)
Definition slice0 {A : Type} (n : Z) (l : list A) : list A :=
  if 0 <=? n then take (Z.to_nat n) l
  else take (length l - Z.to_nat (- n))%nat l.

(** [s.startsWith(p)], [s.slice(n)] and [s.endsWith(suffix)] *)
Fixpoint starts_with (p s : string) : bool :=
  match p, s with
  | EmptyString, _ => true
  | String a p', String b s' => if decide (a = b) then starts_with p' s' else false
  | String _ _, EmptyString => false
  end.

Fixpoint drop_str (n : nat) (s : string) : string :=
  match n, s with
  | O, _ => s
  | S n', String _ s' => drop_str n' s'
  | S _, EmptyString => EmptyString
  end.

Definition ends_with (s suffix : string) : bool :=
  let ls := String.length s in
  let lx := String.length suffix in
  if (lx <=? ls)%nat
  then if decide (drop_str (ls - lx) s = suffix) then true else false
  else false.

Definition is_digit (c : Ascii.ascii) : bool :=
  let n := Ascii.nat_of_ascii c in ((48 <=? n) && (n <=? 57))%nat.

Definition is_upper (c : Ascii.ascii) : bool :=
  let n := Ascii.nat_of_ascii c in ((65 <=? n) && (n <=? 90))%nat.

Fixpoint all_chars (p : Ascii.ascii -> bool) (s : string) : bool :=
  match s with
  | EmptyString => true
  | String c s' => p c && all_chars p s'
  end.

(** Names that every plain object inherits from [Object.prototype].  For a
    dictionary [obj] (a parsed JSON document or [{}]) that has no own
    property of that name, [obj[k]] is an inherited function (the prototype
    object itself for [__proto__]) instead of [undefined]. *)
Definition protoKeys : list string :=
  ["constructor"; "__proto__"; "hasOwnProperty"; "isPrototypeOf";
   "propertyIsEnumerable"; "toLocaleString"; "toString"; "valueOf";
   "__defineGetter__"; "__defineSetter__"; "__lookupGetter__";
   "__lookupSetter__"].

Definition inherited (k : string) : bool := bool_decide (k ∈ protoKeys).

(** Insertion-ordered [Set]: [s.add(x)]. *)
Definition set_add (x : string) (s : list string) : list string :=
  if decide (x ∈ s) then s else s ++ [x].

Definition set_has (x : string) (s : list string) : bool :=
  if decide (x ∈ s) then true else false.

End Js.

(** ** Insertion-ordered dictionaries

    [obj[k] = v] keeps the position of an existing key and appends a new
    one; [Object.entries] and [Map.prototype.values] enumerate in that
    order. *)

Section OMap.
Context {K V : Type} `{EqDecision K}.

Fixpoint oget (k : K) (m : list (K * V)) : option V :=
  match m with
  | [] => None
  | (k', v) :: rest => if decide (k = k') then Some v else oget k rest
  end.

Fixpoint oset (k : K) (v : V) (m : list (K * V)) : list (K * V) :=
  match m with
  | [] => [(k, v)]
  | (k', v') :: rest =>
      if decide (k = k') then (k, v) :: rest else (k', v') :: oset k v rest
  end.

End OMap.

(** ** A stable sort, as [Array.prototype.sort] with a comparator that is a
       total preorder.  [leb a b] is [cmp(a, b) <= 0]. *)

Section StableSort.
Context {A : Type} (leb : A -> A -> bool).

Fixpoint insert_sorted (x : A) (l : list A) : list A :=
  match l with
  | [] => [x]
  | y :: rest => if leb x y then x :: y :: rest else y :: insert_sorted x rest
  end.

Fixpoint stable_sort (l : list A) : list A :=
  match l with
  | [] => []
  | x :: rest => insert_sorted x (stable_sort rest)
  end.

End StableSort.

(* ===================================================================== *)
(** * Data model of the query engine (server.js) *)
(* ===================================================================== *)

Record StopTime := mkStopTime {
  stop_id  : string;
  arr_time : option Z;
  dep_time : option Z;
}.

Record Trip := mkTrip {
  trip_id    : string;
  service_id : string;
  train_type : string;     (* empty when absent *)
  operator   : string;     (* empty when absent *)
  stop_times : list StopTime;
}.

(** An entry of [stopToTrips[stopId]]. *)
Record TripRef := mkTripRef {
  tr_routeId : string;
  tr_trip    : Trip;
  tr_idx     : nat;
}.

(** An element of a [transfer_index.json] list: a bare string or an object
    [{ id, interCity }]. *)
Inductive RawTransfer :=
| RawId (id : string)
| RawObj (id : string) (interCity : bool).

Record TransferEntry := mkEntry {
  te_id        : string;
  te_interCity : bool;
}.

(** The two shapes of a [parent[stop]] record. *)
Inductive ParentEntry :=
| Ride (from_stop tripId routeId : string) (dep arr : Z)
       (trainType op : string)
| Walk (from_stop : string) (dep arr : Z).

Record Leg := mkLeg {
  leg_from_id    : string;
  leg_to_id      : string;
  leg_dep_time   : Z;
  leg_arr_time   : Z;
  leg_trip_id    : string;
  leg_route_id   : string;
  leg_operator   : string;
  leg_train_type : string;
  leg_duration   : Z;
}.

Record Journey := mkJourney {
  j_dep_time    : Z;
  j_arr_time    : Z;
  j_duration    : Z;
  j_transfers   : Z;
  j_train_types : list string;
  j_legs        : list Leg;
}.

(** An element of [stopsIndex]. *)
Record Station := mkStation {
  st_name    : string;
  st_city    : string;
  st_country : string;
  st_stopIds : list string;
}.

Definition MAX_ROUNDS : nat := 5.
Definition MIN_TRANSFER_SAME  : Z := 3 * 60.
Definition MIN_TRANSFER_CROSS : Z := 10 * 60.
Definition MIN_TRANSFER_CITY  : Z := 45 * 60.

(* ===================================================================== *)
(** * Operators, transfers and the Trenitalia clock shift *)
(* ===================================================================== *)

(** [extractOperator]: the regular expression [^([A-Z]+):] matches a
    non-empty maximal run of capital letters followed by a colon; every
    other identifier is attributed to SNCF. *)
Fixpoint upper_run (s : string) : string * string :=
  match s with
  | EmptyString => (EmptyString, EmptyString)
  | String c s' =>
      if Js.is_upper c
      then let '(p, r) := upper_run s' in (String c p, r)
      else (EmptyString, s)
  end.

Definition extractOperator (sid : string) : string :=
  let '(p, r) := upper_run sid in
  match p, r with
  | String _ _, String c _ => if decide (c = ":"%char) then p else "SNCF"
  | _, _ => "SNCF"
  end.

(** The text of an identifier before its first colon, when it has one: the
    operator prefix that ingestion puts in front of every raw id
    ([P = rawId => operatorId + ':' + rawId]). *)
Fixpoint prefix_before_colon (s : string) : option string :=
  match s with
  | EmptyString => None
  | String c s' =>
      if decide (c = ":"%char) then Some EmptyString
      else match prefix_before_colon s' with
           | Some p => Some (String c p)
           | None => None
           end
  end.

Definition normalizeEntry (e : RawTransfer) : TransferEntry :=
  match e with
  | RawId id => mkEntry id false
  | RawObj id ic => mkEntry id ic
  end.

Definition transferTime (fromId : string) (toEntry : TransferEntry) : Z :=
  if te_interCity toEntry then MIN_TRANSFER_CITY
  else
    let sameOp :=
      bool_decide (extractOperator fromId = extractOperator (te_id toEntry)) in
    if sameOp then MIN_TRANSFER_SAME else MIN_TRANSFER_CROSS.

(** ** buildStopToTrips *)

Definition pushRef (index : gmap string (list TripRef)) (sid : string)
           (r : TripRef) : gmap string (list TripRef) :=
  <[sid := default [] (index !! sid) ++ [r]]> index.

Fixpoint indexStopTimes (routeId : string) (trip : Trip) (i : nat)
         (sts : list StopTime) (index : gmap string (list TripRef))
  : gmap string (list TripRef) :=
  match sts with
  | [] => index
  | st :: rest =>
      indexStopTimes routeId trip (S i) rest
        (pushRef index (stop_id st) (mkTripRef routeId trip i))
  end.

Definition indexRoute (index : gmap string (list TripRef))
           (route : string * list Trip) : gmap string (list TripRef) :=
  fold_left (fun ix trip => indexStopTimes (fst route) trip 0 (stop_times trip) ix)
            (snd route) index.

Definition buildStopToTrips (tripsData : list (string * list Trip))
  : gmap string (list TripRef) :=
  fold_left indexRoute tripsData ∅.

(** [getFilteredData(dateISO).stopToTrips].  The seven-entry cache only
    memoises this function and is left out.  When [dateISO] is the name of
    an inherited property, [calendarIndex[dateISO]] is not iterable and
    [new Set(s)] in [getActiveServices] throws a TypeError: [None]. *)
Definition getFilteredData (routeTrips : list (string * list Trip))
           (calendarIndex : gmap string (list string)) (dateISO : string)
  : option (gmap string (list TripRef)) :=
  if Js.truthy dateISO then
    if Js.inherited dateISO then None
    else
      match calendarIndex !! dateISO with
      | None => Some (buildStopToTrips routeTrips)
      | Some active =>
          Some (buildStopToTrips
                  (filter (fun rt => snd rt ≠ [])
                     ((fun rt : string * list Trip =>
                         (fst rt,
                          filter (fun t => service_id t ∈ active) (snd rt)))
                        <$> routeTrips)))
      end
  else Some (buildStopToTrips routeTrips).

(** Labels, predecessors and the improvements of the current round. *)
Record ScanState := mkScan {
  tauBest : gmap string Z;
  tauCur  : list (string * Z);
  parent  : gmap string ParentEntry;
}.

Section Engine.

(** The transfer index, loaded once by [initEngine] and never written
    afterwards. *)
Variable transferIndex : gmap string (list RawTransfer).

(** Platform functions.
    [utcMonth d] is [new Date(d + 'T12:00:00Z').getUTCMonth() + 1], [None]
    when that is [NaN];
    [detectUnstored from_stop trip_id op route_id] is the branch of
    [detectTrainType] taken when the trip carries no stored type (string
    tests on the identifiers and on the route names). *)
Variable utcMonth       : string -> option Z.
Variable detectUnstored : string -> string -> string -> string -> string.

Definition transferEntries (stopId : string) : list TransferEntry :=
  normalizeEntry <$> default [] (transferIndex !! stopId).

(** ** tiAdjust *)

Definition tiAdjust (seconds : option Z) (dateISO : string) : option Z :=
  match seconds with
  | None => None
  | Some s =>
      if Js.truthy dateISO then
        match utcMonth dateISO with
        | Some month =>
            Some (s + (if (4 <=? month) && (month <=? 9) then 7200 else 3600))
        | None => Some (s + 3600)
        end
      else Some (s + 3600)
  end.

(** The two reads of [scanTrip]:
    [dep = (isTI && rawDep != null) ? tiAdjust(rawDep, dateISO) : rawDep]
    with [rawDep = st.dep_time ?? st.arr_time], and symmetrically for
    arrivals. *)
Definition readDep (trip : Trip) (st : StopTime) (dateISO : string)
  : option Z :=
  let isTI := bool_decide (operator trip = "TI") in
  let rawDep := Js.nullish (dep_time st) (arr_time st) in
  if isTI && bool_decide (is_Some rawDep) then tiAdjust rawDep dateISO
  else rawDep.

Definition readArr (trip : Trip) (st : StopTime) (dateISO : string)
  : option Z :=
  let isTI := bool_decide (operator trip = "TI") in
  let rawArr := Js.nullish (arr_time st) (dep_time st) in
  if isTI && bool_decide (is_Some rawArr) then tiAdjust rawArr dateISO
  else rawArr.

(** ** scanTrip

    [relaxArrival] is the block executed at a stop reached after boarding,
    [arr] being the arrival read there. *)
Definition relaxArrival (trip : Trip) (routeId : string)
           (boardStop : string) (boardDep : Z) (sid : string) (arr : Z)
           (s : ScanState) : ScanState :=
  if Js.lt_inf arr (tauBest s !! sid) then
    mkScan (<[sid := arr]> (tauBest s))
           (oset sid arr (tauCur s))
           (<[sid := Ride boardStop (trip_id trip) routeId boardDep arr
                          (train_type trip) (operator trip)]> (parent s))
  else s.

(** [boarded] is [None] until the trip has been boarded, then
    [Some (boardStop, boardDep)]. *)
Fixpoint scanFrom (trip : Trip) (routeId dateISO : string)
         (sts : list StopTime) (boarded : option (string * Z))
         (s : ScanState) : ScanState :=
  match sts with
  | [] => s
  | st :: rest =>
      let sid := stop_id st in
      match boarded with
      | None =>
          let boarded' :=
            match tauBest s !! sid with
            | Some tau =>
                match readDep trip st dateISO with
                | Some dep => if tau <=? dep then Some (sid, dep) else None
                | None => None
                end
            | None => None
            end in
          scanFrom trip routeId dateISO rest boarded' s
      | Some (boardStop, boardDep) =>
          match readArr trip st dateISO with
          | None => scanFrom trip routeId dateISO rest boarded s
          | Some arr =>
              scanFrom trip routeId dateISO rest boarded
                (relaxArrival trip routeId boardStop boardDep sid arr s)
          end
      end
  end.

Definition scanTrip (trip : Trip) (fromIdx : nat) (s : ScanState)
           (routeId dateISO : string) : ScanState :=
  scanFrom trip routeId dateISO (drop fromIdx (stop_times trip)) None s.

(** ** reconstructJourney *)

Definition detectTrainType (fromStopId tripId stored op routeId : string)
  : string :=
  if Js.truthy stored then stored
  else detectUnstored fromStopId tripId op routeId.

(** The back-walk along [parent].  Every turn of the [while] loop adds a
    stop that has a predecessor to [visited], so [fuel] larger than the
    number of predecessors is never exhausted
    (see [walkBack_fuel_enough]). *)
Fixpoint walkBack (fuel : nat) (par : gmap string ParentEntry)
         (originSet : gset string) (current : string)
         (visited : gset string) (legs : list Leg) : option (list Leg) :=
  if decide (current ∈ originSet) then Some legs
  else
    match fuel with
    | O => None
    | S fuel' =>
        if decide (current ∈ visited) then None
        else
          match par !! current with
          | None => None
          | Some (Walk from _ _) =>
              walkBack fuel' par originSet from ({[current]} ∪ visited) legs
          | Some (Ride from tid rid depTime arrTime stored pop) =>
              let op := Js.or_else pop (extractOperator from) in
              let trainType := detectTrainType from tid stored op rid in
              walkBack fuel' par originSet from ({[current]} ∪ visited)
                (mkLeg from current depTime arrTime tid rid op trainType
                       (Js.round_div60 (arrTime - depTime)) :: legs)
          end
    end.

(** [[...new Set(xs)]] *)
Definition uniq (xs : list string) : list string :=
  fold_left (fun acc x => Js.set_add x acc) xs [].

Definition journeyOfLegs (legs : list Leg) : option Journey :=
  match legs with
  | [] => None
  | first :: _ =>
      let dep := leg_dep_time first in
      let arr := leg_arr_time (List.last legs first) in
      Some (mkJourney dep arr (Js.round_div60 (arr - dep))
              (Z.of_nat (length legs) - 1)
              (uniq (filter (fun tt => Js.truthy tt = true)
                            (leg_train_type <$> legs)))
              legs)
  end.

Definition reconstructJourney (par : gmap string ParentEntry)
           (originSet : gset string) (destId : string) : option Journey :=
  match walkBack (S (size par)) par originSet destId ∅ [] with
  | Some legs => journeyOfLegs legs
  | None => None
  end.

(** ** raptorCore *)

Record CoreState := mkCore {
  cs_tau_best  : gmap string Z;
  cs_parent    : gmap string ParentEntry;
  cs_originSet : gset string;
  cs_marked    : list string;
}.

Definition seedSister (startTime : Z) (oid : string) (c : CoreState)
           (entry : TransferEntry) : CoreState :=
  let sister := te_id entry in
  let t := startTime + transferTime oid entry in
  let c1 :=
    if Js.lt_inf t (cs_tau_best c !! sister) then
      mkCore (<[sister := t]> (cs_tau_best c))
             (<[sister := Walk oid startTime t]> (cs_parent c))
             (cs_originSet c)
             (Js.set_add sister (cs_marked c))
    else c in
  if negb (te_interCity entry) then
    mkCore (cs_tau_best c1) (cs_parent c1)
           ({[sister]} ∪ cs_originSet c1) (cs_marked c1)
  else c1.

Definition seedOrigin (startTime : Z) (c : CoreState) (oid : string)
  : CoreState :=
  let c1 :=
    if Js.inf_gt (cs_tau_best c !! oid) startTime then
      mkCore (<[oid := startTime]> (cs_tau_best c)) (cs_parent c)
             (cs_originSet c) (Js.set_add oid (cs_marked c))
    else c in
  let c2 := mkCore (cs_tau_best c1) (cs_parent c1)
                   ({[oid]} ∪ cs_originSet c1) (cs_marked c1) in
  fold_left (seedSister startTime oid) (transferEntries oid) c2.

Definition raptorInit (originIds : list string) (startTime : Z)
  : CoreState :=
  fold_left (seedOrigin startTime) originIds (mkCore ∅ ∅ ∅ []).

(** The trip scans of one round: every [(routeId, trip, idx)] of every
    marked stop, in order. *)
Definition scanStop (stt : gmap string (list TripRef)) (dateISO : string)
           (s : ScanState) (stop : string) : ScanState :=
  fold_left
    (fun s r => scanTrip (tr_trip r) (tr_idx r) s (tr_routeId r) dateISO)
    (default [] (stt !! stop)) s.

Definition scanMarked (stt : gmap string (list TripRef)) (dateISO : string)
           (marked : list string) (s : ScanState) : ScanState :=
  fold_left (scanStop stt dateISO) marked s.

(** Transfer relaxation, over the snapshot [Object.entries(tau_cur)]. *)
Definition relaxSister (sid : string) (arr : Z)
           (acc : ScanState * list string) (entry : TransferEntry)
  : ScanState * list string :=
  let '(s, newMarked) := acc in
  let sister := te_id entry in
  let t := arr + transferTime sid entry in
  if Js.lt_inf t (tauBest s !! sister) then
    (mkScan (<[sister := t]> (tauBest s))
            (oset sister t (tauCur s))
            (<[sister := Walk sid arr t]> (parent s)),
     Js.set_add sister newMarked)
  else acc.

Definition relaxEntry (tau_prev_round : gmap string Z)
           (acc : ScanState * list string) (e : string * Z)
  : ScanState * list string :=
  let '(sid, arr) := e in
  let acc1 :=
    if Js.lt_inf arr (tau_prev_round !! sid)
    then (fst acc, Js.set_add sid (snd acc)) else acc in
  fold_left (relaxSister sid arr) (transferEntries sid) acc1.

Definition relaxTransfers (tau_prev_round : gmap string Z) (s : ScanState)
  : ScanState * list string :=
  fold_left (relaxEntry tau_prev_round) (tauCur s) (s, []).

Definition journeyKey (j : Journey) : string :=
  Js.join "|" (leg_trip_id <$> j_legs j).

(** Collection of the round's journeys when destinations are given. *)
Definition collectDest (tau_prev_round : gmap string Z) (s : ScanState)
           (originSet : gset string) (results : list Journey)
           (did : string) : list Journey :=
  match oget did (tauCur s) with
  | Some a =>
      if Js.lt_inf a (tau_prev_round !! did) then
        match reconstructJourney (parent s) originSet did with
        | Some j =>
            if existsb (fun r => bool_decide (journeyKey r = journeyKey j))
                       results
            then results else results ++ [j]
        | None => results
        end
      else results
  | None => results
  end.

(** Collection of the round's journeys in reachable-set mode. *)
Definition collectAny (tau_prev_round : gmap string Z) (s : ScanState)
           (originSet : gset string)
           (acc : list Journey * gset string) (e : string * Z)
  : list Journey * gset string :=
  let '(results, collected) := acc in
  let '(sid, _) := e in
  if decide (sid ∈ originSet ∨ sid ∈ collected) then acc
  else
    match oget sid (tauCur s) with
    | Some a =>
        if Js.lt_inf a (tau_prev_round !! sid) then
          match reconstructJourney (parent s) originSet sid with
          | Some j => (results ++ [j], {[sid]} ∪ collected)
          | None => acc
          end
        else acc
    | None => acc
    end.

Record RoundState := mkRound {
  rs_tau_best  : gmap string Z;
  rs_parent    : gmap string ParentEntry;
  rs_marked    : list string;
  rs_results   : list Journey;
  rs_collected : gset string;
}.

Definition raptorRound (stt : gmap string (list TripRef)) (dateISO : string)
           (originSet : gset string) (destIds : option (list string))
           (r : RoundState) : RoundState :=
  let tau_prev_round := rs_tau_best r in
  let s1 := scanMarked stt dateISO (rs_marked r)
              (mkScan (rs_tau_best r) [] (rs_parent r)) in
  let '(s2, newMarked) := relaxTransfers tau_prev_round s1 in
  match destIds with
  | Some dests =>
      mkRound (tauBest s2) (parent s2) newMarked
        (fold_left (collectDest tau_prev_round s2 originSet)
                   (uniq dests) (rs_results r))
        (rs_collected r)
  | None =>
      let '(results, collected) :=
        fold_left (collectAny tau_prev_round s2 originSet) (tauCur s2)
                  (rs_results r, rs_collected r) in
      mkRound (tauBest s2) (parent s2) newMarked results collected
  end.

Fixpoint raptorRounds (rounds : nat) (stt : gmap string (list TripRef))
         (dateISO : string) (originSet : gset string)
         (destIds : option (list string)) (r : RoundState) : RoundState :=
  match rounds with
  | O => r
  | S rounds' =>
      let r' := raptorRound stt dateISO originSet destIds r in
      match rs_marked r' with
      | [] => r'
      | _ :: _ => raptorRounds rounds' stt dateISO originSet destIds r'
      end
  end.

Definition raptorCore (originIds : list string)
           (destIds : option (list string)) (startTime : Z)
           (stt : gmap string (list TripRef)) (dateISO : string)
  : list Journey :=
  let c := raptorInit originIds startTime in
  rs_results
    (raptorRounds MAX_ROUNDS stt dateISO (cs_originSet c) destIds
       (mkRound (cs_tau_best c) (cs_parent c) (cs_marked c) [] ∅)).

End Engine.

(* ===================================================================== *)
(** * Result enumeration (the body of searchJourneys) *)
(* ===================================================================== *)

(** The comparator
    [a.transfers - b.transfers || a.duration - b.duration ||
     a.dep_time - b.dep_time]. *)
Definition journeyCmp (a b : Journey) : Z :=
  if negb (j_transfers a - j_transfers b =? 0)
  then j_transfers a - j_transfers b
  else if negb (j_duration a - j_duration b =? 0)
       then j_duration a - j_duration b
       else j_dep_time a - j_dep_time b.

Definition journeyLeb (a b : Journey) : bool := journeyCmp a b <=? 0.

(** [j.legs[j.legs.length - 1].to_id].  Every journey built by
    [reconstructJourney] has a leg ([journeyOfLegs_legs]); the empty string
    is returned where JavaScript would throw. *)
Definition lastStopOf (j : Journey) : string :=
  match List.last (Some <$> j_legs j) None with
  | Some l => leg_to_id l
  | None => ""
  end.

Record LoopState := mkLoop {
  ls_results : list Journey;
  ls_seen    : gset string;
  ls_t       : Z;
  ls_noNew   : Z;
  ls_broke   : bool;
}.

Section Enumeration.

(** [core t] is [raptorCore(originIds, destIds, t, stopToTripsData,
    dateISO)]; [cityKey] is [cityKeyOfStop]. *)
Variable core         : Z -> list Journey.
Variable cityKey      : string -> string.
Variable startTime    : Z.
Variable limit        : Z.
Variable allowedTypes : option (list string).

Definition passesFilter (j : Journey) : bool :=
  match allowedTypes with
  | Some allowed =>
      existsb (fun tt => bool_decide (tt ∈ allowed)) (j_train_types j)
  | None => true
  end.

(** One turn of [for (const j of batch)]. *)
Definition takeJourney (acc : list Journey * gset string * Z) (j : Journey)
  : list Journey * gset string * Z :=
  let '(results, seen, maxDepThis) := acc in
  if j_dep_time j <? startTime then acc
  else if negb (passesFilter j) then acc
  else
    let key := journeyKey j in
    if decide (key ∈ seen) then acc
    else (results ++ [j], {[key]} ∪ seen,
          if maxDepThis <? j_dep_time j then j_dep_time j else maxDepThis).

(** One turn of the [while] loop. *)
Definition searchIter (st : LoopState) : LoopState :=
  let batch := core (ls_t st) in
  let '(results, seen, maxDepThis) :=
    fold_left takeJourney batch (ls_results st, ls_seen st, -1) in
  if 0 <=? maxDepThis then mkLoop results seen (maxDepThis + 1) 0 false
  else
    let n := ls_noNew st + 1 in
    mkLoop results seen (ls_t st + 1800) n
           ((4 <=? n) && (0 <? Z.of_nat (length results))).

Definition maxT : Z := startTime + 14 * 3600.

Definition loopGuard (st : LoopState) : bool :=
  (Z.of_nat (length (ls_results st)) <? limit) && (ls_t st <=? maxT).

Fixpoint searchLoop (fuel : nat) (st : LoopState) : LoopState :=
  match fuel with
  | O => st
  | S fuel' =>
      if loopGuard st then
        let st' := searchIter st in
        if ls_broke st' then st' else searchLoop fuel' st'
      else st
  end.

(** Every turn either lengthens [results] or moves [t] 1800 s closer to
    [maxT], so this many turns are never all used
    (see [collectJourneys_exits]). *)
Definition searchFuel : nat := (30 * Z.to_nat limit + 30)%nat.

Definition searchStart : LoopState := mkLoop [] ∅ startTime 0 false.

Definition collectJourneys : LoopState := searchLoop searchFuel searchStart.

(** ** Destination-city deduplication

    The [Map] key [j.dep_time + ':' + cityKey] is modelled by the pair
    [(dep_time, cityKey)]: the decimal rendering of a number contains no
    colon, so two keys are equal exactly when both components are. *)
Definition dedupeKey (j : Journey) : Z * string :=
  (j_dep_time j, cityKey (lastStopOf j)).

Definition dedupeStep (m : list ((Z * string) * Journey)) (j : Journey)
  : list ((Z * string) * Journey) :=
  match oget (dedupeKey j) m with
  | Some existing =>
      if j_duration j <? j_duration existing
      then oset (dedupeKey j) j m else m
  | None => oset (dedupeKey j) j m
  end.

Definition dedupeByArrCity (results : list Journey) : list Journey :=
  snd <$> fold_left dedupeStep results [].

Definition finishSearch (results : list Journey) : list Journey :=
  Js.slice0 limit
    (stable_sort journeyLeb
       (dedupeByArrCity (stable_sort journeyLeb results))).

Definition searchJourneysWith : list Journey :=
  finishSearch (ls_results collectJourneys).

End Enumeration.

(* ===================================================================== *)
(** * searchJourneys, resolveStopIds and the /api/search handler *)
(* ===================================================================== *)

Inductive Mode := Origin | Dest.

(** A parsed query string: [q_from]/[q_to] are
    [(q.from||'').split(',').filter(Boolean)], [q_time] is
    [timeToSeconds(q.time || '08:00')], [q_offset] and [q_after_dep] are
    [parseInt(q.offset||'0')] and [parseInt(q.after_dep||'0')], [q_limit] is
    [parseInt(q.limit||'8')], [q_train_types] the set built from
    [q.train_types] when present, [q_date] is [q.date || ''].  The numeric
    fields are integers: a query whose numbers do not parse is outside the
    model. *)
Record SearchQuery := mkQuery {
  q_from        : list string;
  q_to          : list string;
  q_time        : Z;
  q_offset      : Z;
  q_after_dep   : Z;
  q_limit       : Z;
  q_date        : string;
  q_train_types : option (list string);
}.

(** What the handler does with a request: a JSON error, the JSON answer of
    a search, or an exception that leaves the handler before any response
    is written. *)
Inductive Response :=
| JsonError (status : Z) (error : string)
| JsonOk (status : Z) (journeys : list Journey)
         (next_offset last_dep_time : Z)
| Thrown.

Section Server.

(** The artifacts loaded by [initEngine]: the transfer index, [stopsIndex],
    the keys of [stops], [routeTrips] and the calendar index. *)
Variable transferIndex : gmap string (list RawTransfer).
Variable stopsIndex    : list Station.
Variable stopKeys      : list string.
Variable routeTrips    : list (string * list Trip).
Variable calendarIndex : gmap string (list string).

(** Platform functions: [utcMonth] and [detectUnstored] as above; [normCity]
    is [toLowerCase().normalize('NFD')] followed by the removal of the
    combining marks. *)
Variable utcMonth       : string -> option Z.
Variable normCity       : string -> string.
Variable detectUnstored : string -> string -> string -> string -> string.

Definition cityKeyOfStop (stopId : string) : string :=
  match List.find (fun s => bool_decide (stopId ∈ st_stopIds s)) stopsIndex with
  | Some s =>
      normCity (Js.or_else (st_city s) (st_name s))
        +:+ ":" +:+ Js.or_else (st_country s) "FR"
  | None => stopId
  end.

Definition searchJourneys (originIds destIds : list string) (startTime : Z)
           (stt : gmap string (list TripRef)) (limit : Z)
           (dateISO : string) (allowedTypes : option (list string))
  : list Journey :=
  searchJourneysWith
    (fun t => raptorCore transferIndex utcMonth detectUnstored
                originIds (Some destIds) t stt dateISO)
    cityKeyOfStop startTime limit allowedTypes.

(** [id.match(/StopArea:OCE(\d{8})$/)] *)
Definition areaMatch (id : string) : option string :=
  let n := String.length id in
  if (20 <=? n)%nat then
    let tail := Js.drop_str (n - 20) id in
    let uic := Js.drop_str 12 tail in
    if Js.starts_with "StopArea:OCE" tail && Js.all_chars Js.is_digit uic
    then Some uic else None
  else None.

Definition expandArea (id : string) (out : list string) : list string :=
  match areaMatch id with
  | Some uic =>
      fold_left
        (fun o sid => if Js.ends_with sid ("-" +:+ uic)
                      then Js.set_add sid o else o)
        stopKeys out
  | None => out
  end.

Definition addSister (mode : Mode) (inputSet : list string) (id : string)
           (out : list string) (entry : TransferEntry) : list string :=
  let sister := te_id entry in
  match mode with
  | Dest =>
      if Js.set_has sister inputSet then out
      else if te_interCity entry then out
      else if bool_decide (extractOperator id = extractOperator sister)
           then Js.set_add sister out
           else out
  | Origin => Js.set_add sister out
  end.

(** [transferEntries(id)] for an identifier taken from the query string:
    when [id] is the name of an inherited property, [transferIndex[id] || []]
    is not an array and the call of [.map] throws a TypeError ([None]). *)
Definition transferEntriesOf (id : string) : option (list TransferEntry) :=
  if Js.inherited id then None
  else Some (transferEntries transferIndex id).

(** One turn of [for (const id of ids)]; [None] once an exception has been
    thrown. *)
Definition resolveOne (mode : Mode) (inputSet : list string)
           (out : option (list string)) (id : string)
  : option (list string) :=
  match out with
  | None => None
  | Some o =>
      match transferEntriesOf id with
      | None => None
      | Some entries =>
          Some (fold_left (addSister mode inputSet id) entries
                          (expandArea id o))
      end
  end.

Definition resolveStopIds (ids : list string) (mode : Mode)
  : option (list string) :=
  fold_left (resolveOne mode ids) ids (Some (uniq ids)).

(** [Math.max(...journeys.map(j => j.dep_time || 0))] on a non-empty
    list. *)
Definition maxDepOf (js : list Journey) : Z :=
  match js with
  | [] => 0
  | j :: rest => fold_left Z.max (j_dep_time <$> rest) (j_dep_time j)
  end.

Definition handleSearch (q : SearchQuery) : Response :=
  match q_from q, q_to q with
  | [], _ | _, [] => JsonError 400 "from et to requis"
  | _ :: _, _ :: _ =>
      let limit := Z.min (q_limit q) 32 in
      let startSec := Z.max (q_time q + q_offset q) (q_after_dep q) in
      match getFilteredData routeTrips calendarIndex (q_date q),
            resolveStopIds (uniq (q_from q)) Origin,
            resolveStopIds (uniq (q_to q)) Dest with
      | Some stt, Some uniqueFrom, Some uniqueTo =>
          let journeys :=
            searchJourneys uniqueFrom uniqueTo startSec stt limit (q_date q)
                           (q_train_types q) in
          let lastDep :=
            match journeys with
            | [] => startSec
            | _ :: _ => maxDepOf journeys
            end in
          JsonOk 200 journeys (lastDep - q_time q) lastDep
      | _, _, _ => Thrown
      end
  end.

End Server.

(* ===================================================================== *)
(** * Ingestion (gtfs-ingest.js) *)
(* ===================================================================== *)

Module Ingest.

(** An element of [tripStops[trip_id]]. *)
Record StopRow := mkRow {
  seq      : Z;
  stop_id  : string;
  dep_time : option Z;
  arr_time : option Z;
}.

(** [a.dep_time ?? a.arr_time ?? 0], the key of the chronological sort. *)
Definition timeKey (a : StopRow) : Z :=
  default 0 (Js.nullish (dep_time a) (arr_time a)).

Definition seqLeb (a b : StopRow) : bool := seq a - seq b <=? 0.
Definition timeLeb (a b : StopRow) : bool := timeKey a - timeKey b <=? 0.

(** ** The circular-trip repair of ingestOperator *)

(** The loop [for (let i = 1; i < stops.length; i++)]: [prev] is
    [stops[i-1]], [cur] is [stops.slice(segStart, i)]. *)
Fixpoint splitSegments (prev : StopRow) (rest : list StopRow)
         (cur : list StopRow) : list (list StopRow) :=
  match rest with
  | [] => [cur]
  | s :: rest' =>
      let prevTime := default (-1) (Js.nullish (dep_time prev) (arr_time prev)) in
      let currTime :=
        default (prevTime + 1) (Js.nullish (arr_time s) (dep_time s)) in
      if (0 <=? prevTime) && (currTime <? prevTime - 600)
      then cur :: splitSegments s rest' [s]
      else splitSegments s rest' (cur ++ [s])
  end.

Definition segmentsOf (stops : list StopRow) : list (list StopRow) :=
  match stops with
  | [] => [[]]
  | s :: rest => splitSegments s rest [s]
  end.

(** Key of [segments.sort]: the time of the first stop of a segment. *)
Definition segKey (seg : list StopRow) : Z :=
  match seg with
  | [] => 0
  | s :: _ => timeKey s
  end.

Definition segLeb (a b : list StopRow) : bool := segKey a - segKey b <=? 0.

(** The loop [for (let k = 1; k < segments.length; k++)]: [done ++ [cur]]
    is [mergedSegs]. *)
Fixpoint mergeSegs (done : list (list StopRow)) (cur : list StopRow)
         (segs : list (list StopRow)) : list (list StopRow) :=
  match segs with
  | [] => done ++ [cur]
  | seg :: rest =>
      match List.last (Some <$> cur) None, seg with
      | Some lastStop, firstStop :: _ =>
          let lastTime :=
            default (-1) (Js.nullish (arr_time lastStop) (dep_time lastStop)) in
          let firstTime :=
            default (lastTime + 1)
                    (Js.nullish (dep_time firstStop) (arr_time firstStop)) in
          if lastTime - 600 <=? firstTime
          then mergeSegs done (cur ++ seg) rest
          else mergeSegs (done ++ [cur]) seg rest
      | _, _ => mergeSegs (done ++ [cur]) seg rest
      end
  end.

(** [mergedSegs.sort((a, b) => b.length - a.length)] *)
Definition longerLeb (a b : list StopRow) : bool :=
  Z.of_nat (length b) - Z.of_nat (length a) <=? 0.

Definition repairTrip (stops : list StopRow) : list StopRow :=
  let sorted := stable_sort seqLeb stops in
  let segments := segmentsOf sorted in
  if (1 <? length segments)%nat then
    match stable_sort segLeb segments with
    | [] => []
    | first :: others =>
        match stable_sort longerLeb (mergeSegs [] first others) with
        | [] => []
        | longest :: _ => stable_sort timeLeb longest
        end
    end
  else stable_sort timeLeb sorted.

(** ** buildTransferIndex *)

Definition ensureKey (T : gmap string (list string)) (a : string)
  : gmap string (list string) :=
  match T !! a with
  | Some _ => T
  | None => <[a := []]> T
  end.

(** [if (!T[a].includes(b)) T[a].push(b)], [T[a]] being present. *)
Definition pushNew (T : gmap string (list string)) (a b : string)
  : gmap string (list string) :=
  let l := default [] (T !! a) in
  if decide (b ∈ l) then T else <[a := l ++ [b]]> T.

Record ManifestStation := mkManifest {
  stopIds : list string;      (* empty when the field is absent *)
}.

Section BuildTransferIndex.

(** Coordinates are floating-point numbers; [near s1 s2] stands for
    [haversine(s1.lat, s1.lon, s2.lat, s2.lon) < 300]. *)
Variable Stop : Type.
Variable near : Stop -> Stop -> bool.

(** [stopsDict] in [Object.keys] order; [stations] is the content of
    stations.json, [None] when the file does not exist. *)
Variable stopsDict : list (string * Stop).
Variable stations  : option (list ManifestStation).

Definition inDict (id : string) : bool :=
  bool_decide (id ∈ (fst <$> stopsDict)).

Definition geoInner (e1 : string * Stop)
           (T : gmap string (list string)) (e2 : string * Stop)
  : gmap string (list string) :=
  if near (snd e1) (snd e2) then
    let T1 := ensureKey (ensureKey T (fst e1)) (fst e2) in
    pushNew (pushNew T1 (fst e1) (fst e2)) (fst e2) (fst e1)
  else T.

Fixpoint geoLinks (l : list (string * Stop))
         (T : gmap string (list string)) : gmap string (list string) :=
  match l with
  | [] => T
  | e1 :: rest => geoLinks rest (fold_left (geoInner e1) rest T)
  end.

Definition manualInner (idA : string) (T : gmap string (list string))
           (idB : string) : gmap string (list string) :=
  if bool_decide (idA ≠ idB) && inDict idB
     && bool_decide (idB ∉ default [] (T !! idA))
  then <[idA := default [] (T !! idA) ++ [idB]]> T
  else T.

Definition manualOuter (ids : list string)
           (T : gmap string (list string)) (idA : string)
  : gmap string (list string) :=
  if inDict idA then fold_left (manualInner idA) ids (ensureKey T idA)
  else T.

Definition manualStation (T : gmap string (list string))
           (station : ManifestStation) : gmap string (list string) :=
  if (length (stopIds station) <? 2)%nat then T
  else fold_left (manualOuter (stopIds station)) (stopIds station) T.

Definition buildTransferIndex : gmap string (list string) :=
  let T1 := geoLinks stopsDict ∅ in
  match stations with
  | Some sts => fold_left manualStation sts T1
  | None => T1
  end.

End BuildTransferIndex.

End Ingest.

(* ===================================================================== *)
(** * Vocabulary of the statements *)
(* ===================================================================== *)

(** [links T a]: the transfer list of [a] in an index built at ingestion,
    empty when [a] has none. *)
Definition links (T : gmap string (list string)) (a : string)
  : list string := default [] (T !! a).

Definition symmetric (T : gmap string (list string)) : Prop :=
  ∀ a b, b ∈ links T a ↔ a ∈ links T b.

(** The query date falls in the months 4 to 9. *)
Definition summerDate (utcMonth : string → option Z) (dateISO : string)
  : Prop :=
  ∃ month, utcMonth dateISO = Some month ∧ 4 <= month <= 9.

(** A reading of [utcMonth] for calendar dates written [YYYY-MM-DD]: noon
    UTC of such a day lies in the month that is written.  Other strings
    are given no month. *)
Definition digitVal (c : ascii) : option Z :=
  if Js.is_digit c then Some (Z.of_nat (nat_of_ascii c) - 48) else None.

Definition daysInMonth (year month : Z) : Z :=
  if month =? 2 then
    if ((year mod 4 =? 0) && negb (year mod 100 =? 0)) || (year mod 400 =? 0)
    then 29 else 28
  else if (month =? 4) || (month =? 6) || (month =? 9) || (month =? 11)
       then 30 else 31.

Definition isoMonth (d : string) : option Z :=
  match d with
  | String y1 (String y2 (String y3 (String y4 (String s1
      (String m1 (String m2 (String s2 (String d1 (String d2 EmptyString))))))))) =>
      match digitVal y1, digitVal y2, digitVal y3, digitVal y4,
            digitVal m1, digitVal m2, digitVal d1, digitVal d2 with
      | Some a, Some b, Some c, Some e, Some f, Some g, Some h, Some i =>
          let year := 1000 * a + 100 * b + 10 * c + e in
          let month := 10 * f + g in
          let day := 10 * h + i in
          if bool_decide (s1 = "-"%char) && bool_decide (s2 = "-"%char)
             && (1 <=? month) && (month <=? 12)
             && (1 <=? day) && (day <=? daysInMonth year month)
          then Some month else None
      | _, _, _, _, _, _, _, _ => None
      end
  | _ => None
  end.

(** The earliest arrival among the journeys of [js] that end at [d]; [None]
    when no journey ends there. *)
Definition bestArrivalAt (d : string) (js : list Journey) : option Z :=
  fold_left
    (fun best j =>
       if bool_decide (lastStopOf j = d) then
         match best with
         | Some b => Some (Z.min b (j_arr_time j))
         | None => Some (j_arr_time j)
         end
       else best)
    js None.

(* ===================================================================== *)
(** * Small timetables used to run the engine *)
(* ===================================================================== *)

(** City names of the examples are lower-case ASCII, which [normCity]
    leaves unchanged; every trip carries its train type, so the detection
    of unstored types is never consulted. *)
Definition asciiNorm (s : string) : string := s.
Definition fallbackType (from_stop trip_id op route_id : string) : string :=
  "TRAIN".

Definition stopAt (s : string) (t : Z) : StopTime :=
  mkStopTime s (Some t) (Some t).

(** A Trenitalia trip leaving Milano at 11:00 (Italian clock). *)
Definition milanoParis : Trip :=
  mkTrip "TI:9292" "TI:svc" "FRECCIAROSSA" "TI"
         [stopAt "TI:S01700" 39600; stopAt "TI:S08727" 64800].

(** Two legs of different types: an INOUI from O to X, a TER from X to D. *)
Definition twoLegTrips : list (string * list Trip) :=
  [ ("SNCF:R1", [mkTrip "SNCF:T1" "SNCF:svc" "INOUI" "SNCF"
                        [stopAt "SNCF:O" 25200; stopAt "SNCF:X" 28800]]);
    ("SNCF:R2", [mkTrip "SNCF:T2" "SNCF:svc" "TER" "SNCF"
                        [stopAt "SNCF:X" 30000; stopAt "SNCF:D" 32400]]) ].

Definition twoLegJourney : Journey :=
  mkJourney 25200 32400 120 1 ["INOUI"; "TER"]
    [ mkLeg "SNCF:O" "SNCF:X" 25200 28800 "SNCF:T1" "SNCF:R1" "SNCF" "INOUI" 60;
      mkLeg "SNCF:X" "SNCF:D" 30000 32400 "SNCF:T2" "SNCF:R2" "SNCF" "TER" 40 ].

(** O walks to N, N walks to M (the index does not link O and M); a trip
    O -> N, a trip M -> D and a slow direct trip O -> D. *)
Definition chainTransfers : gmap string (list RawTransfer) :=
  <["SNCF:O" := [RawId "SNCF:N"]]> (<["SNCF:N" := [RawId "SNCF:M"]]> ∅).

Definition chainTrips : list (string * list Trip) :=
  [ ("SNCF:R1", [mkTrip "SNCF:T1" "SNCF:svc" "TER" "SNCF"
                        [stopAt "SNCF:O" 1000; stopAt "SNCF:N" 1100]]);
    ("SNCF:R2", [mkTrip "SNCF:T2" "SNCF:svc" "TER" "SNCF"
                        [stopAt "SNCF:M" 2000; stopAt "SNCF:D" 3000]]);
    ("SNCF:R3", [mkTrip "SNCF:T3" "SNCF:svc" "TER" "SNCF"
                        [stopAt "SNCF:O" 1500; stopAt "SNCF:D" 9000]]) ].

(** Origin O, whose only neighbour N is another station of the same city;
    one trip N -> D. *)
Definition cityTransfers : gmap string (list RawTransfer) :=
  <["SNCF:O" := [RawObj "SNCF:N" true]]> ∅.

Definition cityTrips : list (string * list Trip) :=
  [ ("SNCF:R1", [mkTrip "SNCF:T1" "SNCF:svc" "TER" "SNCF"
                        [stopAt "SNCF:N" 4000; stopAt "SNCF:D" 5000]]) ].

(** The measure that bounds the turns of the enumeration loop: thirty per
    result still missing, plus the empty advances left before [maxT]. *)
Definition loopPotential (startTime limit : Z) (st : LoopState) : Z :=
  30 * Z.max 0 (limit - Z.of_nat (length (ls_results st)))
  + Z.max 0 ((maxT startTime - ls_t st) / 1800 + 1).

(** The loop has left through its guard or through [break]. *)
Definition loopExited (startTime limit : Z) (st : LoopState) : Prop :=
  loopGuard startTime limit st = false ∨ ls_broke st = true.

(** A journey that the batch loop of the enumeration is willing to push. *)
Definition accepted (core : Z → list Journey) (startTime : Z)
           (allowedTypes : option (list string)) (j : Journey) : Prop :=
  (∃ t, j ∈ core t) ∧ startTime <= j_dep_time j
  ∧ passesFilter allowedTypes j = true.

(** The invariant of the deduplication loop after the journeys [seen] have
    been processed. *)
Definition dedupeInv (cityKey : string → string)
           (m : list ((Z * string) * Journey)) (seen : list Journey) : Prop :=
  NoDup m.*1
  ∧ (∀ k j, (k, j) ∈ m → dedupeKey cityKey j = k ∧ j ∈ seen)
  ∧ (∀ j', j' ∈ seen →
       ∃ j, oget (dedupeKey cityKey j') m = Some j
            ∧ j_duration j <= j_duration j').

(** Pointwise order on labels, a missing label standing for +Infinity:
    wherever [τ2] has a label, [τ1] has one that is not later. *)
Definition tau_le (τ1 τ2 : gmap string Z) : Prop :=
  ∀ x b, τ2 !! x = Some b → ∃ a, τ1 !! x = Some a ∧ a <= b.

(** Two initial states that differ by a shift [δ] of every label. *)
Definition shiftedCore (δ : Z) (c c' : CoreState) : Prop :=
  cs_tau_best c' = (fun t => t + δ) <$> cs_tau_best c
  ∧ cs_marked c' = cs_marked c
  ∧ cs_originSet c' = cs_originSet c.

(** The labels after the trip scans of the first round. *)
Definition firstScan (transferIndex : gmap string (list RawTransfer))
           (utcMonth : string → option Z) (originIds : list string)
           (startTime : Z) (stt : gmap string (list TripRef))
           (dateISO : string) : gmap string Z :=
  let c := raptorInit transferIndex originIds startTime in
  tauBest (scanMarked utcMonth stt dateISO (cs_marked c)
             (mkScan (cs_tau_best c) [] (cs_parent c))).

(** [designates id sid]: [id] is a stop-area identifier whose UIC code is
    the suffix of the stop [sid] (the expansion made by
    [resolveStopIds]). *)
Definition designates (id sid : string) : bool :=
  match areaMatch id with
  | Some uic => Js.ends_with sid ("-" +:+ uic)
  | None => false
  end.

(** [servedBy routeTrips id]: some trip of the timetable calls at [id]. *)
Definition servedBy (routeTrips : list (string * list Trip)) (id : string)
  : Prop :=
  ∃ route trip st,
    route ∈ routeTrips ∧ trip ∈ snd route ∧ st ∈ stop_times trip
    ∧ stop_id st = id.

(** A stop id unknown to the timetable: it is not a stop, has no transfer
    list, no trip calls at it, and it is not a stop-area alias of a stop. *)
Definition unknownStop (transferIndex : gmap string (list RawTransfer))
           (stopKeys : list string)
           (routeTrips : list (string * list Trip)) (id : string) : Prop :=
  (id ∉ stopKeys)
  ∧ transferIndex !! id = None
  ∧ ¬ servedBy routeTrips id
  ∧ ∀ sid, sid ∈ stopKeys → designates id sid = false.

(** A query whose identifiers are all unknown on the two-leg timetable. *)
Definition unknownQuery : SearchQuery :=
  mkQuery ["SNCF:nowhere"] ["XX:nowhere-either"] 28800 0 0 8 "" None.

(** A journey as [reconstructJourney] builds them: its aggregates are those
    of its legs, of which there is at least one. *)
Definition journeyWF (j : Journey) : Prop :=
  journeyOfLegs (j_legs j) = Some j.

(** A timetable without transfers on which the five-round cap decides:
    from O the stops S2 and S1 are reached in the first round; X is reached
    from S1, Y from X (on a trip that also calls at S2, too early), then
    Z1, Z2 and D one round each.  A slow direct trip O -> D also exists. *)
Definition capTrips : list (string * list Trip) :=
  [ ("SNCF:Ra", [mkTrip "SNCF:Ta" "SNCF:svc" "TER" "SNCF"
                        [stopAt "SNCF:O" 10; stopAt "SNCF:S2" 70]]);
    ("SNCF:Rb", [mkTrip "SNCF:Tb" "SNCF:svc" "TER" "SNCF"
                        [stopAt "SNCF:O" 30; stopAt "SNCF:S1" 80]]);
    ("SNCF:Rc", [mkTrip "SNCF:Tc" "SNCF:svc" "TER" "SNCF"
                        [stopAt "SNCF:O" 40; stopAt "SNCF:S2" 90]]);
    ("SNCF:Rd", [mkTrip "SNCF:Td" "SNCF:svc" "TER" "SNCF"
                        [stopAt "SNCF:O" 45; stopAt "SNCF:D" 10000]]);
    ("SNCF:R1", [mkTrip "SNCF:T1" "SNCF:svc" "TER" "SNCF"
                        [stopAt "SNCF:S1" 100; stopAt "SNCF:X" 200]]);
    ("SNCF:R2", [mkTrip "SNCF:T2" "SNCF:svc" "TER" "SNCF"
                        [stopAt "SNCF:S2" 50; stopAt "SNCF:X" 300;
                         stopAt "SNCF:Y" 400]]);
    ("SNCF:R3", [mkTrip "SNCF:T3" "SNCF:svc" "TER" "SNCF"
                        [stopAt "SNCF:Y" 500; stopAt "SNCF:Z1" 600]]);
    ("SNCF:R4", [mkTrip "SNCF:T4" "SNCF:svc" "TER" "SNCF"
                        [stopAt "SNCF:Z1" 700; stopAt "SNCF:Z2" 800]]);
    ("SNCF:R5", [mkTrip "SNCF:T5" "SNCF:svc" "TER" "SNCF"
                        [stopAt "SNCF:Z2" 900; stopAt "SNCF:D" 1000]]) ].

(** The Milano -> Paris timetable of the clock-shift scenario. *)
Definition milanoTrips : list (string * list Trip) :=
  [ ("TI:FR", [milanoParis]) ].

(** Origin A with a same-station neighbour B (3 min) and a neighbour C in
    another station of the city (45 min); a trip leaves B at 08:02 and one
    leaves C at 08:44. *)
Definition categoryTransfers : gmap string (list RawTransfer) :=
  <["SNCF:A" := [RawId "SNCF:B"; RawObj "SNCF:C" true]]> ∅.

Definition categoryTrips : list (string * list Trip) :=
  [ ("SNCF:R1", [mkTrip "SNCF:T1" "SNCF:svc" "TER" "SNCF"
                        [stopAt "SNCF:B" 28920; stopAt "SNCF:D1" 32400]]);
    ("SNCF:R2", [mkTrip "SNCF:T2" "SNCF:svc" "TER" "SNCF"
                        [stopAt "SNCF:C" 31440; stopAt "SNCF:D2" 36000]]) ].

(** Two stations of Lyon, and two journeys leaving Paris at 07:00 that
    arrive at one and the other. *)
Definition lyonStations : list Station :=
  [ mkStation "Lyon Part-Dieu" "lyon" "FR" ["SNCF:PartDieu"];
    mkStation "Lyon Perrache" "lyon" "FR" ["SNCF:Perrache"] ].

Definition toPartDieu : Journey :=
  mkJourney 25200 32400 120 0 ["INOUI"]
    [ mkLeg "SNCF:ParisLyon" "SNCF:PartDieu" 25200 32400 "SNCF:T1" "SNCF:R1"
            "SNCF" "INOUI" 120 ].

Definition toPerrache : Journey :=
  mkJourney 25200 32700 125 0 ["INOUI"]
    [ mkLeg "SNCF:ParisLyon" "SNCF:Perrache" 25200 32700 "SNCF:T2" "SNCF:R2"
            "SNCF" "INOUI" 125 ].

(** A journey reduced to the three fields the final order looks at. *)
Definition sketch (transfers duration dep : Z) : Journey :=
  mkJourney dep (dep + 60 * duration) duration transfers [] [].

(* ===================================================================== *)
(** * Further vocabulary: indexes, resolution, results, soundness *)
(* ===================================================================== *)

(** [callsAt tripsData sid r]: the reference [r] designates a call at
    [sid]: a trip of a route of [tripsData] whose stop time at position
    [tr_idx r] is at [sid]. *)
Definition callsAt (tripsData : list (string * list Trip)) (sid : string)
           (r : TripRef) : Prop :=
  ∃ trips st,
    (tr_routeId r, trips) ∈ tripsData ∧ tr_trip r ∈ trips
    ∧ stop_times (tr_trip r) !! tr_idx r = Some st ∧ stop_id st = sid.

(** The entries of a stop-to-trips index at a stop, none when the stop has
    no key. *)
Definition refsAt (stt : gmap string (list TripRef)) (sid : string)
  : list TripRef := default [] (stt !! sid).

(** ** getFilteredData with its cache

    [filteredTrips] is the object built by the loop over
    [Object.entries(routeTrips)]: the trips of every route whose service is
    active, routes left without a trip being dropped. *)
Definition filteredTrips (routeTrips : list (string * list Trip))
           (active : list string) : list (string * list Trip) :=
  filter (fun rt => snd rt ≠ [])
    ((fun rt : string * list Trip =>
        (fst rt, filter (fun t => service_id t ∈ active) (snd rt)))
       <$> routeTrips).

(** [dateCache] is a [Map] from dates to results, in insertion order;
    [dateCache.delete(dateCache.keys().next().value)] removes its oldest
    entry.  The call returns its answer ([None] when it throws) and the
    cache it leaves. *)
Definition getFilteredDataCached (routeTrips : list (string * list Trip))
           (calendarIndex : gmap string (list string))
           (dateCache : list (string * gmap string (list TripRef)))
           (dateISO : string)
  : option (gmap string (list TripRef))
    * list (string * gmap string (list TripRef)) :=
  if negb (Js.truthy dateISO)
  then (Some (buildStopToTrips routeTrips), dateCache)
  else
    match oget dateISO dateCache with
    | Some cached => (Some cached, dateCache)
    | None =>
        if Js.inherited dateISO then (None, dateCache)
        else
          match calendarIndex !! dateISO with
          | None => (Some (buildStopToTrips routeTrips), dateCache)
          | Some active =>
              let result :=
                buildStopToTrips (filteredTrips routeTrips active) in
              let evicted :=
                if (7 <=? length dateCache)%nat then drop 1 dateCache
                else dateCache in
              (Some result, oset dateISO result evicted)
          end
    end.

(** A sequence of calls, the cache being threaded from one to the next. *)
Fixpoint serveDates (routeTrips : list (string * list Trip))
         (calendarIndex : gmap string (list string))
         (dateCache : list (string * gmap string (list TripRef)))
         (dates : list string)
  : list (option (gmap string (list TripRef)))
    * list (string * gmap string (list TripRef)) :=
  match dates with
  | [] => ([], dateCache)
  | d :: rest =>
      let '(answer, cache1) :=
        getFilteredDataCached routeTrips calendarIndex dateCache d in
      let '(answers, cache2) :=
        serveDates routeTrips calendarIndex cache1 rest in
      (answer :: answers, cache2)
  end.

(** The cache holds at most seven entries, each the answer of the uncached
    function for a non-empty date. *)
Definition cacheOK (routeTrips : list (string * list Trip))
           (calendarIndex : gmap string (list string))
           (dateCache : list (string * gmap string (list TripRef))) : Prop :=
  (length dateCache <= 7)%nat
  ∧ ∀ d v, (d, v) ∈ dateCache →
           Js.truthy d = true
           ∧ getFilteredData routeTrips calendarIndex d = Some v.

(** A calendar with one Monday service, for the timetable of the two-leg
    example. *)
Definition mondayCalendar : gmap string (list string) :=
  <["2025-06-02" := ["SNCF:svc"]]> ∅.

(** [sisterKept mode id e]: the neighbour [e] of the input [id] passes the
    tests that [resolveStopIds] makes in mode [dest] (no test is made in
    mode [origin]). *)
Definition sisterKept (mode : Mode) (id : string) (e : TransferEntry)
  : Prop :=
  match mode with
  | Origin => True
  | Dest =>
      te_interCity e = false ∧ extractOperator id = extractOperator (te_id e)
  end.

(** Paris Gare de Lyon: a stop area, two of its platforms and the
    Trenitalia stop of the same station. *)
Definition parisKeys : list string :=
  [ "SNCF:StopArea:OCE87686006";
    "SNCF:StopPoint:OCETGV INOUI-87686006";
    "SNCF:StopPoint:OCEOUIGO-87686006";
    "TI:S08727" ].

Definition parisTransfers : gmap string (list RawTransfer) :=
  <["SNCF:StopArea:OCE87686006" :=
      [RawId "TI:S08727"; RawObj "SNCF:StopArea:OCE87113001" true]]> ∅.

(** A step that only inserts keeps duplicate-freedom and what is already
    there. *)
Definition growing (f : list string → list string) : Prop :=
  ∀ out, (NoDup out → NoDup (f out)) ∧ out `prefix_of` f out.

(** The order of the result list: fewer transfers first, then the shorter
    duration, then the earlier departure. *)
Definition journeyBefore (a b : Journey) : Prop :=
  j_transfers a < j_transfers b
  ∨ (j_transfers a = j_transfers b
     ∧ (j_duration a < j_duration b
        ∨ (j_duration a = j_duration b ∧ j_dep_time a <= j_dep_time b))).

(** A journey found by a run of the core started inside the 14-hour search
    window, which leaves at or after the requested time. *)
Definition foundInWindow (core : Z → list Journey) (startTime : Z)
           (j : Journey) : Prop :=
  (∃ t, startTime <= t <= startTime + 14 * 3600 ∧ j ∈ core t)
  ∧ startTime <= j_dep_time j.

(** The collected journeys have pairwise distinct trip sequences, all
    recorded in [seen]. *)
Definition seenInv (results : list Journey) (seen : gset string) : Prop :=
  NoDup (journeyKey <$> results)
  ∧ ∀ j, j ∈ results → journeyKey j ∈ seen.

(** A query on the two-leg timetable: from O to D at 07:00. *)
Definition twoLegQuery : SearchQuery :=
  mkQuery ["SNCF:O"] ["SNCF:D"] 25200 0 0 8 "" None.

(** ** Vocabulary for the journeys of the core *)

Definition entryFrom (p : ParentEntry) : string :=
  match p with
  | Ride from _ _ _ _ _ _ => from
  | Walk from _ _ => from
  end.

Definition entryDep (p : ParentEntry) : Z :=
  match p with
  | Ride _ _ _ dep _ _ _ => dep
  | Walk _ dep _ => dep
  end.

Definition entryArr (p : ParentEntry) : Z :=
  match p with
  | Ride _ _ _ _ arr _ _ => arr
  | Walk _ _ arr => arr
  end.

(** [walks transferIndex a b d]: [b] is reached from [a] along edges of the
    transfer index, [d] being the sum of their transfer times; [a] itself is
    reached in no time. *)
Inductive walks (transferIndex : gmap string (list RawTransfer))
  : string → string → Z → Prop :=
| walks_here (a : string) : walks transferIndex a a 0
| walks_step (a c : string) (d : Z) (e : TransferEntry) :
    e ∈ transferEntries transferIndex a →
    walks transferIndex (te_id e) c d →
    walks transferIndex a c (transferTime a e + d).

(** [rideOn utcMonth stt dateISO from to tid rid dep arr]: an indexed trip
    [tid] of route [rid] calls at [from], where it is read to leave at
    [dep], and at a later position at [to], where it is read to arrive at
    [arr] (the reads being those of [scanTrip], clock shift included). *)
Definition rideOn (utcMonth : string → option Z)
           (stt : gmap string (list TripRef)) (dateISO : string)
           (from to tid rid : string) (dep arr : Z) : Prop :=
  ∃ stop r i k sti stk,
    r ∈ refsAt stt stop
    ∧ trip_id (tr_trip r) = tid ∧ tr_routeId r = rid
    ∧ (tr_idx r <= i)%nat ∧ (i < k)%nat
    ∧ stop_times (tr_trip r) !! i = Some sti ∧ stop_id sti = from
    ∧ readDep utcMonth (tr_trip r) sti dateISO = Some dep
    ∧ stop_times (tr_trip r) !! k = Some stk ∧ stop_id stk = to
    ∧ readArr utcMonth (tr_trip r) stk dateISO = Some arr.

Definition rideLeg (utcMonth : string → option Z)
           (stt : gmap string (list TripRef)) (dateISO : string) (l : Leg)
  : Prop :=
  rideOn utcMonth stt dateISO (leg_from_id l) (leg_to_id l) (leg_trip_id l)
         (leg_route_id l) (leg_dep_time l) (leg_arr_time l).

(** [feasible transferIndex l1 l2]: after the leg [l1], the boarding stop of
    [l2] is reached along transfer edges in time for its departure. *)
Definition feasible (transferIndex : gmap string (list RawTransfer))
           (l1 l2 : Leg) : Prop :=
  ∃ d, walks transferIndex (leg_to_id l1) (leg_from_id l2) d
       ∧ leg_arr_time l1 + d <= leg_dep_time l2.

(** What a predecessor record stands for. *)
Definition parentOK (transferIndex : gmap string (list RawTransfer))
           (utcMonth : string → option Z)
           (stt : gmap string (list TripRef)) (dateISO : string)
           (sid : string) (p : ParentEntry) : Prop :=
  match p with
  | Ride from tid rid dep arr _ _ =>
      rideOn utcMonth stt dateISO from sid tid rid dep arr
  | Walk from dep arr =>
      ∃ e, e ∈ transferEntries transferIndex from ∧ te_id e = sid
           ∧ arr = dep + transferTime from e
  end.

(** The invariant of the labels and predecessors of [raptorCore]:
    every predecessor record is a ride of the timetable or an edge of the
    transfer index; outside the origin set, the label of a stop is the
    arrival of its record; and the stop a record comes from bears a label
    that is not later than the departure of the record. *)
Definition engineInv (transferIndex : gmap string (list RawTransfer))
           (utcMonth : string → option Z)
           (stt : gmap string (list TripRef)) (dateISO : string)
           (originSet : gset string) (tau : gmap string Z)
           (par : gmap string ParentEntry) : Prop :=
  (∀ sid p, par !! sid = Some p →
            parentOK transferIndex utcMonth stt dateISO sid p)
  ∧ (∀ sid p, par !! sid = Some p → sid ∉ originSet →
              tau !! sid = Some (entryArr p))
  ∧ (∀ sid p, par !! sid = Some p →
              ∃ a, tau !! entryFrom p = Some a ∧ a <= entryDep p).

(** Every improvement recorded for the round is still at least as late as
    the label of its stop. *)
Definition curOK (tau : gmap string Z) (cur : list (string * Z)) : Prop :=
  ∀ sid arr, (sid, arr) ∈ cur → ∃ a, tau !! sid = Some a ∧ a <= arr.

(** While a trip is scanned from position [n] on, having been boarded:
    the boarding stop is a call of the trip before [n], and its label is
    not later than the boarding time. *)
Definition boardedOK (utcMonth : string → option Z) (dateISO : string)
           (r : TripRef) (n : nat) (boarded : option (string * Z))
           (tau : gmap string Z) : Prop :=
  match boarded with
  | None => True
  | Some (bs, bd) =>
      (∃ a, tau !! bs = Some a ∧ a <= bd)
      ∧ ∃ i sti, (tr_idx r <= i)%nat ∧ (i < n)%nat
                 ∧ stop_times (tr_trip r) !! i = Some sti
                 ∧ stop_id sti = bs
                 ∧ readDep utcMonth (tr_trip r) sti dateISO = Some bd
  end.

(** The stop where a list of legs ends (as [lastStopOf] for a journey). *)
Definition lastToOf (legs : list Leg) : string :=
  match List.last (Some <$> legs) None with
  | Some l => leg_to_id l
  | None => ""
  end.

(** The legs collected so far by the back-walk of [reconstructJourney],
    [current] being the stop it has reached: the legs are rides, each is
    followed feasibly by the next, the first of them can be boarded from
    [current], and the last of them leads to the destination. *)
Definition walkInv (transferIndex : gmap string (list RawTransfer))
           (utcMonth : string → option Z)
           (stt : gmap string (list TripRef)) (dateISO : string)
           (tau : gmap string Z) (destId current : string)
           (legs : list Leg) : Prop :=
  Forall (rideLeg utcMonth stt dateISO) legs
  ∧ Sorted (feasible transferIndex) legs
  ∧ match legs with
    | [] => ∃ d, walks transferIndex current destId d
    | first :: _ =>
        (∃ a d, tau !! current = Some a
                ∧ walks transferIndex current (leg_from_id first) d
                ∧ a + d <= leg_dep_time first)
        ∧ ∃ d, walks transferIndex (lastToOf legs) destId d
    end.

(** A journey as the core may return it for the destination [destId]. *)
Definition journeySound (transferIndex : gmap string (list RawTransfer))
           (utcMonth : string → option Z)
           (stt : gmap string (list TripRef)) (dateISO : string)
           (originSet : gset string) (destId : string) (j : Journey) : Prop :=
  Forall (rideLeg utcMonth stt dateISO) (j_legs j)
  ∧ Sorted (feasible transferIndex) (j_legs j)
  ∧ (∃ first o d, head (j_legs j) = Some first ∧ o ∈ originSet
                  ∧ walks transferIndex o (leg_from_id first) d)
  ∧ ∃ d, walks transferIndex (lastStopOf j) destId d.

(** The invariant kept while the trips of the marked stops are scanned. *)
Definition scanInv (transferIndex : gmap string (list RawTransfer))
           (utcMonth : string → option Z)
           (stt : gmap string (list TripRef)) (dateISO : string)
           (originSet : gset string) (s : ScanState) : Prop :=
  engineInv transferIndex utcMonth stt dateISO originSet (tauBest s)
            (parent s)
  ∧ curOK (tauBest s) (tauCur s).

(** The destination a collected journey was rebuilt for: one of the
    requested ones, or any stop in reachable-set mode. *)
Definition destOK (destIds : option (list string)) (did : string) : Prop :=
  match destIds with
  | Some dests => did ∈ dests
  | None => True
  end.

Definition roundInv (transferIndex : gmap string (list RawTransfer))
           (utcMonth : string → option Z)
           (stt : gmap string (list TripRef)) (dateISO : string)
           (originSet : gset string) (destIds : option (list string))
           (r : RoundState) : Prop :=
  engineInv transferIndex utcMonth stt dateISO originSet (rs_tau_best r)
            (rs_parent r)
  ∧ Forall (fun j => ∃ did, destOK destIds did
                            ∧ journeySound transferIndex utcMonth stt dateISO
                                           originSet did j)
           (rs_results r).

(** A stop of the origin set, as [raptorCore] builds it: a requested origin
    or the end of one of its edges that is not tagged inter-city. *)
Definition originLike (transferIndex : gmap string (list RawTransfer))
           (originIds : list string) (x : string) : Prop :=
  x ∈ originIds
  ∨ ∃ oid e, oid ∈ originIds ∧ e ∈ transferEntries transferIndex oid
             ∧ te_id e = x ∧ te_interCity e = false.

(** ** parseCSVLine (gtfs-ingest.js)

    The line is read character by character.  The two characters that are
    tested, the double quote and the comma, are ASCII: in the UTF-8 bytes
    of a [string] they occur exactly where they occur in the JavaScript
    string, so the loop is embedded byte by byte. *)
Definition dquote : ascii := ascii_of_nat 34.
Definition comma  : ascii := ","%char.

(** The loop: [cur] is the field being read, [inQ] the quote flag and
    [result] the fields already pushed. *)
Fixpoint parseCSVFrom (line cur : string) (inQ : bool) (result : list string)
  : list string :=
  match line with
  | EmptyString => result ++ [cur]
  | String c rest =>
      if decide (c = dquote) then parseCSVFrom rest cur (negb inQ) result
      else if bool_decide (c = comma) && negb inQ
           then parseCSVFrom rest "" inQ (result ++ [cur])
           else parseCSVFrom rest (cur +:+ String c "") inQ result
  end.

Definition parseCSVLine (line : string) : list string :=
  parseCSVFrom line "" false [].

(** [hasChar c s]: the character [c] occurs in [s]. *)
Fixpoint hasChar (c : ascii) (s : string) : bool :=
  match s with
  | EmptyString => false
  | String c' s' => bool_decide (c' = c) || hasChar c s'
  end.

(** A cell of a CSV line as a writer produces it: the content, and whether
    it is wrapped in double quotes. *)
Definition renderCell (cell : bool * string) : string :=
  if fst cell then String dquote (snd cell +:+ String dquote "")
  else snd cell.

(** A cell that can be written: no double quote in the content, and no
    comma unless the cell is quoted. *)
Definition cellOK (cell : bool * string) : Prop :=
  hasChar dquote (snd cell) = false
  ∧ (fst cell = false → hasChar comma (snd cell) = false).

(** ** Clock strings (server.js, gtfs-ingest.js)

    [split], [padStart] and [String(n)] on the strings of the model.  The
    separator and the filler are ASCII, so the bytes of a [string] are cut
    and padded as the JavaScript string is. *)
Fixpoint splitFrom (sep : ascii) (s cur : string) : list string :=
  match s with
  | EmptyString => [cur]
  | String c rest =>
      if decide (c = sep) then cur :: splitFrom sep rest ""
      else splitFrom sep rest (cur +:+ String c "")
  end.

(** [s.split(sep)] for a one-character separator. *)
Definition split (sep : ascii) (s : string) : list string :=
  splitFrom sep s "".

Fixpoint repeatChar (n : nat) (c : ascii) : string :=
  match n with
  | O => ""
  | S n' => String c (repeatChar n' c)
  end.

(** [s.padStart(n, c)] for a one-character filler. *)
Definition padStart (n : nat) (c : ascii) (s : string) : string :=
  repeatChar (n - String.length s) c +:+ s.

(** [String(n)] for an integer: its decimal writing, with a minus sign when
    negative. *)
Definition decimalOf (n : Z) : string := NilZero.string_of_int (Z.to_int n).

(** The value of a string of decimal digits. *)
Fixpoint digitsValueFrom (s : string) (acc : Z) : Z :=
  match s with
  | EmptyString => acc
  | String c s' =>
      digitsValueFrom s' (10 * acc + (Z.of_nat (nat_of_ascii c) - 48))
  end.

Definition digitsValue (s : string) : Z := digitsValueFrom s 0.

(** A reading of [Number] on the strings that are decimal writings of
    natural numbers; every other string is given [NaN] ([None]). *)
Definition decimalNumber (s : string) : option Z :=
  if Js.truthy s && Js.all_chars Js.is_digit s then Some (digitsValue s)
  else None.

(** A reading of [trim] for the whitespace of ASCII. *)
Fixpoint trimStart (s : string) : string :=
  match s with
  | EmptyString => EmptyString
  | String c s' => if Ascii.is_space c then trimStart s' else s
  end.

Definition asciiTrim (s : string) : string :=
  String.rev (trimStart (String.rev (trimStart s))).

Section Clock.

(** Platform functions: [Number s] is the value of [Number(s)] when it is
    an integer and [None] when it is [NaN] (a string whose value is a
    fraction or an infinity is outside the model); [trim] is
    [String.prototype.trim]. *)
Variable Number : string → option Z.
Variable trim   : string → string.

(** [secondsToHHMM(s)], [None] standing for [null] and [undefined]. *)
Definition secondsToHHMM (s : option Z) : string :=
  match s with
  | None => "--:--"
  | Some s =>
      let totalMin := s / 60 in
      padStart 2 "0" (decimalOf (Z.rem (totalMin / 60) 24))
      +:+ ":" +:+ padStart 2 "0" (decimalOf (Z.rem totalMin 60))
  end.

(** [timeToSeconds(t)] of server.js:
    [const [h,m] = t.split(':').map(Number); return h*3600+m*60], [None]
    standing for [NaN]. *)
Definition timeToSeconds (t : string) : option Z :=
  match Number <$> split ":" t with
  | Some h :: Some m :: _ => Some (h * 3600 + m * 60)
  | _ => None
  end.

(** [timeToSeconds(t)] of gtfs-ingest.js, [None] standing for [null]. *)
Definition gtfsTimeToSeconds (t : string) : option Z :=
  if negb (Js.truthy t) || negb (hasChar ":" t) then None
  else
    match Number <$> split ":" (trim t) with
    | Some h :: Some m :: rest =>
        Some (h * 3600 + m * 60
              + match rest with
                | Some s :: _ => s
                | _ => 0
                end)
    | _ => None
    end.

End Clock.

(** The readings of [Number] on decimal digits, and of [trim] on strings
    without whitespace at either end. *)
Definition readsDecimals (Number : string → option Z) : Prop :=
  ∀ s, s ≠ "" → Js.all_chars Js.is_digit s = true →
       Number s = Some (digitsValue s).

Definition keepsDigits (trim : string → string) : Prop :=
  ∀ s, Js.all_chars (fun c => Js.is_digit c || bool_decide (c = ":"%char)) s
       = true → trim s = s.

(** The character of a decimal digit. *)
Definition digitChar (d : Z) : ascii := ascii_of_nat (Z.to_nat (48 + d)).

(** The two-digit writing of a number below one hundred. *)
Definition twoDigits (n : Z) : string :=
  String (digitChar (n / 10)) (String (digitChar (n mod 10)) "").

(** ** The service calendar (gtfs-ingest.js)

    Rows as [readCSV] builds them from calendar.txt and calendar_dates.txt:
    every column is a string. *)
Record CalendarRow := mkCalendarRow {
  cal_service_id : string;
  cal_start_date : string;
  cal_end_date   : string;
  cal_sunday     : string;
  cal_monday     : string;
  cal_tuesday    : string;
  cal_wednesday  : string;
  cal_thursday   : string;
  cal_friday     : string;
  cal_saturday   : string;
}.

Record CalendarDateRow := mkCalendarDateRow {
  cd_service_id     : string;
  cd_date           : string;
  cd_exception_type : string;
}.

(** [row[DOW_KEYS[dow]]], [dow] being [Date.prototype.getDay()]. *)
Definition dowField (dow : nat) (row : CalendarRow) : string :=
  match dow with
  | 0%nat => cal_sunday row
  | 1%nat => cal_monday row
  | 2%nat => cal_tuesday row
  | 3%nat => cal_wednesday row
  | 4%nat => cal_thursday row
  | 5%nat => cal_friday row
  | 6%nat => cal_saturday row
  | _ => ""
  end.

(** [active.delete(x)] on an insertion-ordered [Set]. *)
Definition set_delete (x : string) (s : list string) : list string :=
  filter (fun y => y ≠ x) s.

Section Calendar.

(** Platform functions: for a string [d], [dateValue d] is the time value
    of [parseGTFSDate(d).date] ([None] for an invalid date) and
    [weekday d] is [parseGTFSDate(d).dow]; [trim] is
    [String.prototype.trim]. *)
Variable dateValue : string → option Z.
Variable weekday   : string → option nat.
Variable trim      : string → string.

(** [date >= start && date <= end && row[dowKey] === '1'] *)
Definition coversDate (row : CalendarRow) (gtfsDate : string) : bool :=
  match dateValue gtfsDate, dateValue (cal_start_date row),
        dateValue (cal_end_date row), weekday gtfsDate with
  | Some date, Some start, Some end_, Some dow =>
      (start <=? date) && (date <=? end_)
      && bool_decide (dowField dow row = "1")
  | _, _, _, _ => false
  end.

Definition addRegular (gtfsDate : string) (active : list string)
           (row : CalendarRow) : list string :=
  if coversDate row gtfsDate then Js.set_add (cal_service_id row) active
  else active.

Definition applyException (gtfsDate : string) (active : list string)
           (row : CalendarDateRow) : list string :=
  if bool_decide (trim (cd_date row) = gtfsDate) then
    if bool_decide (cd_exception_type row = "1")
    then Js.set_add (cd_service_id row) active
    else if bool_decide (cd_exception_type row = "2")
         then set_delete (cd_service_id row) active
         else active
  else active.

Definition computeActiveServices (calendarRows : list CalendarRow)
           (calendarDatesRows : list CalendarDateRow) (gtfsDate : string)
  : list string :=
  fold_left (applyException gtfsDate) calendarDatesRows
    (fold_left (addRegular gtfsDate) calendarRows []).

(** The exceptions of calendar_dates.txt that bear on a service on a
    date: the rows of that date and service whose type is 1 or 2. *)
Definition exceptionsFor (calendarDatesRows : list CalendarDateRow)
           (gtfsDate svc : string) : list CalendarDateRow :=
  filter (fun row => trim (cd_date row) = gtfsDate
                     ∧ cd_service_id row = svc
                     ∧ (cd_exception_type row = "1"
                        ∨ cd_exception_type row = "2"))
         calendarDatesRows.

(** The weekly calendar runs the service on the date. *)
Definition runsRegularly (calendarRows : list CalendarRow)
           (gtfsDate svc : string) : Prop :=
  ∃ row, row ∈ calendarRows ∧ cal_service_id row = svc
         ∧ coversDate row gtfsDate = true.

End Calendar.

(** ** mergeResults (gtfs-ingest.js)

    The dictionaries of an operator, as association lists in
    [Object.entries] order; the values that [mergeResults] only copies are
    kept abstract.  The keys of the calendars are the dates that
    [buildCalendarIndex] writes with two hyphens, so none is named like a
    member of [Object.prototype]. *)
Record OperatorResult (Stop RouteInfo RawTrip : Type) := mkOperatorResult {
  or_stopsDict          : list (string * Stop);
  or_routeInfo          : list (string * RouteInfo);
  or_routesByStopSerial : list (string * list string);
  or_routeStops         : list (string * list string);
  or_routeTrips         : list (string * list RawTrip);
  or_calendarIndex      : list (string * list string);
}.

Arguments mkOperatorResult {Stop RouteInfo RawTrip}.
Arguments or_stopsDict {Stop RouteInfo RawTrip}.
Arguments or_routeInfo {Stop RouteInfo RawTrip}.
Arguments or_routesByStopSerial {Stop RouteInfo RawTrip}.
Arguments or_routeStops {Stop RouteInfo RawTrip}.
Arguments or_routeTrips {Stop RouteInfo RawTrip}.
Arguments or_calendarIndex {Stop RouteInfo RawTrip}.

(** [Object.assign(target, source)] *)
Definition objectAssign {V : Type} (target source : list (string * V))
  : list (string * V) :=
  fold_left (fun t kv => oset (fst kv) (snd kv) t) source target.

(** One entry of [r.routesByStopSerial]: the routes are added to the [Set]
    of the stop, created when missing. *)
Definition mergeRoutes (m : list (string * list string))
           (e : string * list string) : list (string * list string) :=
  let m1 := match oget (fst e) m with
            | Some _ => m
            | None => oset (fst e) [] m
            end in
  fold_left (fun m rid => oset (fst e) (Js.set_add rid
                                          (default [] (oget (fst e) m))) m)
            (snd e) m1.

(** One entry of [r.calendarIndex]: the services are copied when the date
    is new, appended otherwise. *)
Definition mergeCalendar (m : list (string * list string))
           (e : string * list string) : list (string * list string) :=
  match oget (fst e) m with
  | None => oset (fst e) (snd e) m
  | Some services =>
      fold_left (fun m s => oset (fst e) (default [] (oget (fst e) m) ++ [s]) m)
                (snd e) m
  end.

Definition mergeOne {Stop RouteInfo RawTrip : Type}
           (merged : OperatorResult Stop RouteInfo RawTrip)
           (r : option (OperatorResult Stop RouteInfo RawTrip))
  : OperatorResult Stop RouteInfo RawTrip :=
  match r with
  | None => merged
  | Some r =>
      mkOperatorResult
        (objectAssign (or_stopsDict merged) (or_stopsDict r))
        (objectAssign (or_routeInfo merged) (or_routeInfo r))
        (fold_left mergeRoutes (or_routesByStopSerial r)
                   (or_routesByStopSerial merged))
        (objectAssign (or_routeStops merged) (or_routeStops r))
        (objectAssign (or_routeTrips merged) (or_routeTrips r))
        (fold_left mergeCalendar (or_calendarIndex r)
                   (or_calendarIndex merged))
  end.

(** [mergeResults(results)]; the field [or_routesByStopSerial] of the
    result is [merged.routesByStop]. *)
Definition mergeResults {Stop RouteInfo RawTrip : Type}
           (results : list (option (OperatorResult Stop RouteInfo RawTrip)))
  : OperatorResult Stop RouteInfo RawTrip :=
  fold_left mergeOne results (mkOperatorResult [] [] [] [] [] []).

(** The services that the entries of a calendar give for a date. *)
Definition servicesOn (calendarIndex : list (string * list string))
           (date : string) : list string :=
  calendarIndex ≫= (fun e => if decide (fst e = date) then snd e else []).

Definition servicesOfResult {Stop RouteInfo RawTrip : Type} (date : string)
           (r : option (OperatorResult Stop RouteInfo RawTrip))
  : list string :=
  match r with
  | Some r => servicesOn (or_calendarIndex r) date
  | None => []
  end.

(** ** The transfer index at start-up (initEngine of server.js) *)

(** [if (!T[a]) T[a] = []] *)
Definition ensureRaw (T : gmap string (list RawTransfer)) (a : string)
  : gmap string (list RawTransfer) :=
  match T !! a with
  | Some _ => T
  | None => <[a := []]> T
  end.

#[global] Instance RawTransfer_eq_dec : EqDecision RawTransfer.
Proof. solve_decision. Defined.

(** [if (!T[a].includes(b)) T[a].push(b)]: [includes] compares with the
    string [b], which an object entry never equals. *)
Definition pushRaw (T : gmap string (list RawTransfer)) (a b : string)
  : gmap string (list RawTransfer) :=
  let l := default [] (T !! a) in
  if bool_decide (RawId b ∈ l) then T else <[a := l ++ [RawId b]]> T.

(** [sid.match(/-(\d{8})$/)]: the eight digits that end the identifier
    after a hyphen. *)
Definition uicSuffix (sid : string) : option string :=
  let n := String.length sid in
  if (9 <=? n)%nat then
    let tail := Js.drop_str (n - 9) sid in
    let uic := Js.drop_str 1 tail in
    if Js.starts_with "-" tail && Js.all_chars Js.is_digit uic
    then Some uic else None
  else None.

(** The fallback used when transfer_index.json is missing: [uicMap] groups
    the stops by UIC code, then every stop of a group is linked to the
    others.  [stopKeys] is [Object.keys(stops)]. *)
Definition groupByUic (uicMap : list (string * list string)) (sid : string)
  : list (string * list string) :=
  match uicSuffix sid with
  | None => uicMap
  | Some uic => oset uic (default [] (oget uic uicMap) ++ [sid]) uicMap
  end.

Definition linkGroup (T : gmap string (list RawTransfer))
           (sids : list string) : gmap string (list RawTransfer) :=
  fold_left
    (fun T sid => <[sid := RawId <$> filter (fun s => s ≠ sid) sids]> T)
    sids T.

(** [uicMap] after the first loop over [Object.keys(stops)]. *)
Definition uicGroups (stopKeys : list string) : list (string * list string) :=
  fold_left groupByUic stopKeys [].

(** The second loop, over [values = Object.values(uicMap)].  A code without
    a leading zero is an array index for JavaScript, and such keys come
    first, in increasing order, whatever the order of insertion: [values]
    is some arrangement of the groups of [uicGroups]. *)
Definition uicFallback (values : list (list string))
  : gmap string (list RawTransfer) :=
  fold_left linkGroup values ∅.

(** [uicMap] holds, under each code, the stops seen so far that end with
    it, in the order they were seen. *)
Definition groupInv (m : list (string * list string)) (seen : list string)
  : Prop :=
  NoDup m.*1
  ∧ ∀ uic, default [] (oget uic m)
           = filter (fun s => uicSuffix s = Some uic) seen.

(** Three platforms of two stations, and a stop without a UIC code. *)
Definition uicStops : list string :=
  [ "SNCF:StopPoint:OCETGV INOUI-87686006";
    "SNCF:StopPoint:OCETrain TER-87722025";
    "SNCF:StopPoint:OCEOUIGO-87686006";
    "SNCF:StopArea:OCE87686006" ].

Section LinkSncfTI.

(** [norm] is the normalisation of station names (lower case, accents and
    punctuation removed), applied to [s.name || '']. *)
Variable norm : string → string.

(** [stops] is [Object.entries(stops)] reduced to the name of each stop
    (empty when absent). *)
Definition indexName (nameToSncf : list (string * list string))
           (e : string * string) : list (string * list string) :=
  let '(sid, name) := e in
  if Js.starts_with "TI:" sid then nameToSncf
  else
    let n := norm name in
    if negb (Js.truthy n) then nameToSncf
    else oset n (default [] (oget n nameToSncf) ++ [sid]) nameToSncf.

Definition linkStop (nameToSncf : list (string * list string))
           (T : gmap string (list RawTransfer)) (e : string * string)
  : gmap string (list RawTransfer) :=
  let '(sid, name) := e in
  if negb (Js.starts_with "TI:" sid) then T
  else
    let sncfSids := default [] (oget (norm name) nameToSncf) in
    match sncfSids with
    | [] => T
    | _ :: _ =>
        let T1 := fold_left (fun T ss => pushRaw T sid ss) sncfSids
                            (ensureRaw T sid) in
        fold_left (fun T ss => pushRaw (ensureRaw T ss) ss sid) sncfSids T1
    end.

Definition linkSncfTI (stops : list (string * string))
           (T : gmap string (list RawTransfer))
  : gmap string (list RawTransfer) :=
  fold_left (linkStop (fold_left indexName stops [])) stops T.

End LinkSncfTI.

(** The transfer list of a stop in an index of the server, empty when the
    stop has none. *)
Definition rawLinks (T : gmap string (list RawTransfer)) (a : string)
  : list RawTransfer := default [] (T !! a).

(** A Trenitalia stop and a stop of another operator that bear the same
    non-empty normalised name. *)
Definition sameStation (norm : string → string)
           (stops : list (string * string)) (ti other : string) : Prop :=
  ∃ n1 n2, (ti, n1) ∈ stops ∧ (other, n2) ∈ stops
           ∧ Js.starts_with "TI:" ti = true
           ∧ Js.starts_with "TI:" other = false
           ∧ norm n1 = norm n2 ∧ norm n2 ≠ "".

(** ** Fares (server.js) *)

(** [takeDigits n s]: the first [n] characters of [s] when they are all
    digits, with what follows them. *)
Fixpoint takeDigits (n : nat) (s : string) : option (string * string) :=
  match n with
  | O => Some (EmptyString, s)
  | S n' =>
      match s with
      | EmptyString => None
      | String c rest =>
          if Js.is_digit c then
            match takeDigits n' rest with
            | Some (u, after) => Some (String c u, after)
            | None => None
            end
          else None
      end
  end.

(** [uicFromStopId]: the regular expression [(\d{8})(?:[^0-9]|$)] is tried
    at every position from the left; [None] is [null]. *)
Fixpoint uicFromStopId (sid : string) : option string :=
  match sid with
  | EmptyString => None
  | String _ rest =>
      match takeDigits 8 sid with
      | Some (u, EmptyString) => Some u
      | Some (u, String c _) =>
          if Js.is_digit c then uicFromStopId rest else Some u
      | None => uicFromStopId rest
      end
  end.

(** The fields of a leg that the fare functions read. *)
Record FareLeg := mkFareLeg {
  fl_from_id    : string;
  fl_to_id      : string;
  fl_train_type : string;
}.

(** [TRAIN_TYPE_TO_TRANS[train_type] || []]; for the name of an inherited
    property the value is not iterable and the [for ... of] loop throws
    ([None]). *)
Definition transporteursOf (train_type : string) : option (list string) :=
  if Js.inherited train_type then None
  else if bool_decide (train_type = "INOUI") then Some ["INOUI"]
  else if bool_decide (train_type = "OUIGO") then Some ["OUIGO"]
  else if bool_decide (train_type = "OUIGO_CLASSIQUE")
       then Some ["OUIGO_CLASSIQUE"]
       else Some [].

Definition pricedTypes : list string := ["OUIGO"; "OUIGO_CLASSIQUE"; "INOUI"].

Section Fares.

(** Prices are JSON numbers; they are only copied and added
    ([addPrice] is [+]). *)
Variable Price    : Type.
Variable addPrice : Price → Price → Price.
Variable zero     : Price.

(** [tarifIndex], keyed by
    [origin:destination:transporteur:classe:profil]; the keys hold colons,
    so none is the name of an inherited property. *)
Variable tarifIndex : gmap string (Price * Price).

Record Tarif := mkTarif {
  t_min          : Price;
  t_max          : Price;
  t_transporteur : string;
}.

Definition fareKey (a b tr classe profil : string) : string :=
  a +:+ ":" +:+ b +:+ ":" +:+ tr +:+ ":" +:+ classe +:+ ":" +:+ profil.

(** The loop over the carriers of a train type. *)
Fixpoint lookupFare (uO uD classe profil : string) (trs : list string)
  : option Tarif :=
  match trs with
  | [] => None
  | tr :: rest =>
      match tarifIndex !! fareKey uO uD tr classe profil with
      | Some (lo, hi) => Some (mkTarif lo hi tr)
      | None =>
          match tarifIndex !! fareKey uD uO tr classe profil with
          | Some (lo, hi) => Some (mkTarif lo hi tr)
          | None => lookupFare uO uD classe profil rest
          end
      end
  end.

(** [getTarifLeg(leg, profil, classe)]: [Some None] is [null], [None] an
    exception. *)
Definition getTarifLeg (leg : FareLeg) (profil classe : string)
  : option (option Tarif) :=
  match uicFromStopId (fl_from_id leg), uicFromStopId (fl_to_id leg) with
  | Some uO, Some uD =>
      match transporteursOf (fl_train_type leg) with
      | Some trs => Some (lookupFare uO uD classe profil trs)
      | None => None
      end
  | _, _ => Some None
  end.

Record FareTotal := mkFareTotal {
  totalMin : Price;
  totalMax : Price;
  hasTer   : bool;
  allFound : bool;
}.

Definition addLeg (profil classe : string) (acc : option FareTotal)
           (leg : FareLeg) : option FareTotal :=
  match acc with
  | None => None
  | Some tot =>
      match getTarifLeg leg profil classe with
      | None => None
      | Some None =>
          if bool_decide (fl_train_type leg ∈ pricedTypes)
          then Some (mkFareTotal (totalMin tot) (totalMax tot) (hasTer tot)
                                 false)
          else Some (mkFareTotal (totalMin tot) (totalMax tot) true
                                 (allFound tot))
      | Some (Some t) =>
          Some (mkFareTotal (addPrice (totalMin tot) (t_min t))
                            (addPrice (totalMax tot) (t_max t))
                            (hasTer tot) (allFound tot))
      end
  end.

(** [getTarifJourney(journey, profil, classe)], [legs] being
    [journey.legs]; [None] when an exception is thrown. *)
Definition getTarifJourney (legs : list FareLeg) (profil classe : string)
  : option FareTotal :=
  fold_left (addLeg profil classe) legs
            (Some (mkFareTotal zero zero false true)).

(** A fare is found for the leg. *)
Definition priced (leg : FareLeg) (profil classe : string) : Prop :=
  ∃ t, getTarifLeg leg profil classe = Some (Some t).

End Fares.

Arguments t_min {Price}.
Arguments t_max {Price}.
Arguments t_transporteur {Price}.
Arguments totalMin {Price}.
Arguments totalMax {Price}.
Arguments hasTer {Price}.
Arguments allFound {Price}.

(** The leg travelled the other way. *)
Definition reverseLeg (leg : FareLeg) : FareLeg :=
  mkFareLeg (fl_to_id leg) (fl_from_id leg) (fl_train_type leg).

(** A fare table with the Paris - Lyon fare in one direction only, and a
    journey of an INOUI leg from Lyon to Paris followed by a TER leg. *)
Definition parisLyonFares : gmap string (Z * Z) :=
  <["87686006:87723197:INOUI:2:Tarif Normal" := (25, 120)]> ∅.

Definition lyonParisLegs : list FareLeg :=
  [ mkFareLeg "SNCF:StopPoint:OCETGV INOUI-87723197"
              "SNCF:StopPoint:OCETGV INOUI-87686006" "INOUI";
    mkFareLeg "SNCF:StopPoint:OCETrain TER-87686006"
              "SNCF:StopPoint:OCETrain TER-87271007" "TER" ].

(** ** The /api/explore branch of the HTTP handler (server.js) *)

(** [timeToSeconds] of the slots ['05:00', '07:00', ..., '19:00']. *)
Definition exploreSlots : list Z :=
  [18000; 25200; 32400; 39600; 46800; 54000; 61200; 68400].

(** One turn of [for (const j of reached)]: [bestByStop] is a plain object
    keyed by the stop where the journey ends.  Under the name of an
    inherited property, [bestByStop[sid]] is a member of [Object.prototype]:
    it is truthy and has no [duration], so nothing is stored. *)
Definition keepBest (originSet : list string)
           (bestByStop : list (string * Journey)) (j : Journey)
  : list (string * Journey) :=
  match last (j_legs j) with
  | None => bestByStop
  | Some lastLeg =>
      let sid := leg_to_id lastLeg in
      if Js.set_has sid originSet then bestByStop
      else if Js.inherited sid then bestByStop
      else
        match oget sid bestByStop with
        | None => oset sid j bestByStop
        | Some best =>
            if j_duration j <? j_duration best then oset sid j bestByStop
            else bestByStop
        end
  end.

(** What the handler answers: an error, the journeys of the answer (the
    coordinates attached to them for the map are not part of the model),
    or an exception. *)
Inductive ExploreResponse :=
| ExploreError (status : Z) (error : string)
| ExploreOk (journeys : list Journey)
| ExploreThrown.

Section Explore.

Variable transferIndex : gmap string (list RawTransfer).
Variable stopKeys      : list string.
Variable routeTrips    : list (string * list Trip).
Variable calendarIndex : gmap string (list string).
Variable utcMonth       : string → option Z.
Variable detectUnstored : string → string → string → string → string.

(** The journeys reached from the origins at the departure slot
    [startSec]. *)
Definition reachedAt (uniqueFrom : list string)
           (stt : gmap string (list TripRef)) (dateStr : string)
           (startSec : Z) : list Journey :=
  raptorCore transferIndex utcMonth detectUnstored uniqueFrom None startSec
             stt dateStr.

Definition exploreBest (uniqueFrom : list string)
           (stt : gmap string (list TripRef)) (dateStr : string)
  : list (string * Journey) :=
  fold_left
    (fun best startSec =>
       fold_left (keepBest uniqueFrom) (reachedAt uniqueFrom stt dateStr startSec)
                 best)
    exploreSlots [].

(** [fromIds] is [(q.from||'').split(',').filter(Boolean)] and [dateStr]
    is [q.date || '']. *)
Definition handleExplore (fromIds : list string) (dateStr : string)
  : ExploreResponse :=
  match fromIds with
  | [] => ExploreError 400 "from requis"
  | _ :: _ =>
      match getFilteredData routeTrips calendarIndex dateStr,
            resolveStopIds transferIndex stopKeys (uniq fromIds) Origin with
      | Some stt, Some uniqueFrom =>
          ExploreOk (snd <$> exploreBest uniqueFrom stt dateStr)
      | _, _ => ExploreThrown
      end
  end.

End Explore.

(** The invariant of [bestByStop] after the journeys [seen] have been
    processed. *)
Definition bestInv (originSet : list string)
           (best : list (string * Journey)) (seen : list Journey) : Prop :=
  NoDup best.*1
  ∧ (∀ sid j, (sid, j) ∈ best →
              lastStopOf j = sid ∧ j ∈ seen ∧ (sid ∉ originSet)
              ∧ Js.inherited sid = false)
  ∧ (∀ j', j' ∈ seen → j_legs j' ≠ [] →
            lastStopOf j' ∉ originSet →
            Js.inherited (lastStopOf j') = false →
            ∃ j, oget (lastStopOf j') best = Some j
                 ∧ j_duration j <= j_duration j').

(** The first leg of the two-leg timetable, as a journey to X. *)
Definition firstLegJourney : Journey :=
  mkJourney 25200 28800 60 0 ["INOUI"]
    [ mkLeg "SNCF:O" "SNCF:X" 25200 28800 "SNCF:T1" "SNCF:R1" "SNCF" "INOUI" 60 ].

(** ** The index of the cities with several stations (buildStopsIndex of
       server.js, the stations.json branch) *)

(** An element of stations.json.  [rs_name] is [None] when the station has
    no name ([undefined] or [null]); the city and the country are used only
    when they are truthy, and the lists are empty when the field is
    absent. *)
Record RawStation := mkRawStation {
  rs_name      : option string;
  rs_city      : string;
  rs_country   : string;
  rs_stopIds   : list string;
  rs_operators : list string;
}.

(** A value of the [Map] [cityIndex]: [stopIds] and [ops] are [Set]s,
    [stations] holds the name and the stop ids of each station.  The
    coordinates and the displayed country name are not part of the model. *)
Record CityEntry := mkCity {
  ce_city     : string;
  ce_country  : string;
  ce_stopIds  : list string;
  ce_ops      : list string;
  ce_stations : list (option string * list string);
}.

Section StopsIndex.

(** [normCity] as in [cityKeyOfStop]. *)
Variable normCity : string → string.

(** [s.city || s.name]: [None] when the station has neither, in which case
    [city.toLowerCase()] throws. *)
Definition cityOf (s : RawStation) : option string :=
  if Js.truthy (rs_city s) then Some (rs_city s) else rs_name s.

Definition countryOf (s : RawStation) : string :=
  Js.or_else (rs_country s) "FR".

Definition cityKey (s : RawStation) : option string :=
  (fun city => normCity city +:+ ":" +:+ countryOf s) <$> cityOf s.

(** The element pushed on [stopsIndex], the city being known. *)
Definition stationOf (s : RawStation) : Station :=
  mkStation (default "" (rs_name s)) (default "" (cityOf s)) (countryOf s)
            (rs_stopIds s).

(** The update of [cityIndex] for a station of city [city]. *)
Definition addStation (cityIndex : list (string * CityEntry))
           (s : RawStation) (city : string) : list (string * CityEntry) :=
  let key := normCity city +:+ ":" +:+ countryOf s in
  let ce :=
    match oget key cityIndex with
    | Some ce => ce
    | None => mkCity city (countryOf s) (uniq (rs_stopIds s))
                     (uniq (rs_operators s)) []
    end in
  oset key
       (mkCity (ce_city ce) (ce_country ce)
               (fold_left (fun acc x => Js.set_add x acc) (rs_stopIds s)
                          (ce_stopIds ce))
               (fold_left (fun acc x => Js.set_add x acc) (rs_operators s)
                          (ce_ops ce))
               (ce_stations ce ++ [(rs_name s, rs_stopIds s)]))
       cityIndex.

(** [for (const s of raw)]: the station is pushed on [stopsIndex], then its
    city key is computed; [None] when that throws. *)
Fixpoint readStations (raw : list RawStation) (stopsIndex : list Station)
         (cityIndex : list (string * CityEntry))
  : option (list Station * list (string * CityEntry)) :=
  match raw with
  | [] => Some (stopsIndex, cityIndex)
  | s :: rest =>
      match cityOf s with
      | None => None
      | Some city =>
          readStations rest (stopsIndex ++ [stationOf s])
                       (addStation cityIndex s city)
      end
  end.

(** [stopsIndex] and [cityIndex] after the call, [None] when it throws; the
    last loop deletes the cities with fewer than two stations. *)
Definition buildStopsIndex (raw : list RawStation)
  : option (list Station * list (string * CityEntry)) :=
  match readStations raw [] [] with
  | Some (stopsIndex, cityIndex) =>
      Some (stopsIndex,
            filter (fun e => (2 <= length (ce_stations e.2))%nat) cityIndex)
  | None => None
  end.

(** The stations of the file that belong to the city [key]. *)
Definition stationsOfCity (key : string) (raw : list RawStation)
  : list RawStation :=
  filter (fun s => cityKey s = Some key) raw.

(** What [cityIndex] holds under [key] once the stations [seen] have been
    read. *)
Definition cityHolds (key : string) (seen : list RawStation)
           (ce : CityEntry) : Prop :=
  ce_stations ce
  = (fun s => (rs_name s, rs_stopIds s)) <$> stationsOfCity key seen
  ∧ NoDup (ce_stopIds ce)
  ∧ ∀ x, x ∈ ce_stopIds ce
         ↔ ∃ s, s ∈ stationsOfCity key seen ∧ x ∈ rs_stopIds s.

Definition cityInv (cityIndex : list (string * CityEntry))
           (seen : list RawStation) : Prop :=
  NoDup cityIndex.*1
  ∧ ∀ key, match oget key cityIndex with
           | Some ce => cityHolds key seen ce
           | None => stationsOfCity key seen = []
           end.

End StopsIndex.

(** ** Station autocomplete (searchStops of server.js) *)


Section Autocomplete.

(** [fold] is [toLowerCase().normalize('NFD')] followed by the removal of
    the combining marks; [sortByCity] is [res.sort] with the comparator of
    the source, which orders by city, then by name, with [localeCompare]. *)
Variable fold       : string → string.
Variable sortByCity : list Station → list Station.




End Autocomplete.



(** ** The scan of a trip, with the trip object and the clock shift explicit *)

(** The [for] loop of [scanTrip] as a transformer of the trip object and of
    the scan state; [n] is the number of turns left and [i] the position
    read.  The body assigns to [tauBest], [tau_cur] and [parent] only: it
    holds no assignment to the trip or to one of its stop times, so the
    trip is handed on as it was received. *)
Fixpoint scanTurns (utcMonth : string → option Z) (n i : nat) (trip : Trip)
         (routeId dateISO : string) (boarded : option (string * Z))
         (s : ScanState) : Trip * ScanState :=
  match n with
  | O => (trip, s)
  | S n' =>
      match stop_times trip !! i with
      | None => (trip, s)
      | Some st =>
          let sid := stop_id st in
          match boarded with
          | None =>
              let boarded' :=
                match tauBest s !! sid with
                | Some tau =>
                    match readDep utcMonth trip st dateISO with
                    | Some dep => if tau <=? dep then Some (sid, dep) else None
                    | None => None
                    end
                | None => None
                end in
              scanTurns utcMonth n' (S i) trip routeId dateISO boarded' s
          | Some (boardStop, boardDep) =>
              match readArr utcMonth trip st dateISO with
              | None =>
                  scanTurns utcMonth n' (S i) trip routeId dateISO boarded s
              | Some arr =>
                  scanTurns utcMonth n' (S i) trip routeId dateISO boarded
                    (relaxArrival trip routeId boardStop boardDep sid arr s)
              end
          end
      end
  end.

Definition scanTripOn (utcMonth : string → option Z) (trip : Trip)
           (fromIdx : nat) (s : ScanState) (routeId dateISO : string)
  : Trip * ScanState :=
  scanTurns utcMonth (length (stop_times trip) - fromIdx) fromIdx trip
            routeId dateISO None s.

(** What a scan does when every time is read [delta] seconds after the
    stored value.  The trip is boarded at the first stop that has a label
    not later than its shifted departure ... *)
Fixpoint boardAt (delta : Z) (tau : gmap string Z) (sts : list StopTime)
  : option (string * Z * list StopTime) :=
  match sts with
  | [] => None
  | st :: rest =>
      match tau !! stop_id st, Js.nullish (dep_time st) (arr_time st) with
      | Some t, Some dep =>
          if t <=? dep + delta then Some (stop_id st, dep + delta, rest)
          else boardAt delta tau rest
      | _, _ => boardAt delta tau rest
      end
  end.

(** ... and every later stop is offered its shifted arrival. *)
Definition alightShifted (delta : Z) (trip : Trip) (routeId : string)
           (boardStop : string) (boardDep : Z) (s : ScanState)
           (st : StopTime) : ScanState :=
  match Js.nullish (arr_time st) (dep_time st) with
  | Some arr =>
      relaxArrival trip routeId boardStop boardDep (stop_id st) (arr + delta) s
  | None => s
  end.

Definition scanShifted (delta : Z) (trip : Trip) (fromIdx : nat)
           (s : ScanState) (routeId : string) : ScanState :=
  match boardAt delta (tauBest s) (drop fromIdx (stop_times trip)) with
  | None => s
  | Some (boardStop, boardDep, rest) =>
      fold_left (alightShifted delta trip routeId boardStop boardDep) rest s
  end.

(** The state in which Milano has been reached at 12:30. *)
Definition milanoReached : ScanState :=
  mkScan (<["TI:S01700" := 45000]> ∅) [] ∅.

(** ** Times along a repaired trip *)

(** The times of a list of rows in reading order: for each row its arrival
    then its departure, where they are present. *)
Definition timesAlong (rows : list Ingest.StopRow) : list Z :=
  rows ≫= (fun r => option_list (Ingest.arr_time r)
                    ++ option_list (Ingest.dep_time r)).

Definition arrivalsAlong (rows : list Ingest.StopRow) : list Z :=
  omap Ingest.arr_time rows.

Definition departuresAlong (rows : list Ingest.StopRow) : list Z :=
  omap Ingest.dep_time rows.

(** A trip whose third row arrives and leaves during the long stop of the
    second one: no backward jump exceeds 600 s, so the rows stay in one
    segment, which is sorted by departure time. *)
Definition overtakenRows : list Ingest.StopRow :=
  [ Ingest.mkRow 1 "SNCF:A" (Some 36300) (Some 36000);
    Ingest.mkRow 2 "SNCF:B" (Some 39000) (Some 38000);
    Ingest.mkRow 3 "SNCF:C" (Some 38600) (Some 38500);
    Ingest.mkRow 4 "SNCF:D" (Some 41700) (Some 41400) ].

(** ** The turns of the enumeration loop

    [turnsOf k] is the state after [k] turns of the [while] loop of
    [searchJourneys], were the loop never left; [pushedAt k] are the
    journeys pushed on [results] during the turn that follows. *)
Definition turnsOf (core : Z → list Journey) (startTime : Z)
           (allowedTypes : option (list string)) (k : nat) : LoopState :=
  Nat.iter k (searchIter core startTime allowedTypes) (searchStart startTime).

Definition pushedAt (core : Z → list Journey) (startTime : Z)
           (allowedTypes : option (list string)) (k : nat) : list Journey :=
  drop (length (ls_results (turnsOf core startTime allowedTypes k)))
       (ls_results (turnsOf core startTime allowedTypes (S k))).

(** After [k] turns the guard of the loop holds: fewer journeys than the
    limit, and a start time within 14 hours of the initial one. *)
Definition goesOn (core : Z → list Journey) (startTime limit : Z)
           (allowedTypes : option (list string)) (k : nat) : Prop :=
  Z.of_nat (length (ls_results (turnsOf core startTime allowedTypes k)))
  < limit
  ∧ ls_t (turnsOf core startTime allowedTypes k) <= startTime + 14 * 3600.

(** The last four of the first [k] turns have pushed no journey, and a
    journey has been collected. *)
Definition fourEmpty (core : Z → list Journey) (startTime : Z)
           (allowedTypes : option (list string)) (k : nat) : Prop :=
  (4 <= k)%nat
  ∧ ls_results (turnsOf core startTime allowedTypes k) ≠ []
  ∧ ∀ i, (k - 4 <= i < k)%nat → pushedAt core startTime allowedTypes i = [].

(* ===================================================================== *)
(** * Properties of the building blocks *)
(* ===================================================================== *)

Section StableSortFacts.
Context {A : Type} (leb : A -> A -> bool).

Lemma insert_sorted_perm (x : A) (l : list A) :
  insert_sorted leb x l ≡ₚ x :: l.
Proof.
  induction l as [|y l IH]; simpl; [done|].
  destruct (leb x y); [done|].
  rewrite IH. apply Permutation_swap.
Qed.

Lemma stable_sort_perm (l : list A) : stable_sort leb l ≡ₚ l.
Proof.
  induction l as [|x l IH]; simpl; [done|].
  by rewrite insert_sorted_perm, IH.
Qed.

Lemma stable_sort_elem (x : A) (l : list A) :
  x ∈ stable_sort leb l ↔ x ∈ l.
Proof. by rewrite stable_sort_perm. Qed.

(** With a comparator that is the order of an integer key, the output is
    ordered by that key. *)
Context (key : A -> Z).
Hypothesis leb_key : ∀ a b, leb a b = true ↔ key a <= key b.

Lemma insert_sorted_sorted (x : A) (l : list A) :
  StronglySorted (fun a b => key a <= key b) l →
  StronglySorted (fun a b => key a <= key b) (insert_sorted leb x l).
Proof.
  induction 1 as [|y l Hs IH Hall]; simpl.
  - repeat constructor.
  - destruct (leb x y) eqn:Hxy.
    + apply leb_key in Hxy.
      constructor; [by constructor|].
      constructor; [done|].
      eapply Forall_impl; [exact Hall|]. simpl. intros; lia.
    + assert (key y < key x) as Hlt.
      { destruct (Z.le_gt_cases (key x) (key y)) as [Hle|]; [|lia].
        apply leb_key in Hle. congruence. }
      constructor; [done|].
      rewrite insert_sorted_perm. constructor; [lia|done].
Qed.

Lemma stable_sort_sorted (l : list A) :
  StronglySorted (fun a b => key a <= key b) (stable_sort leb l).
Proof.
  induction l as [|x l IH]; simpl; [constructor|].
  by apply insert_sorted_sorted.
Qed.

End StableSortFacts.

Lemma timeLeb_key (a b : Ingest.StopRow) :
  Ingest.timeLeb a b = true ↔ Ingest.timeKey a <= Ingest.timeKey b.
Proof. unfold Ingest.timeLeb. rewrite Z.leb_le. lia. Qed.

Lemma splitSegments_rows (prev : Ingest.StopRow) (rest cur : list Ingest.StopRow) :
  mjoin (Ingest.splitSegments prev rest cur) = cur ++ rest.
Proof.
  revert prev cur. induction rest as [|s rest IH]; intros prev cur; simpl.
  - by rewrite app_nil_r.
  - destruct (_ && _); simpl; rewrite IH; [done|by rewrite <- app_assoc].
Qed.

Lemma segmentsOf_rows (stops : list Ingest.StopRow) :
  mjoin (Ingest.segmentsOf stops) = stops.
Proof.
  destruct stops as [|s rest]; [done|]. simpl. apply splitSegments_rows.
Qed.

Lemma mergeSegs_rows (segs done : list (list Ingest.StopRow))
      (cur : list Ingest.StopRow) :
  mjoin (Ingest.mergeSegs done cur segs) = mjoin done ++ cur ++ mjoin segs.
Proof.
  revert done cur. induction segs as [|seg rest IH]; intros done cur; simpl.
  - by rewrite join_app, app_nil_r; simpl; rewrite app_nil_r.
  - destruct (List.last _ _) as [lastStop|];
      [destruct seg as [|firstStop seg']|];
      [| destruct (_ <=? _) |]; rewrite IH; rewrite ?join_app; simpl;
      rewrite ?app_nil_r, <- ?app_assoc; done.
Qed.

(** The rows kept by the repair are rows of the trip. *)
Lemma repairTrip_rows (stops : list Ingest.StopRow) (r : Ingest.StopRow) :
  r ∈ Ingest.repairTrip stops → r ∈ stops.
Proof.
  unfold Ingest.repairTrip.
  set (sorted := stable_sort Ingest.seqLeb stops).
  assert (∀ x, x ∈ sorted → x ∈ stops) as Hsorted
    by (intros x; apply stable_sort_elem).
  destruct (1 <? _)%nat; [|by intros ?%stable_sort_elem%Hsorted].
  destruct (stable_sort Ingest.segLeb (Ingest.segmentsOf sorted))
    as [|first others] eqn:Hsegs; [by intros ?%elem_of_nil|].
  destruct (stable_sort Ingest.longerLeb _) as [|longest rest] eqn:Hmerged;
    [by intros ?%elem_of_nil|].
  intros Hr%stable_sort_elem. apply Hsorted.
  rewrite <- (segmentsOf_rows sorted). apply list_elem_of_join.
  assert (longest ∈ Ingest.mergeSegs [] first others) as Hlong.
  { apply (stable_sort_elem Ingest.longerLeb). rewrite Hmerged. by left. }
  assert (r ∈ mjoin (Ingest.mergeSegs [] first others)) as Hin.
  { apply list_elem_of_join. by exists longest. }
  rewrite mergeSegs_rows in Hin. simpl in Hin.
  change (r ∈ mjoin (first :: others)) in Hin.
  apply list_elem_of_join in Hin as (seg & Hrs & Hseg).
  exists seg. split; [done|].
  apply (stable_sort_elem Ingest.segLeb). by rewrite Hsegs.
Qed.

Lemma departures_sorted (rows : list Ingest.StopRow) :
  StronglySorted (fun a b => Ingest.timeKey a <= Ingest.timeKey b) rows →
  StronglySorted Z.le (departuresAlong rows).
Proof.
  unfold departuresAlong.
  induction 1 as [|a rows Hs IH Hall]; simpl; [constructor|].
  destruct (Ingest.dep_time a) as [d|] eqn:Hd; [|done].
  constructor; [done|]. apply Forall_forall.
  intros d' (b & Hb & Hdb)%list_elem_of_omap.
  rewrite Forall_forall in Hall. specialize (Hall b Hb).
  unfold Ingest.timeKey in Hall. rewrite Hd, Hdb in Hall. done.
Qed.

Lemma times_sorted_single (rows : list Ingest.StopRow) :
  (∀ r, r ∈ rows → Ingest.arr_time r = Ingest.dep_time r) →
  StronglySorted (fun a b => Ingest.timeKey a <= Ingest.timeKey b) rows →
  StronglySorted Z.le (timesAlong rows).
Proof.
  unfold timesAlong. intros Hone Hs.
  induction Hs as [|a rows Hs IH Hall]; simpl; [constructor|].
  assert (StronglySorted Z.le
            (rows ≫= (fun r => option_list (Ingest.arr_time r)
                               ++ option_list (Ingest.dep_time r)))) as Hrest.
  { apply IH. intros r Hr. apply Hone. by right. }
  rewrite (Hone a) by by left.
  destruct (Ingest.dep_time a) as [t|] eqn:Hd; [|done]. simpl.
  assert (Forall (Z.le t)
            (rows ≫= (fun r => option_list (Ingest.arr_time r)
                               ++ option_list (Ingest.dep_time r)))) as Hle.
  { apply Forall_forall. intros x (b & Hx & Hb)%list_elem_of_bind.
    rewrite Forall_forall in Hall. specialize (Hall b Hb).
    unfold Ingest.timeKey in Hall. rewrite Hd in Hall. simpl in Hall.
    rewrite (Hone b) in Hx by by right.
    destruct (Ingest.dep_time b) as [t'|]; simpl in *.
    - apply elem_of_cons in Hx as [->|Hx]; [done|].
      apply list_elem_of_singleton in Hx as ->. done.
    - by apply elem_of_nil in Hx. }
  constructor; [constructor; [done|done]|].
  constructor; [lia|done].
Qed.

(** C4 (amended). Whatever rows a trip has, the list kept by the
    circular-trip repair (sort by sequence, split at backward jumps of more
    than 600 s, re-merge compatible segments, keep the longest, sort by
    time) is made of rows of the trip and is non-decreasing in the key of
    the final sort, [dep_time ?? arr_time ?? 0]: the departure time of a
    row, its arrival time when it has no departure, 0 when it has neither.
    In particular the departure times are non-decreasing along the list;
    the arrival times need not be, unless every row of the trip carries a
    single time (its arrival time equal to its departure time): then all
    the times along the list are non-decreasing. *)
Theorem C4_repair_non_decreasing (stops : list Ingest.StopRow) :
  StronglySorted (fun a b => Ingest.timeKey a <= Ingest.timeKey b)
                 (Ingest.repairTrip stops)
  ∧ StronglySorted Z.le (departuresAlong (Ingest.repairTrip stops))
  ∧ (∀ r, r ∈ Ingest.repairTrip stops → r ∈ stops)
  ∧ ((∀ r, r ∈ stops → Ingest.arr_time r = Ingest.dep_time r) →
     StronglySorted Z.le (timesAlong (Ingest.repairTrip stops))).
Proof.
  assert (StronglySorted (fun a b => Ingest.timeKey a <= Ingest.timeKey b)
                         (Ingest.repairTrip stops)) as Hkey.
  { unfold Ingest.repairTrip.
    destruct (1 <? _)%nat.
    - destruct (stable_sort Ingest.segLeb _) as [|first others];
        [constructor|].
      destruct (stable_sort Ingest.longerLeb _) as [|longest ?];
        [constructor|].
      apply stable_sort_sorted, timeLeb_key.
    - apply stable_sort_sorted, timeLeb_key. }
  split; [exact Hkey|]. split; [by apply departures_sorted|].
  split; [apply repairTrip_rows|].
  intros Hone. apply times_sorted_single; [|exact Hkey].
  intros r Hr. by apply Hone, repairTrip_rows.
Qed.

(** C4 as stated fails: on [overtakenRows] the repair keeps the four rows
    in the order A, C, B, D: the arrival times read 36000, 38500, 38000,
    41400, and B, placed after C, arrives at 38000 when C has left at
    38600. *)
Lemma C4_counterexample :
  ¬ (∀ stops, StronglySorted Z.le (timesAlong (Ingest.repairTrip stops)))
  ∧ ¬ (∀ stops,
         StronglySorted Z.le (arrivalsAlong (Ingest.repairTrip stops))).
Proof.
  assert (Ingest.seq <$> Ingest.repairTrip overtakenRows = [1; 3; 2; 4])
    as _ by reflexivity.
  split; intros Hall; specialize (Hall overtakenRows);
    vm_compute in Hall.
  - apply StronglySorted_inv in Hall as [Hrest _].
    apply StronglySorted_inv in Hrest as [Hrest _].
    apply StronglySorted_inv in Hrest as [Hrest _].
    apply StronglySorted_inv in Hrest as [_ Hlt].
    apply Forall_inv in Hlt. vm_compute in Hlt. by apply Hlt.
  - apply StronglySorted_inv in Hall as [Hrest _].
    apply StronglySorted_inv in Hrest as [_ Hlt].
    apply Forall_inv in Hlt. vm_compute in Hlt. by apply Hlt.
Qed.

(** The rotation quoted in the source comment: the return leg (sequence 39
    and 90, early morning) is put back in front of the outbound one. *)
Example repairTrip_rotation :
  Ingest.seq <$>
    Ingest.repairTrip
      [ Ingest.mkRow 5 "TI:Torino" (Some 41760) (Some 41760);
        Ingest.mkRow 24 "TI:Milano" (Some 44520) (Some 44520);
        Ingest.mkRow 38 "TI:MilanoC" (Some 47460) (Some 47460);
        Ingest.mkRow 39 "TI:Paris" (Some 23400) (Some 23400);
        Ingest.mkRow 90 "TI:Lyon" (Some 30660) (Some 30660) ]
  = [39; 90; 5; 24; 38].
Proof. reflexivity. Qed.

(* ===================================================================== *)
(** * The transfer index built at ingestion is symmetric *)
(* ===================================================================== *)

Section TransferIndexFacts.

Import Ingest.

Lemma links_ensureKey T k a : links (ensureKey T k) a = links T a.
Proof.
  unfold ensureKey, links. destruct (T !! k) eqn:Hk; [done|].
  destruct (decide (k = a)) as [->|Hne].
  - by rewrite lookup_insert_eq, Hk.
  - by rewrite lookup_insert_ne.
Qed.

Lemma links_pushNew T a b x y :
  y ∈ links (pushNew T a b) x ↔ y ∈ links T x ∨ (x = a ∧ y = b).
Proof.
  unfold pushNew. fold (links T a).
  destruct (decide (b ∈ links T a)) as [Hin|Hnin].
  - split; [auto|]. intros [?|[-> ->]]; done.
  - unfold links at 1.
    destruct (decide (a = x)) as [->|Hne].
    + rewrite lookup_insert_eq. simpl. rewrite elem_of_app, list_elem_of_singleton.
      naive_solver.
    + rewrite lookup_insert_ne by done. fold (links T x). naive_solver.
Qed.

Lemma links_insert_snoc T a b x y :
  y ∈ links (<[a := links T a ++ [b]]> T) x ↔ y ∈ links T x ∨ (x = a ∧ y = b).
Proof.
  unfold links at 1.
  destruct (decide (a = x)) as [->|Hne].
  - rewrite lookup_insert_eq. simpl. rewrite elem_of_app, list_elem_of_singleton.
    naive_solver.
  - rewrite lookup_insert_ne by done. fold (links T x). naive_solver.
Qed.

(** Membership after a loop whose every turn adds a set of links. *)
Lemma links_fold {E : Type} (f : gmap string (list string) → E → gmap string (list string))
      (P : E → string → string → Prop) :
  (∀ T e x y, y ∈ links (f T e) x ↔ y ∈ links T x ∨ P e x y) →
  ∀ l T x y,
    y ∈ links (fold_left f l T) x ↔ y ∈ links T x ∨ ∃ e, e ∈ l ∧ P e x y.
Proof.
  intros Hf l. induction l as [|e l IH]; intros T x y; simpl.
  - split; [auto|]. intros [?|(e & He & _)]; [done|]. by apply elem_of_nil in He.
  - rewrite IH, Hf. split.
    + intros [[?|?]|(e' & ? & ?)]; [by left| |].
      * right. exists e. split; [left|done].
      * right. exists e'. split; [by right|done].
    + intros [?|(e' & He' & ?)]; [by left; left|].
      apply elem_of_cons in He' as [->|?]; [by left; right|].
      right. by exists e'.
Qed.

Variable Stop : Type.
Variable near : Stop → Stop → bool.
Variable stopsDict : list (string * Stop).

Lemma links_geoInner e1 T e2 x y :
  y ∈ links (geoInner Stop near e1 T e2) x ↔
  y ∈ links T x ∨
  (near (snd e1) (snd e2) = true ∧
   ((x = fst e1 ∧ y = fst e2) ∨ (x = fst e2 ∧ y = fst e1))).
Proof.
  unfold geoInner. destruct (near _ _).
  - rewrite !links_pushNew, !links_ensureKey. naive_solver.
  - naive_solver.
Qed.

Lemma geoInner_fold_symmetric e1 l T :
  symmetric T → symmetric (fold_left (geoInner Stop near e1) l T).
Proof.
  intros Hs a b.
  rewrite !(links_fold _ _ (links_geoInner e1)).
  rewrite (Hs a b). naive_solver.
Qed.

Lemma geoLinks_symmetric l T :
  symmetric T → symmetric (geoLinks Stop near l T).
Proof.
  revert T. induction l as [|e1 l IH]; intros T Hs; simpl; [done|].
  by apply IH, geoInner_fold_symmetric.
Qed.

Lemma links_manualInner idA T idB x y :
  y ∈ links (manualInner Stop stopsDict idA T idB) x ↔
  y ∈ links T x ∨
  (x = idA ∧ y = idB ∧ idA ≠ idB ∧ inDict Stop stopsDict idB = true).
Proof.
  unfold manualInner. fold (links T idA).
  destruct (bool_decide (idA ≠ idB)) eqn:Hne; simpl.
  2:{ apply bool_decide_eq_false in Hne. naive_solver. }
  apply bool_decide_eq_true in Hne.
  destruct (inDict _ _ idB) eqn:Hd; simpl; [|naive_solver].
  destruct (bool_decide (idB ∉ links T idA)) eqn:Hin.
  - rewrite links_insert_snoc. naive_solver.
  - apply bool_decide_eq_false in Hin.
    assert (idB ∈ links T idA) by (by destruct (decide (idB ∈ links T idA))).
    naive_solver.
Qed.

Lemma links_manualOuter ids T idA x y :
  y ∈ links (manualOuter Stop stopsDict ids T idA) x ↔
  y ∈ links T x ∨
  (x = idA ∧ y ∈ ids ∧ x ≠ y ∧
   inDict Stop stopsDict x = true ∧ inDict Stop stopsDict y = true).
Proof.
  unfold manualOuter. destruct (inDict _ _ idA) eqn:Hd.
  - rewrite (links_fold _ _ (links_manualInner idA)), links_ensureKey.
    split.
    + intros [?|(e & He & -> & -> & Hne & Hde)]; [by left|]. right. done.
    + intros [?|(-> & Hy & Hne & _ & Hdy)]; [by left|]. right.
      exists y. done.
  - split; [auto|]. intros [?|(-> & _ & _ & Hdx & _)]; [done|congruence].
Qed.

Lemma links_manualStation T station x y :
  y ∈ links (manualStation Stop stopsDict T station) x ↔
  y ∈ links T x ∨
  ((2 <= length (stopIds station))%nat ∧
   x ∈ stopIds station ∧ y ∈ stopIds station ∧ x ≠ y ∧
   inDict Stop stopsDict x = true ∧ inDict Stop stopsDict y = true).
Proof.
  unfold manualStation. destruct (Nat.ltb_spec (length (stopIds station)) 2).
  - split; [auto|]. intros [?|(? & _)]; [done|lia].
  - rewrite (links_fold _ _ (links_manualOuter (stopIds station))).
    split.
    + intros [?|(e & He & -> & ? & ? & ? & ?)]; [by left|]. by right.
    + intros [?|(_ & Hx & ? & ? & ? & ?)]; [by left|]. right. by exists x.
Qed.

Lemma manualStation_fold_symmetric sts T :
  symmetric T → symmetric (fold_left (manualStation Stop stopsDict) sts T).
Proof.
  intros Hs a b.
  rewrite !(links_fold _ _ links_manualStation).
  rewrite (Hs a b). naive_solver.
Qed.

Lemma empty_symmetric : symmetric ∅.
Proof. intros a b. unfold links. rewrite !lookup_empty. simpl. split; intros H; by apply elem_of_nil in H. Qed.

(** C10. The index returned by [buildTransferIndex] is symmetric: for
    every two stop ids [a] and [b] (in particular those of the stop
    dictionary), [b] is in the transfer list of [a] exactly when [a] is in
    the transfer list of [b]; both the pairs closer than 300 m and the
    links taken from the station manifest are covered. *)
Theorem C10_transfer_index_symmetric
        (stations : option (list ManifestStation)) (a b : string) :
  b ∈ links (buildTransferIndex Stop near stopsDict stations) a ↔
  a ∈ links (buildTransferIndex Stop near stopsDict stations) b.
Proof.
  unfold buildTransferIndex.
  pose proof (geoLinks_symmetric stopsDict ∅ empty_symmetric) as Hgeo.
  destruct stations as [sts|]; [|apply Hgeo].
  by apply manualStation_fold_symmetric.
Qed.

End TransferIndexFacts.

(* ===================================================================== *)
(** * Minimum transfer times *)
(* ===================================================================== *)

(** What [transferTime] computes, in terms of [extractOperator]. *)
Lemma transferTime_cases (fromId : string) (e : TransferEntry) :
  (te_interCity e = true → transferTime fromId e = 2700) ∧
  (te_interCity e = false →
   extractOperator fromId = extractOperator (te_id e) →
   transferTime fromId e = 180) ∧
  (te_interCity e = false →
   extractOperator fromId ≠ extractOperator (te_id e) →
   transferTime fromId e = 600).
Proof.
  unfold transferTime. repeat split; intros Hic.
  - by rewrite Hic.
  - intros Heq. rewrite Hic. by rewrite bool_decide_eq_true_2.
  - intros Hne. rewrite Hic. by rewrite bool_decide_eq_false_2.
Qed.

(** An identifier whose prefix is made of capital letters only is
    attributed to that prefix. *)
Lemma upper_run_app (p rest : string) :
  Js.all_chars Js.is_upper p = true →
  upper_run (p +:+ String ":"%char rest) = (p, String ":"%char rest).
Proof.
  induction p as [|c p IH]; simpl; [done|].
  intros Hall. apply andb_true_iff in Hall as [Hc Hp].
  by rewrite Hc, (IH Hp).
Qed.

Lemma extractOperator_upper_prefix (p rest : string) :
  p ≠ "" → Js.all_chars Js.is_upper p = true →
  extractOperator (p +:+ String ":"%char rest) = p.
Proof.
  intros Hne Hall. unfold extractOperator. rewrite (upper_run_app _ _ Hall).
  destruct p; [done|]. by rewrite decide_True.
Qed.

(** Between two identifiers whose operator prefixes are made of capital
    letters, the dwell is the one of the table: 180 s for equal prefixes,
    600 s for different ones, 2700 s on an inter-city edge. *)
Lemma transferTime_upper_prefixes (p1 rest1 p2 rest2 : string) (ic : bool) :
  p1 ≠ "" → p2 ≠ "" →
  Js.all_chars Js.is_upper p1 = true → Js.all_chars Js.is_upper p2 = true →
  transferTime (p1 +:+ String ":"%char rest1)
               (mkEntry (p2 +:+ String ":"%char rest2) ic)
  = if ic then 2700 else if decide (p1 = p2) then 180 else 600.
Proof.
  intros Hne1 Hne2 Hup1 Hup2. unfold transferTime. simpl.
  destruct ic; [done|].
  rewrite !extractOperator_upper_prefix by done.
  destruct (decide (p1 = p2)) as [->|Hne].
  - by rewrite bool_decide_eq_true_2.
  - by rewrite bool_decide_eq_false_2.
Qed.

(** C3. The edge between an SNCF stop and an OUIGO_ES stop of the same
    station is not tagged inter-city and joins two different operator
    prefixes, yet [transferTime] answers 180 s, the same-operator dwell,
    where 600 s is expected: [extractOperator] only recognises prefixes made
    of capital letters and attributes [OUIGO_ES:...] to SNCF. *)
Theorem C3_transfer_time_ouigo_es :
  let fromId := "SNCF:StopPoint:OCETrain-71801" in
  let edge := normalizeEntry (RawId "OUIGO_ES:71801") in
  te_interCity edge = false ∧
  prefix_before_colon fromId = Some "SNCF" ∧
  prefix_before_colon (te_id edge) = Some "OUIGO_ES" ∧
  extractOperator (te_id edge) = "SNCF" ∧
  transferTime fromId edge = 180.
Proof. repeat split; reflexivity. Qed.

(* ===================================================================== *)
(** * The Trenitalia clock shift *)
(* ===================================================================== *)

Lemma tiAdjust_cases (utcMonth : string → option Z) (s : Z) (dateISO : string) :
  (dateISO ≠ "" → summerDate utcMonth dateISO →
   tiAdjust utcMonth (Some s) dateISO = Some (s + 7200)) ∧
  (dateISO ≠ "" → ¬ summerDate utcMonth dateISO →
   tiAdjust utcMonth (Some s) dateISO = Some (s + 3600)) ∧
  (dateISO = "" → tiAdjust utcMonth (Some s) dateISO = Some (s + 3600)).
Proof.
  unfold tiAdjust, summerDate. repeat split.
  - intros Hne (m & Hm & Hr). destruct dateISO; [done|]. simpl. rewrite Hm.
    destruct (Z.leb_spec 4 m), (Z.leb_spec m 9); simpl; (done || lia).
  - intros Hne Hns. destruct dateISO; [done|]. simpl.
    destruct (utcMonth _) as [m|] eqn:Hm; [|done].
    destruct (Z.leb_spec 4 m), (Z.leb_spec m 9); simpl; try done.
    exfalso. apply Hns. exists m. split; [done|lia].
  - by intros ->.
Qed.

Lemma ti_reads_shifted (utcMonth : string → option Z) (trip : Trip)
      (dateISO : string) (delta : Z) :
  operator trip = "TI" →
  (∀ s, tiAdjust utcMonth (Some s) dateISO = Some (s + delta)) →
  ∀ st,
    readDep utcMonth trip st dateISO
    = (fun s => s + delta) <$> Js.nullish (dep_time st) (arr_time st)
    ∧ readArr utcMonth trip st dateISO
      = (fun s => s + delta) <$> Js.nullish (arr_time st) (dep_time st).
Proof.
  intros Hti Hk st. unfold readDep, readArr.
  rewrite (bool_decide_eq_true_2 _ Hti). simpl.
  assert (∀ raw : option Z,
            (if bool_decide (is_Some raw) then tiAdjust utcMonth raw dateISO
             else raw) = (fun s => s + delta) <$> raw) as Hread.
  { intros [s|]; [|done].
    rewrite bool_decide_eq_true_2 by eauto. by rewrite Hk. }
  split; apply Hread.
Qed.

Lemma scanFrom_shifted (utcMonth : string → option Z) (trip : Trip)
      (routeId dateISO : string) (delta : Z) :
  (∀ st,
     readDep utcMonth trip st dateISO
     = (fun s => s + delta) <$> Js.nullish (dep_time st) (arr_time st)
     ∧ readArr utcMonth trip st dateISO
       = (fun s => s + delta) <$> Js.nullish (arr_time st) (dep_time st)) →
  ∀ sts s,
    (∀ boardStop boardDep,
       scanFrom utcMonth trip routeId dateISO sts
                (Some (boardStop, boardDep)) s
       = fold_left (alightShifted delta trip routeId boardStop boardDep)
                   sts s)
    ∧ scanFrom utcMonth trip routeId dateISO sts None s
      = match boardAt delta (tauBest s) sts with
        | None => s
        | Some (boardStop, boardDep, rest) =>
            fold_left (alightShifted delta trip routeId boardStop boardDep)
                      rest s
        end.
Proof.
  intros Hread. induction sts as [|st rest IH]; intros s; [done|].
  destruct (Hread st) as [Hdep Harr]. split.
  - intros boardStop boardDep. cbn [scanFrom fold_left].
    rewrite Harr. unfold alightShifted at 2.
    destruct (Js.nullish (arr_time st) (dep_time st)) as [arr|]; simpl;
      apply IH.
  - cbn [scanFrom boardAt]. rewrite Hdep.
    destruct (tauBest s !! stop_id st) as [tau|]; [|apply IH].
    destruct (Js.nullish (dep_time st) (arr_time st)) as [dep|]; simpl;
      [|apply IH].
    destruct (tau <=? dep + delta); apply IH.
Qed.

Lemma scanTurns_scanFrom (utcMonth : string → option Z) (trip : Trip)
      (routeId dateISO : string) (n : nat) :
  ∀ i boarded s,
    n = (length (stop_times trip) - i)%nat →
    scanTurns utcMonth n i trip routeId dateISO boarded s
    = (trip, scanFrom utcMonth trip routeId dateISO
                      (drop i (stop_times trip)) boarded s).
Proof.
  induction n as [|n IH]; intros i boarded s Hn.
  - rewrite drop_ge by lia. done.
  - destruct (stop_times trip !! i) as [st|] eqn:Hst.
    2:{ apply lookup_ge_None in Hst. lia. }
    cbn [scanTurns]. rewrite Hst, (drop_S _ _ _ Hst). cbn [scanFrom].
    destruct boarded as [[boardStop boardDep]|].
    + destruct (readArr utcMonth trip st dateISO); apply IH; lia.
    + apply IH. lia.
Qed.

(** C2. Scanning a trip whose operator is TI reads every departure and
    every arrival as the stored value plus 7200 s when the month of the
    query date is between 4 and 9, plus 3600 s for any other date, and plus
    3600 s when the query has no date: the scan state after [scanTrip] is
    the one obtained by boarding at the first stop whose label is not later
    than its stored departure so shifted, and by offering to every later
    stop its stored arrival so shifted ([scanShifted]).  The call leaves
    the trip, hence every stored stop time, as it received it. *)
Theorem C2_ti_reads_are_shifted
        (utcMonth : string → option Z) (trip : Trip) (fromIdx : nat)
        (s : ScanState) (routeId dateISO : string) :
  operator trip = "TI" →
  let scanned := scanTrip utcMonth trip fromIdx s routeId dateISO in
  scanTripOn utcMonth trip fromIdx s routeId dateISO = (trip, scanned)
  ∧ (dateISO ≠ "" → summerDate utcMonth dateISO →
     scanned = scanShifted 7200 trip fromIdx s routeId)
  ∧ (dateISO ≠ "" → ¬ summerDate utcMonth dateISO →
     scanned = scanShifted 3600 trip fromIdx s routeId)
  ∧ (dateISO = "" → scanned = scanShifted 3600 trip fromIdx s routeId).
Proof.
  intros Hti scanned. subst scanned. unfold scanTripOn, scanTrip, scanShifted.
  split; [by apply scanTurns_scanFrom|].
  assert (∀ delta,
            (∀ t, tiAdjust utcMonth (Some t) dateISO = Some (t + delta)) →
            scanFrom utcMonth trip routeId dateISO
                     (drop fromIdx (stop_times trip)) None s
            = match boardAt delta (tauBest s)
                            (drop fromIdx (stop_times trip)) with
              | None => s
              | Some (boardStop, boardDep, rest) =>
                  fold_left
                    (alightShifted delta trip routeId boardStop boardDep)
                    rest s
              end) as Hscan.
  { intros delta Hk.
    apply (scanFrom_shifted utcMonth trip routeId dateISO delta).
    by apply ti_reads_shifted. }
  repeat split; intros; apply Hscan; intros t;
    destruct (tiAdjust_cases utcMonth t dateISO) as (H1 & H2 & H3); auto.
Qed.

(** The second scenario of the clock shift: boarded in Milano at 11:00
    Italian time read as 13:00, the trip reaches Paris at 20:00. *)
Lemma C2_ti_reads_witness :
  operator milanoParis = "TI" ∧
  "2025-06-15" ≠ "" ∧ summerDate isoMonth "2025-06-15" ∧
  scanTripOn isoMonth milanoParis 0 milanoReached "TI:R" "2025-06-15"
  = (milanoParis,
     mkScan (<["TI:S08727" := 72000]> (<["TI:S01700" := 45000]> ∅))
            [("TI:S08727", 72000)]
            (<["TI:S08727" := Ride "TI:S01700" "TI:9292" "TI:R" 46800 72000
                                   "FRECCIAROSSA" "TI"]> ∅)).
Proof.
  assert (summerDate isoMonth "2025-06-15") as Hs.
  { exists 6. split; [reflexivity|lia]. }
  split; [reflexivity|]. split; [done|]. split; [exact Hs|].
  destruct (C2_ti_reads_are_shifted isoMonth milanoParis 0 milanoReached
              "TI:R" "2025-06-15" eq_refl) as (Hon & Hsummer & _).
  rewrite Hon, (Hsummer ltac:(done) Hs). reflexivity.
Defined.

Example ti_winter_read :
  readDep isoMonth milanoParis (stopAt "TI:S01700" 39600) "2025-11-15"
    = Some 43200.
Proof. reflexivity. Qed.

(* ===================================================================== *)
(** * Runs of the engine on the small timetables *)
(* ===================================================================== *)

(** C1 as stated fails: with the allow-set {INOUI}, the search returns the
    journey O -> X -> D, whose second leg is a TER. *)
Lemma C1_counterexample :
  let S := ["INOUI"] in
  let out := searchJourneys ∅ [] isoMonth asciiNorm fallbackType
               ["SNCF:O"] ["SNCF:D"] 0 (buildStopToTrips twoLegTrips) 8 ""
               (Some S) in
  ¬ (∀ j leg, j ∈ out → leg ∈ j_legs j → leg_train_type leg ∈ S).
Proof.
  intros S out Hall.
  assert (out = [twoLegJourney]) as Hout by (vm_compute; reflexivity).
  assert ("TER" ∈ S) as Hter.
  { apply (Hall twoLegJourney
             (mkLeg "SNCF:X" "SNCF:D" 30000 32400 "SNCF:T2" "SNCF:R2" "SNCF"
                    "TER" 40)).
    - rewrite Hout. by left.
    - right. by left. }
  apply list_elem_of_singleton in Hter. discriminate.
Qed.

(** C5 as stated fails: on a timetable without trips nothing is ever found,
    and the enumeration makes 29 consecutive empty advances (until the start
    time passes the fourteenth hour) instead of stopping after 4. *)
Lemma C5_counterexample :
  let st := collectJourneys
              (fun t => raptorCore ∅ isoMonth fallbackType
                          ["SNCF:O"] (Some ["SNCF:D"]) t ∅ "")
              0 8 None in
  ls_results st = [] ∧ ls_noNew st = 29 ∧ ls_t st = 29 * 1800 ∧
  ls_broke st = false.
Proof. vm_compute. repeat split; reflexivity. Qed.

(** C8 as stated fails: with start time 0 the only journey found to D
    arrives at 9000; with start time 1000 a journey arriving at 3000 is
    found.  (Starting at 1000, the trip O -> N improves N, which relaxes the
    walk to M; starting at 0, N keeps the label given at initialisation and
    is never improved, so its walk to M is never relaxed.) *)
Lemma C8_counterexample :
  let run start :=
    raptorCore chainTransfers isoMonth fallbackType
               ["SNCF:O"] (Some ["SNCF:D"]) start
               (buildStopToTrips chainTrips) "" in
  bestArrivalAt "SNCF:D" (run 0) = Some 9000 ∧
  bestArrivalAt "SNCF:D" (run 1000) = Some 3000.
Proof. vm_compute. split; reflexivity. Qed.

(** C9. N is seeded at start + 2700 s and is kept out of the origin set,
    but the journey that boards its only trip at N is reported with 0
    transfers: [reconstructJourney] skips the walk O -> N and counts
    [legs.length - 1]. *)
Theorem C9_intercity_departure_counts_no_transfer :
  let c := raptorInit cityTransfers ["SNCF:O"] 0 in
  let out := raptorCore cityTransfers isoMonth fallbackType
               ["SNCF:O"] (Some ["SNCF:D"]) 0
               (buildStopToTrips cityTrips) "" in
  cs_tau_best c !! "SNCF:N" = Some 2700 ∧
  bool_decide ("SNCF:N" ∈ cs_originSet c) = false ∧
  (fun j => (leg_from_id <$> j_legs j, j_transfers j)) <$> out
    = [(["SNCF:N"], 0)].
Proof. vm_compute. repeat split; reflexivity. Qed.

(* ===================================================================== *)
(** * Insertion-ordered dictionaries *)
(* ===================================================================== *)

Section OMapFacts.
Context {K V : Type} `{EqDecision K}.
Implicit Types (k : K) (v : V) (m : list (K * V)).

Lemma oget_oset_eq k v m : oget k (oset k v m) = Some v.
Proof.
  induction m as [|[k' v'] m IH]; simpl.
  - by rewrite decide_True.
  - destruct (decide (k = k')) as [->|Hne]; simpl.
    + by rewrite decide_True.
    + by rewrite decide_False.
Qed.

Lemma oget_oset_ne k k' v m : k ≠ k' → oget k' (oset k v m) = oget k' m.
Proof.
  intros Hne. induction m as [|[k0 v0] m IH]; simpl.
  - by rewrite decide_False.
  - destruct (decide (k = k0)) as [->|Hne0]; simpl.
    + by rewrite !decide_False.
    + destruct (decide (k' = k0)); [done|apply IH].
Qed.

Lemma oget_Some_elem k v m : oget k m = Some v → (k, v) ∈ m.
Proof.
  induction m as [|[k0 v0] m IH]; simpl; [done|].
  destruct (decide (k = k0)) as [->|Hne].
  - intros [= ->]. by left.
  - intros Hg. right. by apply IH.
Qed.

Lemma oget_None_keys k m : oget k m = None → k ∉ m.*1.
Proof.
  induction m as [|[k0 v0] m IH]; simpl.
  - intros _ Hin. by apply elem_of_nil in Hin.
  - destruct (decide (k = k0)) as [->|Hne]; [done|].
    intros Hg Hin. apply elem_of_cons in Hin as [?|?]; [done|]. by apply IH.
Qed.

Lemma elem_NoDup_oget k v m : NoDup m.*1 → (k, v) ∈ m → oget k m = Some v.
Proof.
  induction m as [|[k0 v0] m IH]; simpl.
  - intros _ Hin. by apply elem_of_nil in Hin.
  - intros Hnd Hin. apply NoDup_cons in Hnd as [Hk0 Hnd].
    apply elem_of_cons in Hin as [[= -> ->]|Hin].
    + by rewrite decide_True.
    + destruct (decide (k = k0)) as [->|Hne]; [|by apply IH].
      exfalso. apply Hk0. apply list_elem_of_fmap. by exists (k0, v).
Qed.

Lemma elem_of_oset k v k' v' m :
  (k', v') ∈ oset k v m → (k' = k ∧ v' = v) ∨ (k', v') ∈ m.
Proof.
  induction m as [|[k0 v0] m IH]; simpl.
  - intros Hin. apply list_elem_of_singleton in Hin as [= -> ->]. by left.
  - destruct (decide (k = k0)) as [->|Hne].
    + intros Hin. apply elem_of_cons in Hin as [[= -> ->]|Hin]; [by left|].
      right. by right.
    + intros Hin. apply elem_of_cons in Hin as [->|Hin]; [right; by left|].
      destruct (IH Hin) as [?|?]; [by left|right; by right].
Qed.

Lemma oset_keys k v m :
  (oset k v m).*1 = if decide (k ∈ m.*1) then m.*1 else m.*1 ++ [k].
Proof.
  induction m as [|[k0 v0] m IH].
  - destruct (decide (k ∈ ([] : list (K * V)).*1)) as [Hin|]; [|done].
    by apply elem_of_nil in Hin.
  - cbn [oset]. destruct (decide (k = k0)) as [->|Hne].
    + destruct (decide (k0 ∈ ((k0, v0) :: m).*1)) as [|Hnin]; [done|].
      exfalso. apply Hnin. by left.
    + change (((k0, v0) :: oset k v m).*1) with (k0 :: (oset k v m).*1).
      rewrite IH.
      change (((k0, v0) :: m).*1) with (k0 :: m.*1).
      destruct (decide (k ∈ m.*1)) as [Hin|Hnin];
        destruct (decide (k ∈ k0 :: m.*1)) as [Hin'|Hnin']; try done.
      * exfalso. apply Hnin'. by right.
      * apply elem_of_cons in Hin' as [?|?]; done.
Qed.

Lemma oset_NoDup k v m : NoDup m.*1 → NoDup (oset k v m).*1.
Proof.
  intros Hnd. rewrite oset_keys. destruct (decide (k ∈ m.*1)); [done|].
  apply NoDup_app. split; [done|]. split; [|apply NoDup_singleton].
  intros x Hx Hx'. apply list_elem_of_singleton in Hx'. by subst.
Qed.

End OMapFacts.

(* ===================================================================== *)
(** * The enumeration loop *)
(* ===================================================================== *)

Lemma fold_max_ge_init (l : list Z) (m : Z) : m <= fold_left Z.max l m.
Proof.
  revert m. induction l as [|x l IH]; intros m; simpl; [lia|].
  specialize (IH (Z.max m x)). lia.
Qed.

Lemma fold_max_ge_elem (l : list Z) (m x : Z) :
  x ∈ l → x <= fold_left Z.max l m.
Proof.
  revert m. induction l as [|y l IH]; intros m Hin; simpl.
  - by apply elem_of_nil in Hin.
  - apply elem_of_cons in Hin as [->|Hin]; [|by apply IH].
    pose proof (fold_max_ge_init l (Z.max m y)). lia.
Qed.

Lemma fold_max_in (l : list Z) (m : Z) :
  fold_left Z.max l m = m ∨ fold_left Z.max l m ∈ l.
Proof.
  revert m. induction l as [|y l IH]; intros m; simpl; [by left|].
  destruct (IH (Z.max m y)) as [Heq|Hin]; [|right; by right].
  rewrite Heq. destruct (Z.max_spec m y) as [[_ ->]|[_ ->]]; [right; by left|by left].
Qed.

Section EnumerationFacts.
Variable core         : Z → list Journey.
Variable cityKey      : string → string.
Variable startTime    : Z.
Variable limit        : Z.
Variable allowedTypes : option (list string).

Lemma takeJourney_fold_spec (batch : list Journey) (res : list Journey)
      (seen : gset string) (m : Z) :
  ∃ new seen',
    fold_left (takeJourney startTime allowedTypes) batch (res, seen, m)
    = (res ++ new, seen', fold_left Z.max (j_dep_time <$> new) m)
    ∧ Forall (fun j => j ∈ batch ∧ startTime <= j_dep_time j
                       ∧ passesFilter allowedTypes j = true) new.
Proof.
  revert res seen m. induction batch as [|j batch IH]; intros res seen m; simpl.
  - exists [], seen. by rewrite app_nil_r.
  - assert (∀ new seen',
              fold_left (takeJourney startTime allowedTypes) batch (res, seen, m)
              = (res ++ new, seen', fold_left Z.max (j_dep_time <$> new) m) →
              Forall (fun j0 => j0 ∈ batch ∧ startTime <= j_dep_time j0
                                ∧ passesFilter allowedTypes j0 = true) new →
              ∃ new0 seen0,
                fold_left (takeJourney startTime allowedTypes) batch (res, seen, m)
                = (res ++ new0, seen0, fold_left Z.max (j_dep_time <$> new0) m)
                ∧ Forall (fun j0 => j0 ∈ j :: batch ∧ startTime <= j_dep_time j0
                                    ∧ passesFilter allowedTypes j0 = true) new0)
      as Hskip.
    { intros new seen' Heq Hall. exists new, seen'. split; [done|].
      eapply Forall_impl; [exact Hall|]. intros j0 (? & ? & ?).
      split; [by right|done]. }
    destruct (Z.ltb_spec (j_dep_time j) startTime) as [Hlt|Hge].
    { destruct (IH res seen m) as (new & seen' & Heq & Hall). eauto. }
    destruct (passesFilter allowedTypes j) eqn:Hpass; simpl.
    2:{ destruct (IH res seen m) as (new & seen' & Heq & Hall). eauto. }
    destruct (decide (journeyKey j ∈ seen)) as [Hseen|Hnew].
    { destruct (IH res seen m) as (new & seen' & Heq & Hall). eauto. }
    destruct (IH (res ++ [j]) ({[journeyKey j]} ∪ seen)
                 (if m <? j_dep_time j then j_dep_time j else m))
      as (new & seen' & Heq & Hall).
    exists (j :: new), seen'. split.
    + rewrite Heq, <- app_assoc. simpl. do 2 f_equal.
      destruct (Z.ltb_spec m (j_dep_time j)); f_equal; lia.
    + constructor; [split; [by left|done]|].
      eapply Forall_impl; [exact Hall|]. intros j0 (? & ? & ?).
      split; [by right|done].
Qed.

(** What one turn of the loop does to the state, [new] being the journeys
    pushed during the turn. *)
Lemma searchIter_spec (st : LoopState) :
  ∃ new,
    let st' := searchIter core startTime allowedTypes st in
    let m := fold_left Z.max (j_dep_time <$> new) (-1) in
    ls_results st' = ls_results st ++ new
    ∧ Forall (fun j => j ∈ core (ls_t st) ∧ startTime <= j_dep_time j
                       ∧ passesFilter allowedTypes j = true) new
    ∧ (0 <= m → ls_t st' = m + 1 ∧ ls_noNew st' = 0 ∧ ls_broke st' = false)
    ∧ (m < 0 →
       ls_t st' = ls_t st + 1800 ∧ ls_noNew st' = ls_noNew st + 1 ∧
       ls_broke st' =
         (4 <=? ls_noNew st + 1) && (0 <? Z.of_nat (length (ls_results st')))).
Proof.
  unfold searchIter.
  destruct (takeJourney_fold_spec (core (ls_t st)) (ls_results st)
              (ls_seen st) (-1)) as (new & seen' & Heq & Hall).
  exists new. rewrite Heq. simpl.
  destruct (Z.leb_spec 0 (fold_left Z.max (j_dep_time <$> new) (-1)));
    simpl; repeat split; (done || lia).
Qed.

Lemma searchIter_accepted (st : LoopState) :
  Forall (accepted core startTime allowedTypes) (ls_results st) →
  Forall (accepted core startTime allowedTypes) (ls_results (searchIter core startTime allowedTypes st)).
Proof.
  intros Hst. destruct (searchIter_spec st) as (new & Hres & Hall & _).
  simpl in Hres. rewrite Hres. apply Forall_app. split; [done|].
  eapply Forall_impl; [exact Hall|]. intros j (? & ? & ?).
  split; [by exists (ls_t st)|done].
Qed.

Lemma searchLoop_accepted (fuel : nat) (st : LoopState) :
  Forall (accepted core startTime allowedTypes) (ls_results st) →
  Forall (accepted core startTime allowedTypes)
    (ls_results (searchLoop core startTime limit allowedTypes fuel st)).
Proof.
  revert st. induction fuel as [|fuel IH]; intros st Hst; simpl; [done|].
  destruct (loopGuard _ _ _); [|done].
  pose proof (searchIter_accepted st Hst).
  destruct (ls_broke _); [done|by apply IH].
Qed.

Lemma collectJourneys_accepted :
  Forall (accepted core startTime allowedTypes)
    (ls_results (collectJourneys core startTime limit allowedTypes)).
Proof. apply searchLoop_accepted. constructor. Qed.

End EnumerationFacts.

(** ** The loop always leaves: fuel is never exhausted *)

Section LoopTermination.
Variable core         : Z → list Journey.
Variable startTime    : Z.
Variable limit        : Z.
Variable allowedTypes : option (list string).

Lemma loopPotential_nonneg (st : LoopState) :
  0 <= loopPotential startTime limit st.
Proof. unfold loopPotential. lia. Qed.

Lemma searchIter_decreases (st : LoopState) :
  startTime <= ls_t st →
  loopGuard startTime limit st = true →
  let st' := searchIter core startTime allowedTypes st in
  startTime <= ls_t st' ∧
  loopPotential startTime limit st' < loopPotential startTime limit st.
Proof.
  intros Ht Hguard. unfold loopGuard in Hguard.
  apply andb_true_iff in Hguard as [Hlen Hmax].
  apply Z.ltb_lt in Hlen. apply Z.leb_le in Hmax.
  destruct (searchIter_spec core startTime allowedTypes st)
    as (new & Hres & Hall & Hpos & Hneg).
  simpl in *. unfold loopPotential, maxT in *. rewrite Hres, length_app.
  set (m := fold_left Z.max (j_dep_time <$> new) (-1)) in *.
  destruct (Z.le_gt_cases 0 m) as [Hm|Hm].
  - destruct (Hpos Hm) as (-> & _ & _).
    assert (new ≠ [] ∧ startTime <= m) as [Hnew Hstart].
    { destruct (fold_max_in (j_dep_time <$> new) (-1)) as [Heq|Hin].
      - fold m in Heq. lia.
      - fold m in Hin. apply list_elem_of_fmap in Hin as (j & -> & Hj).
        split; [by destruct new; [apply elem_of_nil in Hj|]|].
        rewrite Forall_forall in Hall. by apply Hall. }
    assert (1 <= length new)%nat by (destruct new; [done|simpl; lia]).
    split; [lia|].
    assert ((startTime + 14 * 3600 - (m + 1)) / 1800 < 28).
    { apply Z.div_lt_upper_bound; lia. }
    lia.
  - destruct (Hneg ltac:(lia)) as (-> & _ & _).
    split; [lia|].
    replace (startTime + 14 * 3600 - (ls_t st + 1800))
      with ((startTime + 14 * 3600 - ls_t st) + (-1) * 1800) by lia.
    rewrite Z.div_add by lia.
    assert (0 <= (startTime + 14 * 3600 - ls_t st) / 1800)
      by (apply Z.div_pos; lia).
    lia.
Qed.

Lemma searchLoop_exits (fuel : nat) (st : LoopState) :
  startTime <= ls_t st →
  loopPotential startTime limit st < Z.of_nat fuel →
  loopExited startTime limit
    (searchLoop core startTime limit allowedTypes fuel st).
Proof.
  revert st. induction fuel as [|fuel IH]; intros st Ht Hpot.
  - pose proof (loopPotential_nonneg st). lia.
  - simpl. destruct (loopGuard startTime limit st) eqn:Hguard; [|by left].
    destruct (searchIter_decreases st Ht Hguard) as [Ht' Hdec].
    destruct (ls_broke _) eqn:Hbroke; [by right|].
    apply IH; [done|lia].
Qed.

(** The fuel given to the loop by [collectJourneys] is enough: the state it
    returns has left the loop, by the guard or by [break]. *)
Lemma collectJourneys_exits :
  loopExited startTime limit
    (collectJourneys core startTime limit allowedTypes).
Proof.
  apply searchLoop_exits; [simpl; lia|].
  unfold loopPotential, searchFuel, searchStart, maxT. simpl.
  replace (startTime + 14 * 3600 - startTime) with (28 * 1800) by lia.
  rewrite Z.div_mul by lia. lia.
Qed.

(** [break] is only taken after four empty advances in a row, with at
    least one journey collected. *)
Lemma searchLoop_broke (fuel : nat) (st : LoopState) :
  (ls_broke st = true → 4 <= ls_noNew st ∧ ls_results st ≠ []) →
  let fin := searchLoop core startTime limit allowedTypes fuel st in
  ls_broke fin = true → 4 <= ls_noNew fin ∧ ls_results fin ≠ [].
Proof.
  revert st. induction fuel as [|fuel IH]; intros st Hst; simpl; [done|].
  destruct (loopGuard _ _ _); [|done].
  assert (ls_broke (searchIter core startTime allowedTypes st) = true →
          4 <= ls_noNew (searchIter core startTime allowedTypes st)
          ∧ ls_results (searchIter core startTime allowedTypes st) ≠ [])
    as Hiter.
  { destruct (searchIter_spec core startTime allowedTypes st)
      as (new & Hres & _ & Hpos & Hneg). simpl in *.
    destruct (Z.le_gt_cases 0 (fold_left Z.max (j_dep_time <$> new) (-1)))
      as [Hm|Hm].
    - destruct (Hpos Hm) as (_ & _ & ->). done.
    - destruct (Hneg ltac:(lia)) as (_ & -> & ->).
      intros Hb. apply andb_true_iff in Hb as [H4 Hlen].
      apply Z.leb_le in H4. apply Z.ltb_lt in Hlen.
      split; [done|]. intros Hnil. rewrite Hnil in Hlen. simpl in Hlen. lia. }
  destruct (ls_broke (searchIter core startTime allowedTypes st)) eqn:Hb.
  - intros _. by apply Hiter.
  - apply IH. by rewrite Hb.
Qed.

End LoopTermination.

(** ** Sorting, deduplication and truncation keep journeys of the list *)

Lemma slice0_sublist {A : Type} (n : Z) (l : list A) :
  Js.slice0 n l `sublist_of` l.
Proof. unfold Js.slice0. destruct (0 <=? n); apply sublist_take. Qed.

Section DedupeFacts.
Variable cityKey : string → string.

Lemma dedupeStep_inv m seen j0 :
  dedupeInv cityKey m seen → dedupeInv cityKey (dedupeStep cityKey m j0) (seen ++ [j0]).
Proof.
  intros (Hnd & Hkeys & Hmin). unfold dedupeStep.
  set (k0 := dedupeKey cityKey j0).
  assert (∀ existing,
            oget k0 m = existing →
            match existing with
            | Some e => j_duration j0 < j_duration e
            | None => True
            end →
            dedupeInv cityKey (oset k0 j0 m) (seen ++ [j0])) as Hreplace.
  { intros existing Hex Hlt. split; [by apply oset_NoDup|]. split.
    - intros k j Hin. apply elem_of_oset in Hin as [[-> ->]|Hin].
      + split; [done|]. apply elem_of_app. right. by left.
      + destruct (Hkeys k j Hin). split; [done|]. apply elem_of_app. by left.
    - intros j' Hj'. apply elem_of_app in Hj' as [Hj'|Hj'].
      + destruct (Hmin j' Hj') as (j & Hget & Hle).
        destruct (decide (k0 = dedupeKey cityKey j')) as [Heq|Hne].
        * rewrite <- Heq, oget_oset_eq. exists j0. split; [done|].
          rewrite <- Heq in Hget. rewrite Hget in Hex. subst existing.
          simpl in Hlt. lia.
        * rewrite oget_oset_ne by done. eauto.
      + apply list_elem_of_singleton in Hj' as ->. fold k0.
        rewrite oget_oset_eq. exists j0. split; [done|lia]. }
  destruct (oget k0 m) as [e|] eqn:Hget; [|by apply (Hreplace None)].
  destruct (Z.ltb_spec (j_duration j0) (j_duration e)) as [Hlt|Hge].
  { by apply (Hreplace (Some e)). }
  split; [done|]. split.
  - intros k j Hin. destruct (Hkeys k j Hin). split; [done|].
    apply elem_of_app. by left.
  - intros j' Hj'. apply elem_of_app in Hj' as [Hj'|Hj']; [by apply Hmin|].
    apply list_elem_of_singleton in Hj' as ->. fold k0. exists e. done.
Qed.

Lemma dedupe_fold_inv l m seen :
  dedupeInv cityKey m seen →
  dedupeInv cityKey (fold_left (dedupeStep cityKey) l m) (seen ++ l).
Proof.
  revert m seen. induction l as [|j0 l IH]; intros m seen Hinv; simpl.
  - by rewrite app_nil_r.
  - replace (seen ++ j0 :: l) with ((seen ++ [j0]) ++ l)
      by (by rewrite <- app_assoc).
    by apply IH, dedupeStep_inv.
Qed.

(** What [dedupeByArrCity] returns: journeys of the input, with pairwise
    distinct keys, each of minimal duration among the input journeys that
    share its key. *)
Lemma dedupeByArrCity_spec (results : list Journey) :
  NoDup (dedupeKey cityKey <$> dedupeByArrCity cityKey results)
  ∧ ∀ j, j ∈ dedupeByArrCity cityKey results →
         j ∈ results
         ∧ ∀ j', j' ∈ results →
                 dedupeKey cityKey j' = dedupeKey cityKey j →
                 j_duration j <= j_duration j'.
Proof.
  unfold dedupeByArrCity.
  assert (dedupeInv cityKey [] []) as H0.
  { split; [constructor|]. split.
    - intros k j Hin. by apply elem_of_nil in Hin.
    - intros j' Hin. by apply elem_of_nil in Hin. }
  pose proof (dedupe_fold_inv results [] [] H0) as (Hnd & Hkeys & Hmin).
  simpl in *. set (m := fold_left (dedupeStep cityKey) results []) in *.
  split.
  - replace (dedupeKey cityKey <$> m.*2) with (m.*1); [done|].
    rewrite <- list_fmap_compose. apply list_fmap_ext.
    intros i [k j] Hin%list_elem_of_lookup_2. simpl.
    by destruct (Hkeys k j Hin).
  - intros j Hj. apply list_elem_of_fmap in Hj as ([k j0] & -> & Hin). simpl.
    destruct (Hkeys k j0 Hin) as [Hk Hres]. split; [done|].
    intros j' Hj' Hsame. destruct (Hmin j' Hj') as (j1 & Hget & Hle).
    rewrite Hsame, Hk in Hget.
    rewrite (elem_NoDup_oget k j0 m Hnd Hin) in Hget. by injection Hget as <-.
Qed.

Lemma finishSearch_spec (limit : Z) (results : list Journey) :
  NoDup (dedupeKey cityKey <$> finishSearch cityKey limit results)
  ∧ ∀ j, j ∈ finishSearch cityKey limit results →
         j ∈ results
         ∧ ∀ j', j' ∈ results →
                 dedupeKey cityKey j' = dedupeKey cityKey j →
                 j_duration j <= j_duration j'.
Proof.
  unfold finishSearch.
  destruct (dedupeByArrCity_spec (stable_sort journeyLeb results))
    as [Hnd Hmin].
  set (d := dedupeByArrCity cityKey (stable_sort journeyLeb results)) in *.
  split.
  - apply (sublist_NoDup _ (dedupeKey cityKey <$> stable_sort journeyLeb d)).
    + by rewrite stable_sort_perm.
    + apply fmap_sublist, slice0_sublist.
  - intros j Hj.
    assert (j ∈ d) as Hd.
    { apply (stable_sort_elem journeyLeb).
      exact (sublist_subseteq _ _ (slice0_sublist _ _) _ Hj). }
    destruct (Hmin j Hd) as [Hin Hle]. split.
    + exact (proj1 (stable_sort_elem journeyLeb j results) Hin).
    + intros j' Hj'. apply Hle.
      exact (proj2 (stable_sort_elem journeyLeb j' results) Hj').
Qed.

End DedupeFacts.

(* ===================================================================== *)
(** * searchJourneys: filter, enumeration and deduplication *)
(* ===================================================================== *)

Lemma searchLoop_length core startTime limit allowedTypes fuel st :
  limit <= 0 →
  searchLoop core startTime limit allowedTypes fuel st = st.
Proof.
  intros Hlim. destruct fuel as [|fuel]; simpl; [done|].
  unfold loopGuard.
  destruct (Z.ltb_spec (Z.of_nat (length (ls_results st))) limit) as [Hlt|Hge];
    [|done].
  exfalso. lia.
Qed.

Section TurnFacts.
Variable core         : Z → list Journey.
Variable startTime    : Z.
Variable limit        : Z.
Variable allowedTypes : option (list string).
Hypothesis startTime_nonneg : 0 <= startTime.

Local Abbreviation turn := (searchIter core startTime allowedTypes).
Local Abbreviation turns := (turnsOf core startTime allowedTypes).
Local Abbreviation pushed := (pushedAt core startTime allowedTypes).

(** One turn, in terms of the journeys it pushes. *)
Lemma searchIter_pushed (st : LoopState) :
  let st' := turn st in
  let new := drop (length (ls_results st)) (ls_results st') in
  ls_results st' = ls_results st ++ new
  ∧ (new ≠ [] → ls_noNew st' = 0 ∧ ls_broke st' = false)
  ∧ (new = [] →
     ls_noNew st' = ls_noNew st + 1
     ∧ ls_broke st'
       = (4 <=? ls_noNew st + 1) && (0 <? Z.of_nat (length (ls_results st')))).
Proof.
  intros st' new.
  destruct (searchIter_spec core startTime allowedTypes st)
    as (new0 & Hres & Hall & Hpos & Hneg).
  simpl in Hres, Hpos, Hneg. fold st' in Hres, Hpos, Hneg.
  assert (new = new0) as Hnew.
  { unfold new. rewrite Hres. by rewrite drop_app_length. }
  rewrite Hnew. clear Hnew new.
  set (m := fold_left Z.max (j_dep_time <$> new0) (-1)) in *.
  split; [done|]. rewrite Forall_forall in Hall. split.
  - intros Hne.
    assert (0 <= m) as Hm.
    { destruct new0 as [|j0 new0]; [done|].
      assert (j_dep_time j0 ∈ j_dep_time <$> j0 :: new0) as Hj0
        by (simpl; by left).
      pose proof (fold_max_ge_elem _ (-1) _ Hj0) as Hge.
      destruct (Hall j0 ltac:(by left)) as (_ & ? & _). unfold m. lia. }
    destruct (Hpos Hm) as (_ & ? & ?). done.
  - intros ->. simpl in m.
    destruct (Hneg ltac:(unfold m; lia)) as (_ & ? & ?). done.
Qed.

(** The counter of the source counts the empty turns that end the run. *)
Lemma noNew_counts_empty_turns (k j : nat) :
  Z.of_nat j <= ls_noNew (turns k)
  ↔ (j <= k)%nat ∧ ∀ i, (k - j <= i < k)%nat → pushed i = [].
Proof.
  revert j. induction k as [|k IH]; intros j.
  - simpl. split.
    + intros Hj. split; [lia|]. intros i Hi. lia.
    + intros [Hj _]. lia.
  - destruct (searchIter_pushed (turns k)) as (_ & Hsome & Hnone).
    change (turn (turns k)) with (turns (S k)) in Hsome, Hnone.
    fold (pushed k) in Hsome, Hnone.
    destruct (decide (pushed k = [])) as [Hempty|Hpush].
    + destruct (Hnone Hempty) as [-> _].
      assert (0 <= ls_noNew (turns k)) as Hpos.
      { apply (IH 0%nat). split; [lia|]. intros i Hi. lia. }
      destruct j as [|j].
      * split; [|intros _; lia].
        intros _. split; [lia|]. intros i Hi. lia.
      * rewrite Nat2Z.inj_succ.
        split.
        -- intros Hj. destruct (proj1 (IH j) ltac:(lia)) as [Hle Hall].
           split; [lia|]. intros i Hi.
           destruct (decide (i = k)) as [->|Hne]; [done|].
           apply Hall. lia.
        -- intros [Hle Hall].
           assert (Z.of_nat j <= ls_noNew (turns k)); [|lia].
           apply IH. split; [lia|]. intros i Hi. apply Hall. lia.
    + destruct (Hsome Hpush) as [-> _]. split.
      * intros Hj. assert (j = 0%nat) as -> by lia.
        split; [lia|]. intros i Hi. lia.
      * intros [Hle Hall]. destruct j as [|j]; [done|].
        exfalso. apply Hpush, Hall. lia.
Qed.

(** The [break] is taken after a turn exactly when the last four turns
    were empty and a journey has been collected. *)
Lemma broke_fourEmpty (k : nat) :
  ls_broke (turns (S k)) = true
  ↔ fourEmpty core startTime allowedTypes (S k).
Proof.
  unfold fourEmpty.
  destruct (searchIter_pushed (turns k)) as (_ & Hsome & Hnone).
  change (turn (turns k)) with (turns (S k)) in Hsome, Hnone.
  fold (pushed k) in Hsome, Hnone.
  pose proof (noNew_counts_empty_turns (S k) 4) as Hcount.
  destruct (decide (pushed k = [])) as [Hempty|Hpush].
  - destruct (Hnone Hempty) as [Hn ->].
    rewrite andb_true_iff, Z.leb_le, Z.ltb_lt, <- Hn.
    change (Z.of_nat 4) with 4 in Hcount. rewrite Hcount.
    assert (0 < Z.of_nat (length (ls_results (turns (S k))))
            ↔ ls_results (turns (S k)) ≠ []) as ->.
    { destruct (ls_results (turns (S k))); simpl; split; (done || lia). }
    tauto.
  - destruct (Hsome Hpush) as [_ ->]. split; [done|].
    intros (_ & _ & Hall). exfalso. apply Hpush, Hall. lia.
Qed.

(** The loop returns the state of the first turn after which its guard
    fails or the [break] is taken. *)
Lemma searchLoop_trace (fuel : nat) :
  ∀ st, ∃ n,
    searchLoop core startTime limit allowedTypes fuel st = Nat.iter n turn st
    ∧ (∀ k, (k < n)%nat →
            loopGuard startTime limit (Nat.iter k turn st) = true)
    ∧ (∀ k, (0 < k < n)%nat → ls_broke (Nat.iter k turn st) = false)
    ∧ (n = fuel
       ∨ loopGuard startTime limit (Nat.iter n turn st) = false
       ∨ ((0 < n)%nat ∧ ls_broke (Nat.iter n turn st) = true)).
Proof.
  induction fuel as [|fuel IH]; intros st.
  - exists 0%nat. simpl. split; [done|]. split; [intros; lia|].
    split; [intros; lia|]. by left.
  - simpl. destruct (loopGuard startTime limit st) eqn:Hguard.
    2:{ exists 0%nat. simpl. split; [done|]. split; [intros; lia|].
        split; [intros; lia|]. right. by left. }
    destruct (ls_broke (turn st)) eqn:Hbroke.
    + exists 1%nat. simpl. split; [done|]. split.
      * intros k Hk. by assert (k = 0%nat) as -> by lia.
      * split; [intros; lia|]. right. right. split; [lia|done].
    + destruct (IH (turn st)) as (n & Hfin & Hg & Hb & Hexit).
      assert (∀ k, Nat.iter k turn (turn st) = Nat.iter (S k) turn st)
        as Hshift by (intros k; by rewrite Nat.iter_succ_r).
      exists (S n). rewrite Hfin, Hshift. split; [done|]. split; [|split].
      * intros [|k] Hk; [done|]. rewrite <- Hshift. apply Hg. lia.
      * intros [|[|k]] Hk; [lia|done|]. rewrite <- Hshift. apply Hb. lia.
      * rewrite <- !Hshift. destruct Hexit as [->|[?|[? ?]]]; [by left|..].
        -- right. by left.
        -- right. right. split; [lia|done].
Qed.

Lemma loopGuard_goesOn (k : nat) :
  loopGuard startTime limit (turns k) = true
  ↔ goesOn core startTime limit allowedTypes k.
Proof.
  unfold loopGuard, goesOn, maxT.
  rewrite andb_true_iff, Z.ltb_lt, Z.leb_le. done.
Qed.

(** The enumeration ends at the first turn after which the guard fails or
    four empty turns in a row have been made with a journey collected. *)
Lemma collectJourneys_first_stop :
  ∃ n,
    collectJourneys core startTime limit allowedTypes = turns n
    ∧ (∀ k, (k < n)%nat →
            goesOn core startTime limit allowedTypes k
            ∧ ¬ fourEmpty core startTime allowedTypes k)
    ∧ (¬ goesOn core startTime limit allowedTypes n
       ∨ fourEmpty core startTime allowedTypes n).
Proof.
  destruct (searchLoop_trace (searchFuel limit) (searchStart startTime))
    as (n & Hfin & Hg & Hb & Hexit).
  fold (collectJourneys core startTime limit allowedTypes) in Hfin.
  exists n. split; [exact Hfin|]. split.
  - intros k Hk. split; [by apply loopGuard_goesOn, Hg|].
    destruct k as [|k]; [intros (? & _); lia|].
    pose proof (Hb (S k) ltac:(lia)) as Hbk.
    intros Hf%broke_fourEmpty. unfold turnsOf in Hf. congruence.
  - assert (loopGuard startTime limit (turns n) = false
            ∨ ((0 < n)%nat ∧ ls_broke (turns n) = true)) as [Hguard|[Hn Hbr]].
    { destruct Hexit as [Hfuel|[?|?]]; [|by left|by right].
      destruct (collectJourneys_exits core startTime limit allowedTypes)
        as [Hguard|Hbr]; rewrite Hfin in *; [by left|].
      right. split; [|done]. rewrite Hfuel. unfold searchFuel. lia. }
    + left. rewrite <- loopGuard_goesOn. by rewrite Hguard.
    + right. destruct n as [|n]; [lia|]. by apply broke_fourEmpty.
Qed.

End TurnFacts.

(** C5 (amended). In the enumeration loop of [searchJourneys], started at a
    non-negative time, [new] being the journeys pushed during a turn:
    - when [new] is not empty the next start time is the largest departure
      time of [new] plus 1 s, and the count of empty advances is reset;
    - when [new] is empty the start time advances by 1800 s and the count
      of consecutive empty advances grows by one; the loop is left at once
      exactly when that count has reached 4 and at least one journey has
      been collected so far;
    - the enumeration makes [n] turns and no more, [n] being the first
      number of turns after which the collected journeys have reached the
      limit, or the start time has passed the initial start time plus
      14 h, or the last four turns have all been empty advances with at
      least one journey collected: before that the loop goes on, and at
      that point it stops. *)
Theorem C5_enumeration_advance
        (core : Z → list Journey) (startTime limit : Z)
        (allowedTypes : option (list string)) (st : LoopState) :
  0 <= startTime →
  let st' := searchIter core startTime allowedTypes st in
  let new := drop (length (ls_results st)) (ls_results st') in
  let fin := collectJourneys core startTime limit allowedTypes in
  ls_results st' = ls_results st ++ new
  ∧ (new ≠ [] →
     (∃ j, j ∈ new ∧ ls_t st' = j_dep_time j + 1
           ∧ ∀ j', j' ∈ new → j_dep_time j' <= j_dep_time j)
     ∧ ls_noNew st' = 0 ∧ ls_broke st' = false)
  ∧ (new = [] →
     ls_t st' = ls_t st + 1800 ∧ ls_noNew st' = ls_noNew st + 1
     ∧ (ls_broke st' = true ↔ 4 <= ls_noNew st' ∧ ls_results st' ≠ []))
  ∧ (limit <= Z.of_nat (length (ls_results fin))
     ∨ startTime + 14 * 3600 < ls_t fin
     ∨ (4 <= ls_noNew fin ∧ ls_results fin ≠ []))
  ∧ ∃ n,
      fin = turnsOf core startTime allowedTypes n
      ∧ (∀ k, (k < n)%nat →
              goesOn core startTime limit allowedTypes k
              ∧ ¬ fourEmpty core startTime allowedTypes k)
      ∧ (¬ goesOn core startTime limit allowedTypes n
         ∨ fourEmpty core startTime allowedTypes n).
Proof.
  intros Hstart st' new fin.
  destruct (searchIter_spec core startTime allowedTypes st)
    as (new0 & Hres & Hall & Hpos & Hneg).
  simpl in Hres, Hpos, Hneg. fold st' in Hres, Hpos, Hneg.
  assert (new = new0) as Hnew.
  { unfold new. rewrite Hres. by rewrite drop_app_length. }
  rewrite Hnew. clear Hnew new.
  set (m := fold_left Z.max (j_dep_time <$> new0) (-1)) in *.
  rewrite Forall_forall in Hall.
  split; [done|]. split; [|split; [|split]].
  - intros Hne.
    assert (m ∈ j_dep_time <$> new0) as Hin.
    { destruct new0 as [|j0 new0]; [done|].
      destruct (fold_max_in (j_dep_time <$> j0 :: new0) (-1)) as [Heq|Hin];
        [|done].
      fold m in Heq.
      assert (j_dep_time j0 ∈ j_dep_time <$> j0 :: new0) as Hj0
        by (simpl; by left).
      pose proof (fold_max_ge_elem _ (-1) _ Hj0) as Hge.
      fold m in Hge.
      destruct (Hall j0 ltac:(by left)) as (_ & ? & _). lia. }
    apply list_elem_of_fmap in Hin as (j & Hm & Hj).
    destruct (Hall j Hj) as (_ & Hdep & _).
    destruct (Hpos ltac:(lia)) as (Ht & Hn & Hb).
    split; [|done].
    exists j. split; [done|]. split; [lia|].
    intros j' Hj'. rewrite <- Hm. apply fold_max_ge_elem.
    apply list_elem_of_fmap. by exists j'.
  - intros ->. simpl in m. destruct (Hneg ltac:(unfold m; lia)) as (Ht & Hn & Hb).
    split; [done|]. split; [done|].
    rewrite Hb, Hn, andb_true_iff, Z.leb_le, Z.ltb_lt.
    split; intros [H4 Hlen]; (split; [done|]).
    + intros Hnil. rewrite Hnil in Hlen. simpl in Hlen. lia.
    + destruct (ls_results st'); [done|]. simpl. lia.
  - destruct (collectJourneys_exits core startTime limit allowedTypes)
      as [Hguard|Hbroke]; fold fin in Hguard || fold fin in Hbroke.
    + unfold loopGuard, maxT in Hguard.
      apply andb_false_iff in Hguard as [Hlen|Ht].
      * left. apply Z.ltb_ge in Hlen. done.
      * right. left. apply Z.leb_gt in Ht. done.
    + right. right.
      apply (searchLoop_broke core startTime limit allowedTypes
               (searchFuel limit) (searchStart startTime)); [done|].
      exact Hbroke.
  - exact (collectJourneys_first_stop core startTime limit allowedTypes
             Hstart).
Qed.

(** A turn of the enumeration on the two-leg timetable, and the whole run:
    the first turn finds the journey, the next four are empty advances,
    and the loop is left after the fifth turn. *)
Lemma C5_enumeration_witness :
  0 <= 0 ∧
  let core := fun t => raptorCore ∅ isoMonth fallbackType
                         ["SNCF:O"] (Some ["SNCF:D"]) t
                         (buildStopToTrips twoLegTrips) "" in
  let st' := searchIter core 0 None (searchStart 0) in
  ls_results st' =
    ls_results (searchStart 0)
    ++ drop (length (ls_results (searchStart 0))) (ls_results st').
Proof.
  split; [lia|].
  exact (proj1 (C5_enumeration_advance
                  (fun t => raptorCore ∅ isoMonth fallbackType
                              ["SNCF:O"] (Some ["SNCF:D"]) t
                              (buildStopToTrips twoLegTrips) "")
                  0 8 None (searchStart 0) ltac:(lia))).
Defined.

Example enumeration_next_start :
  let core := fun t => raptorCore ∅ isoMonth fallbackType
                         ["SNCF:O"] (Some ["SNCF:D"]) t
                         (buildStopToTrips twoLegTrips) "" in
  ls_t (searchIter core 0 None (searchStart 0)) = 25201.
Proof. vm_compute. reflexivity. Qed.

Example enumeration_stops_after_four_empty :
  let core := fun t => raptorCore ∅ isoMonth fallbackType
                         ["SNCF:O"] (Some ["SNCF:D"]) t
                         (buildStopToTrips twoLegTrips) "" in
  collectJourneys core 0 8 None = turnsOf core 0 None 5
  ∧ ls_results (turnsOf core 0 None 5) = [twoLegJourney]
  ∧ ls_t (turnsOf core 0 None 5) = 25201 + 4 * 1800.
Proof. vm_compute. repeat split; reflexivity. Qed.

Section DedupeComplete.
Variable cityKey : string → string.

(** Every journey given to [dedupeByArrCity] is represented in what it
    returns: a journey with its key and a duration not larger is kept. *)
Lemma dedupeByArrCity_complete (results : list Journey) (j' : Journey) :
  j' ∈ results →
  ∃ j, j ∈ dedupeByArrCity cityKey results
       ∧ dedupeKey cityKey j = dedupeKey cityKey j'
       ∧ j_duration j <= j_duration j'.
Proof.
  intros Hj'. unfold dedupeByArrCity.
  assert (dedupeInv cityKey [] []) as H0.
  { split; [constructor|]. split.
    - intros k j Hin. by apply elem_of_nil in Hin.
    - intros j0 Hin. by apply elem_of_nil in Hin. }
  pose proof (dedupe_fold_inv cityKey results [] [] H0) as (Hnd & Hkeys & Hmin).
  simpl in *. destruct (Hmin j' Hj') as (j & Hget & Hle).
  apply oget_Some_elem in Hget. exists j. split; [|split; [|done]].
  - apply list_elem_of_fmap. by exists (dedupeKey cityKey j', j).
  - by destruct (Hkeys _ _ Hget).
Qed.

Lemma slice0_keeps_or_full {A : Type} (n : Z) (l : list A) (x : A) :
  0 <= n → x ∈ l →
  x ∈ Js.slice0 n l ∨ Z.of_nat (length (Js.slice0 n l)) = n.
Proof.
  intros Hn Hx. unfold Js.slice0.
  destruct (Z.leb_spec 0 n) as [_|?]; [|lia].
  destruct (decide (length l <= Z.to_nat n)%nat) as [Hle|Hgt].
  - left. by rewrite take_ge.
  - right. rewrite length_take. lia.
Qed.

End DedupeComplete.

(** C6. In the list returned by [searchJourneys] no two journeys share the
    same departure time and the same arrival city key, and a returned
    journey has the smallest duration among the collected journeys that
    share its departure time and arrival city key.  A journey is kept for
    every such pair: the deduplication ([kept]) holds, for each collected
    journey, one journey with the same pair and a duration not larger, and
    only one per pair; the returned list is made of the first [limit]
    journeys kept, in the order of the results, so a pair is absent from
    it only when the list is full. *)
Theorem C6_city_dedup
        (transferIndex : gmap string (list RawTransfer))
        (stopsIndex : list Station)
        (utcMonth : string → option Z) (normCity : string → string)
        (detectUnstored : string → string → string → string → string)
        (originIds destIds : list string) (startTime : Z)
        (stt : gmap string (list TripRef)) (limit : Z) (dateISO : string)
        (allowedTypes : option (list string)) :
  let key := dedupeKey (cityKeyOfStop stopsIndex normCity) in
  let collected :=
    ls_results
      (collectJourneys
         (fun t => raptorCore transferIndex utcMonth detectUnstored
                     originIds (Some destIds) t stt dateISO)
         startTime limit allowedTypes) in
  let kept :=
    dedupeByArrCity (cityKeyOfStop stopsIndex normCity)
                    (stable_sort journeyLeb collected) in
  let out := searchJourneys transferIndex stopsIndex utcMonth normCity
               detectUnstored originIds destIds startTime stt limit dateISO
               allowedTypes in
  NoDup (key <$> out)
  ∧ Forall (fun j =>
              j ∈ collected
              ∧ Forall (fun j' => key j' = key j →
                                  j_duration j <= j_duration j')
                       collected)
           out
  ∧ (∀ j', j' ∈ collected →
           ∃ j, j ∈ kept ∧ key j = key j' ∧ j_duration j <= j_duration j')
  ∧ NoDup (key <$> kept)
  ∧ (∀ j, j ∈ kept → j ∈ collected)
  ∧ out = Js.slice0 limit (stable_sort journeyLeb kept)
  ∧ (∀ j', j' ∈ collected →
           (∃ j, j ∈ out ∧ key j = key j' ∧ j_duration j <= j_duration j')
           ∨ Z.of_nat (length out) = limit).
Proof.
  intros key collected kept out.
  destruct (finishSearch_spec (cityKeyOfStop stopsIndex normCity) limit
              collected) as [Hnd Hmin].
  destruct (dedupeByArrCity_spec (cityKeyOfStop stopsIndex normCity)
              (stable_sort journeyLeb collected)) as [Hndk Hmink].
  fold kept in Hndk, Hmink. fold key in Hndk.
  assert (∀ j', j' ∈ collected →
            ∃ j, j ∈ kept ∧ key j = key j' ∧ j_duration j <= j_duration j')
    as Hkept.
  { intros j' Hj'.
    apply (dedupeByArrCity_complete (cityKeyOfStop stopsIndex normCity)
             (stable_sort journeyLeb collected) j').
    by apply stable_sort_elem. }
  assert (out = Js.slice0 limit (stable_sort journeyLeb kept)) as Hout by done.
  split; [exact Hnd|]. split.
  { apply Forall_forall. intros j Hj. destruct (Hmin j Hj) as [Hin Hle].
    split; [done|]. apply Forall_forall. intros j' Hj'. by apply Hle. }
  split; [exact Hkept|]. split; [exact Hndk|]. split.
  { intros j Hj. destruct (Hmink j Hj) as [Hin _].
    by apply stable_sort_elem in Hin. }
  split; [exact Hout|].
  intros j' Hj'.
  assert (0 < limit) as Hlim.
  { destruct (Z.lt_ge_cases 0 limit) as [?|Hle]; [done|]. exfalso.
    unfold collected, collectJourneys in Hj'.
    rewrite searchLoop_length in Hj' by done.
    by apply elem_of_nil in Hj'. }
  destruct (Hkept j' Hj') as (j & Hj & Hk & Hd).
  assert (j ∈ stable_sort journeyLeb kept) as Hs by by apply stable_sort_elem.
  rewrite Hout.
  destruct (slice0_keeps_or_full limit _ j ltac:(lia) Hs) as [Hin|Hfull];
    [left|by right].
  by exists j.
Qed.

(* ===================================================================== *)
(** * Monotonicity of the trip scans in the start time *)
(* ===================================================================== *)

Lemma tau_le_refl (τ : gmap string Z) : tau_le τ τ.
Proof. intros x b Hb. exists b. split; [done|lia]. Qed.

Lemma tau_le_trans (τ1 τ2 τ3 : gmap string Z) :
  tau_le τ1 τ2 → tau_le τ2 τ3 → tau_le τ1 τ3.
Proof.
  intros H12 H23 x c Hc. destruct (H23 x c Hc) as (b & Hb & Hbc).
  destruct (H12 x b Hb) as (a & Ha & Hab). exists a. split; [done|lia].
Qed.

Section ScanMonotone.
Variable utcMonth : string → option Z.

(** Relaxing an arrival only lowers labels ... *)
Lemma relaxArrival_le trip routeId bs bd sid arr (s : ScanState) :
  tau_le (tauBest (relaxArrival trip routeId bs bd sid arr s)) (tauBest s).
Proof.
  unfold relaxArrival. destruct (tauBest s !! sid) as [old|] eqn:Hold; simpl.
  - destruct (Z.ltb_spec arr old); [|apply tau_le_refl]. simpl.
    intros x b Hb. destruct (decide (sid = x)) as [->|Hne].
    + rewrite lookup_insert_eq. exists arr. split; [done|].
      rewrite Hold in Hb. injection Hb as <-. lia.
    + rewrite lookup_insert_ne by done. exists b. split; [done|lia].
  - intros x b Hb. destruct (decide (sid = x)) as [->|Hne].
    + congruence.
    + rewrite lookup_insert_ne by done. exists b. split; [done|lia].
Qed.

(** ... and keeps two label maps ordered. *)
Lemma relaxArrival_mono trip routeId bs1 bd1 bs2 bd2 sid arr
      (s1 s2 : ScanState) :
  tau_le (tauBest s1) (tauBest s2) →
  tau_le (tauBest (relaxArrival trip routeId bs1 bd1 sid arr s1))
         (tauBest (relaxArrival trip routeId bs2 bd2 sid arr s2)).
Proof.
  intros Hle.
  assert (∀ x b,
            tauBest (relaxArrival trip routeId bs2 bd2 sid arr s2) !! x = Some b →
            (x = sid ∧ b = arr ∧ Js.lt_inf arr (tauBest s2 !! sid) = true)
            ∨ tauBest s2 !! x = Some b) as Hcases.
  { intros x b. unfold relaxArrival.
    destruct (Js.lt_inf arr (tauBest s2 !! sid)) eqn:Hlt; simpl; [|by right].
    destruct (decide (sid = x)) as [->|Hne].
    - rewrite lookup_insert_eq. intros [= <-]. by left.
    - rewrite lookup_insert_ne by done. by right. }
  intros x b Hb. destruct (Hcases x b Hb) as [(-> & -> & Hlt)|Hold].
  - unfold relaxArrival.
    destruct (Js.lt_inf arr (tauBest s1 !! sid)) eqn:Hlt1; simpl.
    + rewrite lookup_insert_eq. exists arr. split; [done|lia].
    + destruct (tauBest s1 !! sid) as [a|] eqn:Ha; simpl in Hlt1; [|done].
      exists a. split; [done|]. apply Z.ltb_ge in Hlt1. lia.
  - destruct (Hle x b Hold) as (a & Ha & Hab).
    destruct (relaxArrival_le trip routeId bs1 bd1 sid arr s1 x a Ha)
      as (a' & Ha' & Hle').
    exists a'. split; [done|lia].
Qed.

Lemma scanFrom_mono trip routeId dateISO (sts : list StopTime)
      (b1 b2 : option (string * Z)) (s1 s2 : ScanState) :
  tau_le (tauBest s1) (tauBest s2) →
  (is_Some b2 → is_Some b1) →
  tau_le (tauBest (scanFrom utcMonth trip routeId dateISO sts b1 s1))
         (tauBest (scanFrom utcMonth trip routeId dateISO sts b2 s2)).
Proof.
  revert b1 b2 s1 s2.
  induction sts as [|st rest IH]; intros b1 b2 s1 s2 Hle Hb; simpl; [done|].
  destruct b2 as [[bs2 bd2]|].
  - (* both runs are on board *)
    destruct (Hb ltac:(eauto)) as [[bs1 bd1] ->].
    destruct (readArr utcMonth trip st dateISO) as [arr|].
    + apply IH; [by apply relaxArrival_mono|eauto].
    + apply IH; [done|eauto].
  - destruct b1 as [[bs1 bd1]|].
    + (* only the run with the earlier labels is on board *)
      destruct (readArr utcMonth trip st dateISO) as [arr|].
      * apply IH; [|eauto].
        eapply tau_le_trans; [apply relaxArrival_le|done].
      * apply IH; [done|eauto].
    + (* neither is: the later labels board only if the earlier ones do *)
      apply IH; [done|].
      destruct (tauBest s2 !! stop_id st) as [tau2|] eqn:H2;
        [|by intros [? ?]].
      destruct (Hle _ _ H2) as (tau1 & -> & H12).
      destruct (readDep utcMonth trip st dateISO) as [dep|]; [|done].
      destruct (Z.leb_spec tau2 dep); [|by intros [? ?]].
      intros _. destruct (Z.leb_spec tau1 dep); [eauto|lia].
Qed.

Lemma scanTrip_mono trip idx routeId dateISO (s1 s2 : ScanState) :
  tau_le (tauBest s1) (tauBest s2) →
  tau_le (tauBest (scanTrip utcMonth trip idx s1 routeId dateISO))
         (tauBest (scanTrip utcMonth trip idx s2 routeId dateISO)).
Proof. intros Hle. apply scanFrom_mono; [done|by intros [? ?]]. Qed.

Lemma scanStop_mono stt dateISO stop (s1 s2 : ScanState) :
  tau_le (tauBest s1) (tauBest s2) →
  tau_le (tauBest (scanStop utcMonth stt dateISO s1 stop))
         (tauBest (scanStop utcMonth stt dateISO s2 stop)).
Proof.
  unfold scanStop. generalize (default [] (stt !! stop)). intros refs.
  revert s1 s2. induction refs as [|r refs IH]; intros s1 s2 Hle; simpl;
    [done|].
  by apply IH, scanTrip_mono.
Qed.

Lemma scanMarked_mono stt dateISO marked (s1 s2 : ScanState) :
  tau_le (tauBest s1) (tauBest s2) →
  tau_le (tauBest (scanMarked utcMonth stt dateISO marked s1))
         (tauBest (scanMarked utcMonth stt dateISO marked s2)).
Proof.
  revert s1 s2. induction marked as [|stop marked IH]; intros s1 s2 Hle;
    simpl; [done|].
  by apply IH, scanStop_mono.
Qed.

End ScanMonotone.

(** ** Initialisation commutes with a shift of the start time *)

Section InitShift.
Variable transferIndex : gmap string (list RawTransfer).
Variable δ : Z.

Lemma lt_inf_shift (t : Z) (τ : gmap string Z) (x : string) :
  Js.lt_inf (t + δ) (((fun v => v + δ) <$> τ) !! x) = Js.lt_inf t (τ !! x).
Proof.
  rewrite lookup_fmap. destruct (τ !! x) as [v|]; simpl; [|done].
  destruct (Z.ltb_spec (t + δ) (v + δ)), (Z.ltb_spec t v); (done || lia).
Qed.

Lemma seedSister_shift t oid e (c c' : CoreState) :
  shiftedCore δ c c' →
  shiftedCore δ (seedSister t oid c e) (seedSister (t + δ) oid c' e).
Proof.
  intros (Htau & Hmarked & Horigin). unfold seedSister.
  replace (t + δ + transferTime oid e) with (t + transferTime oid e + δ)
    by lia.
  rewrite Htau, lt_inf_shift.
  destruct (Js.lt_inf _ _), (negb _); simpl; unfold shiftedCore; simpl;
    rewrite ?fmap_insert, ?Hmarked, ?Horigin; done.
Qed.

Lemma seedSisters_shift t oid entries (c c' : CoreState) :
  shiftedCore δ c c' →
  shiftedCore δ (fold_left (seedSister t oid) entries c)
                (fold_left (seedSister (t + δ) oid) entries c').
Proof.
  revert c c'. induction entries as [|e entries IH]; intros c c' Hs; simpl;
    [done|].
  by apply IH, seedSister_shift.
Qed.

Lemma seedOrigin_shift t oid (c c' : CoreState) :
  shiftedCore δ c c' →
  shiftedCore δ (seedOrigin transferIndex t c oid)
                (seedOrigin transferIndex (t + δ) c' oid).
Proof.
  intros (Htau & Hmarked & Horigin). unfold seedOrigin.
  apply seedSisters_shift.
  assert (Js.inf_gt (cs_tau_best c' !! oid) (t + δ)
          = Js.inf_gt (cs_tau_best c !! oid) t) as ->.
  { rewrite Htau. exact (lt_inf_shift t (cs_tau_best c) oid). }
  destruct (Js.inf_gt _ _); unfold shiftedCore; simpl;
    rewrite ?fmap_insert, ?Htau, ?Hmarked, ?Horigin; done.
Qed.

Lemma raptorInit_shift originIds t :
  shiftedCore δ (raptorInit transferIndex originIds t)
                (raptorInit transferIndex originIds (t + δ)).
Proof.
  unfold raptorInit.
  assert (shiftedCore δ (mkCore ∅ ∅ ∅ []) (mkCore ∅ ∅ ∅ [])) as H0.
  { unfold shiftedCore. simpl. by rewrite fmap_empty. }
  revert H0. generalize (mkCore ∅ ∅ ∅ []) at 1 3.
  generalize (mkCore ∅ ∅ ∅ []).
  induction originIds as [|oid originIds IH]; intros c' c Hs; simpl; [done|].
  by apply IH, seedOrigin_shift.
Qed.

End InitShift.

(** C8 (amended). For two invocations of the round-based core on the same
    timetable, date and origins that differ only in start time, the labels
    set at initialisation and the labels after the trip scans of the first
    round are ordered: at every stop the label obtained with the larger
    start time is greater than or equal to the one obtained with the
    smaller start time, a missing label counting as +Infinity. *)
Theorem C8_first_scan_monotone
        (transferIndex : gmap string (list RawTransfer))
        (utcMonth : string → option Z) (originIds : list string)
        (stt : gmap string (list TripRef)) (dateISO : string)
        (t1 t2 : Z) :
  t1 <= t2 →
  tau_le (cs_tau_best (raptorInit transferIndex originIds t1))
         (cs_tau_best (raptorInit transferIndex originIds t2))
  ∧ tau_le (firstScan transferIndex utcMonth originIds t1 stt dateISO)
           (firstScan transferIndex utcMonth originIds t2 stt dateISO).
Proof.
  intros Ht.
  destruct (raptorInit_shift transferIndex (t2 - t1) originIds t1)
    as (Htau & Hmarked & _).
  replace (t1 + (t2 - t1)) with t2 in * by lia.
  assert (tau_le (cs_tau_best (raptorInit transferIndex originIds t1))
                 (cs_tau_best (raptorInit transferIndex originIds t2)))
    as Hinit.
  { intros x b Hb. rewrite Htau, lookup_fmap in Hb.
    destruct (cs_tau_best (raptorInit transferIndex originIds t1) !! x)
      as [a|]; [|done].
    simpl in Hb. injection Hb as <-. exists a. split; [done|lia]. }
  split; [done|].
  unfold firstScan. rewrite Hmarked. by apply scanMarked_mono.
Qed.

(** On the chained timetable, first scans started at 0 and at 1000. *)
Lemma C8_first_scan_witness :
  0 <= 1000 ∧
  tau_le (firstScan chainTransfers isoMonth ["SNCF:O"] 0
            (buildStopToTrips chainTrips) "")
         (firstScan chainTransfers isoMonth ["SNCF:O"] 1000
            (buildStopToTrips chainTrips) "").
Proof.
  split; [lia|].
  exact (proj2 (C8_first_scan_monotone chainTransfers isoMonth ["SNCF:O"]
                  (buildStopToTrips chainTrips) "" 0 1000 ltac:(lia))).
Defined.

(* ===================================================================== *)
(** * Requests with unknown stop identifiers *)
(* ===================================================================== *)

Lemma set_add_elem (x y : string) (s : list string) :
  x ∈ Js.set_add y s ↔ x ∈ s ∨ x = y.
Proof.
  unfold Js.set_add. destruct (decide (y ∈ s)) as [Hin|Hnin].
  - split; [by left|]. intros [?| ->]; done.
  - rewrite elem_of_app, list_elem_of_singleton. done.
Qed.

Lemma uniq_fold_elem (x : string) (l acc : list string) :
  x ∈ fold_left (fun acc y => Js.set_add y acc) l acc ↔ x ∈ acc ∨ x ∈ l.
Proof.
  revert acc. induction l as [|y l IH]; intros acc; simpl.
  - split; [by left|]. intros [?|Hin]; [done|]. by apply elem_of_nil in Hin.
  - rewrite IH, set_add_elem, elem_of_cons. naive_solver.
Qed.

Lemma uniq_elem (x : string) (l : list string) : x ∈ uniq l ↔ x ∈ l.
Proof.
  unfold uniq. rewrite uniq_fold_elem. split; [|by right].
  intros [Hin|?]; [|done]. by apply elem_of_nil in Hin.
Qed.

(** ** The stop-to-trips index has no entry for a stop without trips *)

Lemma indexStopTimes_None routeId trip id (sts : list StopTime) :
  ∀ i index,
    (∀ st, st ∈ sts → stop_id st ≠ id) →
    index !! id = None →
    indexStopTimes routeId trip i sts index !! id = None.
Proof.
  induction sts as [|st sts IH]; intros i index Hsts Hnone; simpl; [done|].
  apply IH.
  - intros st' Hst'. apply Hsts. by right.
  - unfold pushRef. rewrite lookup_insert_ne; [done|].
    apply Hsts. by left.
Qed.

Lemma indexRoute_None route id :
  ∀ index,
    (∀ trip st, trip ∈ snd route → st ∈ stop_times trip → stop_id st ≠ id) →
    index !! id = None →
    indexRoute index route !! id = None.
Proof.
  unfold indexRoute. induction (snd route) as [|trip trips IH];
    intros index Htrips Hnone; simpl; [done|].
  apply IH.
  - intros trip' st Htrip'. apply Htrips. by right.
  - apply indexStopTimes_None; [|done].
    intros st Hst. apply (Htrips trip st); [by left|done].
Qed.

Lemma buildStopToTrips_None (tripsData : list (string * list Trip)) id :
  ¬ servedBy tripsData id → buildStopToTrips tripsData !! id = None.
Proof.
  unfold buildStopToTrips. intros Hns.
  assert (∀ index : gmap string (list TripRef),
            index !! id = None →
            fold_left indexRoute tripsData index !! id = None) as Hfold.
  { induction tripsData as [|route routes IH]; intros index Hnone; simpl;
      [done|].
    apply IH.
    - intros (r & t & st & Hr & Ht & Hst & Hid). apply Hns.
      exists r, t, st. split; [by right|done].
    - apply indexRoute_None; [|done].
      intros trip st Htrip Hst Hid. apply Hns.
      exists route, trip, st. split; [by left|done]. }
  apply Hfold, lookup_empty.
Qed.

Lemma getFilteredData_None routeTrips calendarIndex dateISO stt id :
  getFilteredData routeTrips calendarIndex dateISO = Some stt →
  ¬ servedBy routeTrips id →
  stt !! id = None.
Proof.
  intros Hstt Hns. unfold getFilteredData in Hstt.
  destruct (Js.truthy dateISO);
    [|injection Hstt as <-; by apply buildStopToTrips_None].
  destruct (Js.inherited dateISO); [done|].
  destruct (calendarIndex !! dateISO) as [active|];
    injection Hstt as <-; [|by apply buildStopToTrips_None].
  apply buildStopToTrips_None.
  intros (r & t & st & Hr & Ht & Hst & Hid). apply Hns.
  apply list_elem_of_filter in Hr as [_ Hr].
  apply list_elem_of_fmap in Hr as (r0 & -> & Hr0). simpl in Ht.
  apply list_elem_of_filter in Ht as [_ Ht].
  by exists r0, t, st.
Qed.

Lemma getFilteredData_Some routeTrips calendarIndex dateISO :
  Js.inherited dateISO = false →
  ∃ stt, getFilteredData routeTrips calendarIndex dateISO = Some stt.
Proof.
  intros Hd. unfold getFilteredData. rewrite Hd.
  destruct (Js.truthy dateISO); [|eauto].
  destruct (calendarIndex !! dateISO); eauto.
Qed.

(** ** resolveStopIds adds nothing to a list of unknown identifiers *)

Section UnknownStops.
Variable transferIndex : gmap string (list RawTransfer).
Variable stopKeys      : list string.
Variable routeTrips    : list (string * list Trip).

Lemma expandArea_unknown id out :
  (∀ sid, sid ∈ stopKeys → designates id sid = false) →
  expandArea stopKeys id out = out.
Proof.
  unfold expandArea, designates. destruct (areaMatch id) as [uic|]; [|done].
  induction stopKeys as [|sid keys IH]; intros Hkeys; simpl; [done|].
  rewrite (Hkeys sid) by (by left). apply IH.
  intros sid' Hsid'. apply Hkeys. by right.
Qed.

Lemma transferEntries_unknown id :
  transferIndex !! id = None → transferEntries transferIndex id = [].
Proof. unfold transferEntries. by intros ->. Qed.

Lemma resolveOne_fold_unknown mode inputSet ids out :
  Forall (fun id => Js.inherited id = false) ids →
  Forall (unknownStop transferIndex stopKeys routeTrips) ids →
  fold_left (resolveOne transferIndex stopKeys mode inputSet) ids (Some out)
  = Some out.
Proof.
  revert out. induction ids as [|id ids IH]; intros out Hown Hall; simpl;
    [done|].
  apply Forall_cons in Hown as [Hid Hown].
  apply Forall_cons in Hall as [(_ & Hti & _ & Harea) Hall].
  unfold transferEntriesOf. rewrite Hid.
  rewrite (transferEntries_unknown id Hti). simpl.
  rewrite (expandArea_unknown id out Harea). by apply IH.
Qed.

Lemma resolveStopIds_unknown ids mode :
  Forall (fun id => Js.inherited id = false) ids →
  Forall (unknownStop transferIndex stopKeys routeTrips) ids →
  resolveStopIds transferIndex stopKeys ids mode = Some (uniq ids).
Proof. apply resolveOne_fold_unknown. Qed.

(** An identifier that names an inherited property makes [resolveStopIds]
    throw. *)
Lemma resolveOne_fold_thrown mode inputSet ids :
  fold_left (resolveOne transferIndex stopKeys mode inputSet) ids None = None.
Proof. induction ids as [|id ids IH]; simpl; [done|apply IH]. Qed.

Lemma resolveOne_fold_inherited mode inputSet ids out id :
  id ∈ ids → Js.inherited id = true →
  fold_left (resolveOne transferIndex stopKeys mode inputSet) ids out = None.
Proof.
  revert out. induction ids as [|id0 ids IH]; intros out Hin Hinh.
  - by apply elem_of_nil in Hin.
  - simpl. destruct out as [o|]; simpl; [|apply resolveOne_fold_thrown].
    unfold transferEntriesOf.
    destruct (Js.inherited id0) eqn:H0; [apply resolveOne_fold_thrown|].
    apply elem_of_cons in Hin as [->|Hin]; [congruence|].
    by apply IH.
Qed.

Lemma resolveStopIds_inherited ids mode id :
  id ∈ ids → Js.inherited id = true →
  resolveStopIds transferIndex stopKeys ids mode = None.
Proof. apply resolveOne_fold_inherited. Qed.

(** ** The core finds nothing from origins without trips and transfers *)

Lemma seedOrigin_unknown t c oid :
  transferIndex !! oid = None →
  ∀ x, x ∈ cs_marked (seedOrigin transferIndex t c oid) →
       x ∈ cs_marked c ∨ x = oid.
Proof.
  intros Hti x. unfold seedOrigin.
  rewrite (transferEntries_unknown oid Hti). simpl.
  destruct (Js.inf_gt _ _); simpl; [|by left].
  by rewrite set_add_elem.
Qed.

Lemma raptorInit_marked_unknown originIds t :
  Forall (fun o => transferIndex !! o = None) originIds →
  ∀ x, x ∈ cs_marked (raptorInit transferIndex originIds t) → x ∈ originIds.
Proof.
  unfold raptorInit. intros Hall.
  assert (∀ c x,
            x ∈ cs_marked (fold_left (seedOrigin transferIndex t) originIds c) →
            x ∈ cs_marked c ∨ x ∈ originIds) as Hfold.
  { induction originIds as [|o os IH]; intros c x; simpl; [by left|].
    apply Forall_cons in Hall as [Ho Hall].
    intros Hx. destruct (IH Hall _ _ Hx) as [Hx'|Hx']; [|right; by right].
    destruct (seedOrigin_unknown t c o Ho x Hx') as [?| ->]; [by left|].
    right. by left. }
  intros x Hx. destruct (Hfold _ _ Hx) as [Hnil|?]; [|done].
  by apply elem_of_nil in Hnil.
Qed.

Lemma scanMarked_no_trips utcMonth (stt : gmap string (list TripRef))
      dateISO marked (s : ScanState) :
  (∀ x, x ∈ marked → stt !! x = None) →
  scanMarked utcMonth stt dateISO marked s = s.
Proof.
  revert s. induction marked as [|stop marked IH]; intros s Hm; simpl; [done|].
  assert (scanStop utcMonth stt dateISO s stop = s) as ->.
  { unfold scanStop. by rewrite (Hm stop) by (by left). }
  apply IH. intros x Hx. apply Hm. by right.
Qed.

Lemma collectDest_nothing_improved detectUnstored tau_prev tau par originSet
      (dests : list string) (results : list Journey) :
  fold_left (collectDest detectUnstored tau_prev (mkScan tau [] par) originSet)
            dests results = results.
Proof. induction dests as [|d dests IH]; simpl; [done|apply IH]. Qed.

Lemma raptorRound_no_trips utcMonth detectUnstored
      (stt : gmap string (list TripRef)) dateISO originSet dests
      (r : RoundState) :
  (∀ x, x ∈ rs_marked r → stt !! x = None) →
  raptorRound transferIndex utcMonth detectUnstored stt dateISO originSet
              (Some dests) r
  = mkRound (rs_tau_best r) (rs_parent r) [] (rs_results r) (rs_collected r).
Proof.
  intros Hm. unfold raptorRound.
  rewrite (scanMarked_no_trips utcMonth stt dateISO _ _ Hm).
  unfold relaxTransfers. cbn [tauCur fold_left tauBest parent].
  by rewrite collectDest_nothing_improved.
Qed.

Lemma raptorCore_unknown_origins utcMonth detectUnstored originIds destIds
      t (stt : gmap string (list TripRef)) dateISO :
  Forall (fun o => transferIndex !! o = None ∧ stt !! o = None) originIds →
  raptorCore transferIndex utcMonth detectUnstored originIds (Some destIds) t
             stt dateISO = [].
Proof.
  intros Hall. unfold raptorCore, MAX_ROUNDS. cbn [raptorRounds].
  rewrite raptorRound_no_trips; [done|]. cbn [rs_marked].
  intros x Hx. apply raptorInit_marked_unknown in Hx.
  - rewrite Forall_forall in Hall. by destruct (Hall x Hx).
  - eapply Forall_impl; [exact Hall|]. by intros o [? _].
Qed.

End UnknownStops.

(** ** An enumeration whose every batch is empty returns nothing *)

Lemma searchLoop_empty_core core startTime limit allowedTypes fuel st :
  (∀ t, core t = []) →
  ls_results st = [] →
  ls_results (searchLoop core startTime limit allowedTypes fuel st) = [].
Proof.
  intros Hcore. revert st. induction fuel as [|fuel IH]; intros st Hst; simpl;
    [done|].
  destruct (loopGuard _ _ _); [|done].
  assert (ls_results (searchIter core startTime allowedTypes st) = []) as Hit.
  { unfold searchIter. rewrite Hcore. simpl. by rewrite Hst. }
  destruct (ls_broke _); [done|by apply IH].
Qed.

Lemma finishSearch_nil cityKey limit : finishSearch cityKey limit [] = [].
Proof.
  unfold finishSearch, Js.slice0, dedupeByArrCity. simpl.
  destruct (0 <=? limit); by rewrite ?take_nil.
Qed.

(** A search request that names at least one origin and one destination,
    none of them (nor the date) being the name of an inherited property, is
    answered with status 200; when every origin and destination identifier
    is moreover unknown to the timetable, the answer carries an empty
    journey list. *)
Lemma handleSearch_unknown_stops
      (transferIndex : gmap string (list RawTransfer))
      (stopsIndex : list Station) (stopKeys : list string)
      (routeTrips : list (string * list Trip))
      (calendarIndex : gmap string (list string))
      (utcMonth : string → option Z) (normCity : string → string)
      (detectUnstored : string → string → string → string → string)
      (q : SearchQuery) :
  q_from q ≠ [] → q_to q ≠ [] →
  Js.inherited (q_date q) = false →
  Forall (fun id => Js.inherited id = false) (q_from q ++ q_to q) →
  Forall (unknownStop transferIndex stopKeys routeTrips) (q_from q ++ q_to q) →
  ∃ next last,
    handleSearch transferIndex stopsIndex stopKeys routeTrips calendarIndex
                 utcMonth normCity detectUnstored q
    = JsonOk 200 [] next last.
Proof.
  intros Hfrom Hto Hdate Hown Hunk. unfold handleSearch.
  destruct (q_from q) as [|f fs] eqn:Hf; [done|].
  destruct (q_to q) as [|d ds] eqn:Hd; [done|].
  apply Forall_app in Hown as [Hown_from Hown_to].
  apply Forall_app in Hunk as [Hunk_from Hunk_to].
  assert (∀ ids (P : string → Prop), Forall P ids → Forall P (uniq ids))
    as Huniq.
  { intros ids P HP. apply Forall_forall. intros x Hx.
    apply (proj1 (uniq_elem _ _)) in Hx.
    rewrite Forall_forall in HP. by apply HP. }
  destruct (getFilteredData_Some routeTrips calendarIndex (q_date q) Hdate)
    as (stt & Hstt).
  rewrite Hstt.
  rewrite !(resolveStopIds_unknown transferIndex stopKeys routeTrips)
    by (by apply Huniq).
  assert (searchJourneys transferIndex stopsIndex utcMonth normCity
            detectUnstored (uniq (uniq (f :: fs))) (uniq (uniq (d :: ds)))
            (Z.max (q_time q + q_offset q) (q_after_dep q)) stt
            (Z.min (q_limit q) 32) (q_date q) (q_train_types q) = [])
    as ->; [|eauto].
  unfold searchJourneys, searchJourneysWith, collectJourneys.
  rewrite searchLoop_empty_core; [apply finishSearch_nil| |done].
  intros t. apply raptorCore_unknown_origins.
  apply Forall_forall. intros x Hx.
  do 2 apply (proj1 (uniq_elem _ _)) in Hx.
  rewrite Forall_forall in Hunk_from.
  destruct (Hunk_from x Hx) as (_ & Hti & Hns & _).
  split; [done|]. by apply (getFilteredData_None _ _ _ _ _ Hstt).
Qed.

Lemma unknown_on_two_leg_timetable (id : string) :
  id ∉ ["SNCF:O"; "SNCF:X"; "SNCF:D"] →
  areaMatch id = None →
  unknownStop ∅ ["SNCF:O"; "SNCF:X"; "SNCF:D"] twoLegTrips id.
Proof.
  intros Hid Harea. split; [done|]. split; [apply lookup_empty|]. split.
  - intros (r & t & st & Hr & Ht & Hst & <-). apply Hid.
    unfold twoLegTrips in Hr.
    repeat (apply elem_of_cons in Hr as [->|Hr]; simpl in Ht;
            [repeat (apply elem_of_cons in Ht as [->|Ht]; simpl in Hst;
                     [repeat (apply elem_of_cons in Hst as [->|Hst];
                              [simpl; set_solver|]);
                      by apply elem_of_nil in Hst|]);
             by apply elem_of_nil in Ht|]).
    by apply elem_of_nil in Hr.
  - intros sid _. unfold designates. by rewrite Harea.
Qed.

(** A request for two identifiers that the two-leg timetable does not
    know. *)
Example unknown_request_answer :
  handleSearch ∅ [] ["SNCF:O"; "SNCF:X"; "SNCF:D"] twoLegTrips ∅
               isoMonth asciiNorm fallbackType unknownQuery
  = JsonOk 200 [] 0 28800.
Proof. vm_compute. reflexivity. Qed.

(** A stop-area identifier is expanded into the stops that carry its UIC
    code: it is an alias, not an unknown identifier. *)
Example resolve_stop_area :
  resolveStopIds ∅ ["SNCF:StopPoint:OCETGV INOUI-87686006";
                    "SNCF:StopPoint:OCETrain TER-87723197"]
                 ["SNCF:StopArea:OCE87686006"] Origin
  = Some ["SNCF:StopArea:OCE87686006";
          "SNCF:StopPoint:OCETGV INOUI-87686006"].
Proof. vm_compute. reflexivity. Qed.

(** C7. The request names one origin, [constructor], and one destination,
    [XX:nowhere].  Both are unknown to the two-leg timetable (no stop, no
    transfer list, no trip calling, no stop-area alias), yet the request is
    not answered with an empty journey list:
    [transferIndex["constructor"]] is the function inherited from
    [Object.prototype], [transferEntries] calls [.map] on it, and the
    TypeError leaves the handler before any response is written. *)
Theorem C7_inherited_name_request_throws :
  let q := mkQuery ["constructor"] ["XX:nowhere"] 28800 0 0 8 "" None in
  Forall (unknownStop ∅ ["SNCF:O"; "SNCF:X"; "SNCF:D"] twoLegTrips)
         (q_from q ++ q_to q)
  ∧ handleSearch ∅ [] ["SNCF:O"; "SNCF:X"; "SNCF:D"] twoLegTrips ∅
                 isoMonth asciiNorm fallbackType q
    = Thrown.
Proof.
  split; [|vm_compute; reflexivity].
  assert (∀ id, id ∉ ["SNCF:O"; "SNCF:X"; "SNCF:D"] → areaMatch id = None →
                unknownStop ∅ ["SNCF:O"; "SNCF:X"; "SNCF:D"] twoLegTrips id)
    as Hunknown by apply unknown_on_two_leg_timetable.
  simpl. apply Forall_cons. split; [|apply Forall_cons; split; [|constructor]].
  - apply Hunknown; [|done].
    intros Hin. repeat (apply elem_of_cons in Hin as [[=]|Hin]).
    by apply elem_of_nil in Hin.
  - apply Hunknown; [|done].
    intros Hin. repeat (apply elem_of_cons in Hin as [[=]|Hin]).
    by apply elem_of_nil in Hin.
Qed.

(* ===================================================================== *)
(** * Journeys produced by the core *)
(* ===================================================================== *)

Lemma journeyOfLegs_wf (legs : list Leg) (j : Journey) :
  journeyOfLegs legs = Some j → journeyWF j.
Proof.
  unfold journeyWF. destruct legs as [|l legs]; [done|].
  intros Hj. assert (j_legs j = l :: legs) as -> by (by injection Hj as <-).
  done.
Qed.

Lemma journeyOfLegs_legs (j : Journey) : journeyWF j → j_legs j ≠ [].
Proof. unfold journeyWF. by destruct (j_legs j). Qed.

(** A train type listed by a journey is the type of one of its legs. *)
Lemma journeyWF_train_types (j : Journey) (tt : string) :
  journeyWF j → tt ∈ j_train_types j →
  ∃ leg, leg ∈ j_legs j ∧ leg_train_type leg = tt.
Proof.
  unfold journeyWF. intros Hwf Htt.
  assert (j_train_types j
          = uniq (filter (fun tt => Js.truthy tt = true)
                         (leg_train_type <$> j_legs j))) as Htypes.
  { destruct (j_legs j) as [|l legs]; [done|]. by injection Hwf as <-. }
  rewrite Htypes in Htt. apply (proj1 (uniq_elem _ _)) in Htt.
  apply list_elem_of_filter in Htt as [_ Htt].
  apply list_elem_of_fmap in Htt as (leg & -> & Hleg). by exists leg.
Qed.

Section CoreJourneys.
Variable transferIndex  : gmap string (list RawTransfer).
Variable utcMonth       : string → option Z.
Variable detectUnstored : string → string → string → string → string.

Lemma reconstructJourney_wf par originSet destId j :
  reconstructJourney detectUnstored par originSet destId = Some j →
  journeyWF j.
Proof.
  unfold reconstructJourney. destruct (walkBack _ _ _ _ _ _ _); [|done].
  apply journeyOfLegs_wf.
Qed.

Lemma collectDest_wf tau_prev s originSet dests results :
  Forall journeyWF results →
  Forall journeyWF
    (fold_left (collectDest detectUnstored tau_prev s originSet) dests results).
Proof.
  revert results. induction dests as [|d dests IH]; intros results Hwf; simpl;
    [done|].
  apply IH. unfold collectDest.
  destruct (oget d (tauCur s)); [|done].
  destruct (Js.lt_inf _ _); [|done].
  destruct (reconstructJourney _ _ _ _) as [j|] eqn:Hj; [|done].
  destruct (existsb _ _); [done|].
  apply Forall_app. split; [done|].
  apply Forall_singleton. by eapply reconstructJourney_wf.
Qed.

Lemma collectAny_wf tau_prev s originSet entries acc :
  Forall journeyWF acc.1 →
  Forall journeyWF
    (fold_left (collectAny detectUnstored tau_prev s originSet) entries acc).1.
Proof.
  revert acc. induction entries as [|[sid a] entries IH];
    intros [results collected] Hwf; simpl; [done|].
  apply IH. simpl in Hwf.
  destruct (decide _); [done|].
  destruct (oget sid (tauCur s)); [|done].
  destruct (Js.lt_inf _ _); [|done].
  destruct (reconstructJourney _ _ _ _) as [j|] eqn:Hj; [|done].
  simpl. apply Forall_app. split; [done|].
  apply Forall_singleton. by eapply reconstructJourney_wf.
Qed.

Lemma raptorRound_wf stt dateISO originSet destIds (r : RoundState) :
  Forall journeyWF (rs_results r) →
  Forall journeyWF
    (rs_results (raptorRound transferIndex utcMonth detectUnstored stt
                   dateISO originSet destIds r)).
Proof.
  intros Hwf. unfold raptorRound.
  destruct (relaxTransfers _ _ _) as [s2 newMarked].
  destruct destIds as [dests|].
  - simpl. by apply collectDest_wf.
  - pose proof (collectAny_wf (rs_tau_best r) s2 originSet (tauCur s2)
                  (rs_results r, rs_collected r) Hwf) as Hany.
    destruct (fold_left _ _ _) as [results collected]. done.
Qed.

Lemma raptorRounds_wf rounds stt dateISO originSet destIds (r : RoundState) :
  Forall journeyWF (rs_results r) →
  Forall journeyWF
    (rs_results (raptorRounds transferIndex utcMonth detectUnstored rounds
                   stt dateISO originSet destIds r)).
Proof.
  revert r. induction rounds as [|rounds IH]; intros r Hwf; [done|].
  cbn [raptorRounds].
  pose proof (raptorRound_wf stt dateISO originSet destIds r Hwf) as Hr.
  destruct (rs_marked _); [done|by apply IH].
Qed.

(** Every journey returned by the core has the aggregates of its legs. *)
Lemma raptorCore_wf originIds destIds startTime stt dateISO :
  Forall journeyWF
    (raptorCore transferIndex utcMonth detectUnstored originIds destIds
                startTime stt dateISO).
Proof. unfold raptorCore. apply raptorRounds_wf. constructor. Qed.

End CoreJourneys.

(** ** The back-walk of reconstructJourney never runs out of fuel *)

Lemma walkBack_fuel_enough detectUnstored (par : gmap string ParentEntry)
      (originSet : gset string) :
  ∀ (fuel1 fuel2 : nat) (current : string) (visited : gset string)
    (legs : list Leg),
    visited ⊆ dom par →
    (size par - size visited < fuel1)%nat →
    (size par - size visited < fuel2)%nat →
    walkBack detectUnstored fuel1 par originSet current visited legs
    = walkBack detectUnstored fuel2 par originSet current visited legs.
Proof.
  induction fuel1 as [|fuel1 IH]; intros fuel2 current visited legs Hsub H1 H2;
    [lia|].
  destruct fuel2 as [|fuel2]; [lia|]. simpl.
  destruct (decide (current ∈ originSet)); [done|].
  destruct (decide (current ∈ visited)) as [|Hnew]; [done|].
  destruct (par !! current) as [p|] eqn:Hp; [|done].
  assert ({[current]} ∪ visited ⊆ dom par) as Hsub'.
  { apply union_subseteq. split; [|done].
    apply singleton_subseteq_l, elem_of_dom. eauto. }
  assert (size ({[current]} ∪ visited) = S (size visited)) as Hsize.
  { rewrite size_union by set_solver. by rewrite size_singleton. }
  pose proof (subseteq_size _ _ Hsub') as Hle.
  rewrite size_dom, Hsize in Hle.
  destruct p; apply IH; (done || lia).
Qed.

(* ===================================================================== *)
(** * The train-type filter *)
(* ===================================================================== *)

(** C1 (amended). With an allow-set [S], every journey returned by
    [searchJourneys] has at least one leg whose train type lies in [S] (the
    filter keeps a journey as soon as its train types meet [S]; it does not
    require all of them to lie in [S]). *)
Theorem C1_filter_keeps_intersecting_journeys
        (transferIndex : gmap string (list RawTransfer))
        (stopsIndex : list Station)
        (utcMonth : string → option Z) (normCity : string → string)
        (detectUnstored : string → string → string → string → string)
        (originIds destIds : list string) (startTime : Z)
        (stt : gmap string (list TripRef)) (limit : Z) (dateISO : string)
        (S : list string) :
  Forall (fun j => ∃ leg, leg ∈ j_legs j ∧ leg_train_type leg ∈ S)
         (searchJourneys transferIndex stopsIndex utcMonth normCity
            detectUnstored originIds destIds startTime stt limit dateISO
            (Some S)).
Proof.
  unfold searchJourneys, searchJourneysWith.
  apply Forall_forall. intros j Hj.
  apply finishSearch_spec in Hj as [Hj _].
  pose proof (collectJourneys_accepted
                (fun t => raptorCore transferIndex utcMonth detectUnstored
                            originIds (Some destIds) t stt dateISO)
                startTime limit (Some S)) as Hacc.
  rewrite Forall_forall in Hacc.
  destruct (Hacc j Hj) as ((t & Hcore) & _ & Hpass).
  simpl in Hpass. apply existsb_exists in Hpass as (tt & Htt & Hin).
  apply list_elem_of_In in Htt. apply bool_decide_eq_true in Hin.
  pose proof (raptorCore_wf transferIndex utcMonth detectUnstored originIds
                (Some destIds) t stt dateISO) as Hwf.
  rewrite Forall_forall in Hwf.
  destruct (journeyWF_train_types j tt (Hwf j Hcore) Htt) as (leg & Hleg & <-).
  by exists leg.
Qed.

(** ** The five-round cap also breaks monotonicity, without any transfer *)

Example round_cap_breaks_monotonicity :
  let run start :=
    raptorCore ∅ isoMonth fallbackType ["SNCF:O"] (Some ["SNCF:D"]) start
               (buildStopToTrips capTrips) "" in
  bestArrivalAt "SNCF:D" (run 0) = Some 10000 ∧
  bestArrivalAt "SNCF:D" (run 20) = Some 1000.
Proof. vm_compute. split; reflexivity. Qed.

Corollary reconstructJourney_fuel detectUnstored
          (par : gmap string ParentEntry) (originSet : gset string)
          (destId : string) (fuel : nat) :
  (size par < fuel)%nat →
  walkBack detectUnstored fuel par originSet destId ∅ []
  = walkBack detectUnstored (S (size par)) par originSet destId ∅ [].
Proof.
  intros Hfuel. apply walkBack_fuel_enough; [set_solver| |];
    rewrite size_empty; lia.
Qed.

(* ===================================================================== *)
(** * The scenarios of the specification, run on the model *)
(* ===================================================================== *)

(** Clock shift: the 11:00 departure from Milano is offered at 13:00 in
    June and at 12:00 in November. *)
Example scenario_ti_timezone :
  let search date :=
    j_dep_time <$>
      searchJourneys ∅ [] isoMonth asciiNorm fallbackType
        ["TI:S01700"] ["TI:S08727"] 43200
        (buildStopToTrips milanoTrips) 8 date None in
  search "2025-06-15" = [46800] ∧ search "2025-11-15" = [43200].
Proof. vm_compute. split; reflexivity. Qed.

(** Transfer categories: from 08:00 neither the 08:02 trip at B (reached at
    08:03) nor the 08:44 trip at C (reached at 08:45) can be boarded; from
    07:00 both are. *)
Example scenario_transfer_category :
  let run start :=
    leg_trip_id <$>
      (raptorCore categoryTransfers isoMonth fallbackType ["SNCF:A"]
                  (Some ["SNCF:D1"; "SNCF:D2"]) start
                  (buildStopToTrips categoryTrips) "" ≫= j_legs) in
  run 28800 = [] ∧ run 25200 = ["SNCF:T1"; "SNCF:T2"].
Proof. vm_compute. split; reflexivity. Qed.

(** City deduplication: of two arrivals in Lyon for the same departure, the
    shorter journey is kept. *)
Example scenario_city_dedup :
  finishSearch (cityKeyOfStop lyonStations asciiNorm) 8
               [toPartDieu; toPerrache] = [toPartDieu]
  ∧ finishSearch (cityKeyOfStop lyonStations asciiNorm) 8
                 [toPerrache; toPartDieu] = [toPartDieu].
Proof. vm_compute. split; reflexivity. Qed.

(** Final order: transfers, then duration, then departure time. *)
Example scenario_pareto_order :
  stable_sort journeyLeb
    [sketch 1 120 25200; sketch 0 150 25500; sketch 1 115 28800]
  = [sketch 0 150 25500; sketch 1 115 28800; sketch 1 120 25200].
Proof. vm_compute. reflexivity. Qed.

(* ===================================================================== *)
(** * Initialisation: neighbours of the origins *)
(* ===================================================================== *)

Section InitNeighbours.
Variable transferIndex : gmap string (list RawTransfer).
Variable startTime : Z.

Lemma seedSister_le oid (c : CoreState) (e : TransferEntry) :
  tau_le (cs_tau_best (seedSister startTime oid c e)) (cs_tau_best c).
Proof.
  unfold seedSister.
  assert (tau_le
            (cs_tau_best
               (if Js.lt_inf (startTime + transferTime oid e)
                             (cs_tau_best c !! te_id e)
                then mkCore (<[te_id e := startTime + transferTime oid e]>
                               (cs_tau_best c))
                            (<[te_id e := Walk oid startTime
                                            (startTime + transferTime oid e)]>
                               (cs_parent c))
                            (cs_originSet c)
                            (Js.set_add (te_id e) (cs_marked c))
                else c))
            (cs_tau_best c)) as Hle.
  { destruct (cs_tau_best c !! te_id e) as [old|] eqn:Hold; simpl.
    - destruct (Z.ltb_spec (startTime + transferTime oid e) old);
        [|apply tau_le_refl].
      simpl. intros x b Hb. destruct (decide (te_id e = x)) as [<-|Hne].
      + rewrite lookup_insert_eq. eexists. split; [done|].
        rewrite Hold in Hb. injection Hb as <-. lia.
      + rewrite lookup_insert_ne by done. exists b. split; [done|lia].
    - intros x b Hb. destruct (decide (te_id e = x)) as [<-|Hne];
        [congruence|].
      rewrite lookup_insert_ne by done. exists b. split; [done|lia]. }
  by destruct (negb (te_interCity e)).
Qed.

Lemma seedSisters_le oid entries (c : CoreState) :
  tau_le (cs_tau_best (fold_left (seedSister startTime oid) entries c))
         (cs_tau_best c).
Proof.
  revert c. induction entries as [|e entries IH]; intros c; simpl;
    [apply tau_le_refl|].
  eapply tau_le_trans; [apply IH|apply seedSister_le].
Qed.

Lemma seedOrigin_le (c : CoreState) oid :
  tau_le (cs_tau_best (seedOrigin transferIndex startTime c oid))
         (cs_tau_best c).
Proof.
  unfold seedOrigin. eapply tau_le_trans; [apply seedSisters_le|]. simpl.
  destruct (cs_tau_best c !! oid) as [old|] eqn:Hold; simpl.
  - destruct (Z.ltb_spec startTime old); [|apply tau_le_refl]. simpl.
    intros x b Hb. destruct (decide (oid = x)) as [<-|Hne].
    + rewrite lookup_insert_eq. eexists. split; [done|].
      rewrite Hold in Hb. injection Hb as <-. lia.
    + rewrite lookup_insert_ne by done. exists b. split; [done|lia].
  - intros x b Hb. destruct (decide (oid = x)) as [<-|Hne]; [congruence|].
    rewrite lookup_insert_ne by done. exists b. split; [done|lia].
Qed.

Lemma seedOrigins_le originIds (c : CoreState) :
  tau_le (cs_tau_best (fold_left (seedOrigin transferIndex startTime)
                                 originIds c))
         (cs_tau_best c).
Proof.
  revert c. induction originIds as [|o os IH]; intros c; simpl;
    [apply tau_le_refl|].
  eapply tau_le_trans; [apply IH|apply seedOrigin_le].
Qed.

Lemma seedSister_reached oid (c : CoreState) (e : TransferEntry) :
  ∃ a, cs_tau_best (seedSister startTime oid c e) !! te_id e = Some a
       ∧ a <= startTime + transferTime oid e.
Proof.
  unfold seedSister.
  destruct (cs_tau_best c !! te_id e) as [old|] eqn:Hold; simpl.
  - destruct (Z.ltb_spec (startTime + transferTime oid e) old).
    + destruct (negb _); simpl; rewrite lookup_insert_eq; eexists;
        (split; [done|lia]).
    + destruct (negb _); simpl; rewrite Hold; eexists; (split; [done|lia]).
  - destruct (negb _); simpl; rewrite lookup_insert_eq; eexists;
      (split; [done|lia]).
Qed.

(** After initialisation every transfer neighbour of an origin is
    reachable, no later than the start time plus the transfer time of the
    edge. *)
Lemma raptorInit_seeds_neighbours originIds oid (e : TransferEntry) :
  oid ∈ originIds → e ∈ transferEntries transferIndex oid →
  ∃ a, cs_tau_best (raptorInit transferIndex originIds startTime) !! te_id e
       = Some a
       ∧ a <= startTime + transferTime oid e.
Proof.
  intros Ho He. unfold raptorInit.
  apply list_elem_of_split in Ho as (os1 & os2 & ->).
  rewrite fold_left_app. simpl.
  set (c1 := fold_left (seedOrigin transferIndex startTime) os1
                       (mkCore ∅ ∅ ∅ [])).
  assert (∃ a, cs_tau_best (seedOrigin transferIndex startTime c1 oid)
                 !! te_id e = Some a
               ∧ a <= startTime + transferTime oid e) as (a & Ha & Hle).
  { unfold seedOrigin.
    apply list_elem_of_split in He as (es1 & es2 & ->).
    rewrite fold_left_app. simpl.
    match goal with
    | |- context [seedSister startTime oid ?c e] =>
        destruct (seedSister_reached oid c e) as (a & Ha & Hle);
        destruct (seedSisters_le oid es2 (seedSister startTime oid c e)
                    _ _ Ha) as (a' & Ha' & Hle')
    end.
    exists a'. split; [done|lia]. }
  destruct (seedOrigins_le os2 _ _ _ Ha) as (a' & Ha' & Hle').
  exists a'. split; [done|lia].
Qed.

(** A stop is put in the origin set only as an origin or as the end of an
    edge that is not tagged inter-city. *)
Lemma raptorInit_originSet originIds (x : string) :
  x ∈ cs_originSet (raptorInit transferIndex originIds startTime) →
  x ∈ originIds
  ∨ ∃ oid e, oid ∈ originIds ∧ e ∈ transferEntries transferIndex oid
             ∧ te_id e = x ∧ te_interCity e = false.
Proof.
  unfold raptorInit.
  assert (∀ oid entries c,
            x ∈ cs_originSet (fold_left (seedSister startTime oid) entries c) →
            x ∈ cs_originSet c
            ∨ ∃ e, e ∈ entries ∧ te_id e = x ∧ te_interCity e = false)
    as Hsisters.
  { intros oid entries. induction entries as [|e entries IH]; intros c Hx;
      simpl in Hx; [by left|].
    destruct (IH _ Hx) as [Hc|(e' & He' & ? & ?)].
    - unfold seedSister in Hc.
      destruct (te_interCity e) eqn:Hic; simpl in Hc.
      + left. by destruct (Js.lt_inf _ _).
      + apply elem_of_union in Hc as [Hc|Hc].
        * apply elem_of_singleton in Hc. right. exists e.
          split; [by left|done].
        * left. by destruct (Js.lt_inf _ _).
    - right. exists e'. split; [by right|done]. }
  assert (∀ os c,
            x ∈ cs_originSet (fold_left (seedOrigin transferIndex startTime)
                                        os c) →
            x ∈ cs_originSet c ∨ x ∈ os
            ∨ ∃ oid e, oid ∈ os ∧ e ∈ transferEntries transferIndex oid
                       ∧ te_id e = x ∧ te_interCity e = false) as Horigins.
  { induction os as [|o os IH]; intros c Hx; simpl in Hx; [by left|].
    destruct (IH _ Hx) as [Hc|[Hos|(oid & e & ? & ? & ? & ?)]].
    - unfold seedOrigin in Hc.
      destruct (Hsisters _ _ _ Hc) as [Hc'|(e & ? & ? & ?)].
      + simpl in Hc'. apply elem_of_union in Hc' as [Hc'|Hc'].
        * apply elem_of_singleton in Hc' as ->. right. left. by left.
        * left. by destruct (Js.inf_gt _ _).
      + right. right. exists o, e. split; [by left|done].
    - right. left. by right.
    - right. right. exists oid, e. split; [by right|done]. }
  intros Hx. destruct (Horigins _ _ Hx) as [Hnil|[?|?]]; [|by left|by right].
  simpl in Hnil. by apply elem_of_empty in Hnil.
Qed.

End InitNeighbours.

(** The transfers of a journey are its legs minus one: the walks that
    [reconstructJourney] goes through are not counted. *)
Lemma journeyWF_transfers (j : Journey) :
  journeyWF j → j_transfers j = Z.of_nat (length (j_legs j)) - 1.
Proof.
  unfold journeyWF. destruct (j_legs j) as [|l legs] eqn:Hlegs; [done|].
  intros Hj. by injection Hj as <-.
Qed.

(* ===================================================================== *)
(** * The stop-to-trips index *)
(* ===================================================================== *)

Lemma refsAt_pushRef index sid0 r0 sid r :
  r ∈ refsAt (pushRef index sid0 r0) sid
  ↔ r ∈ refsAt index sid ∨ (sid0 = sid ∧ r = r0).
Proof.
  unfold refsAt, pushRef. destruct (decide (sid0 = sid)) as [->|Hne].
  - rewrite lookup_insert_eq. simpl. rewrite elem_of_app, list_elem_of_singleton.
    naive_solver.
  - rewrite lookup_insert_ne by done. naive_solver.
Qed.

Lemma refsAt_indexStopTimes routeId trip sid r (sts : list StopTime) :
  ∀ i index,
    r ∈ refsAt (indexStopTimes routeId trip i sts index) sid
    ↔ r ∈ refsAt index sid
      ∨ ∃ k st, sts !! k = Some st ∧ stop_id st = sid
                ∧ r = mkTripRef routeId trip (i + k).
Proof.
  induction sts as [|st0 sts IH]; intros i index; simpl.
  - split; [by left|]. intros [?|(k & st & Hk & _)]; [done|].
    by rewrite lookup_nil in Hk.
  - rewrite IH, refsAt_pushRef. split.
    + intros [[?|[Hsid ->]]|(k & st & Hk & Hst & ->)].
      * by left.
      * right. exists 0%nat, st0. by rewrite Nat.add_0_r.
      * right. exists (S k), st. by rewrite Nat.add_succ_r.
    + intros [?|(k & st & Hk & Hst & ->)]; [by left; left|].
      destruct k as [|k]; simpl in Hk.
      * injection Hk as ->. left. right. by rewrite Nat.add_0_r.
      * right. exists k, st. by rewrite Nat.add_succ_r.
Qed.

Lemma refsAt_indexRoute route sid r :
  ∀ index,
    r ∈ refsAt (indexRoute index route) sid
    ↔ r ∈ refsAt index sid
      ∨ (tr_routeId r = fst route ∧ tr_trip r ∈ snd route
         ∧ ∃ st, stop_times (tr_trip r) !! tr_idx r = Some st
                 ∧ stop_id st = sid).
Proof.
  unfold indexRoute. induction (snd route) as [|trip trips IH]; intros index;
    simpl.
  - split; [by left|]. intros [?|(_ & Hin & _)]; [done|].
    by apply elem_of_nil in Hin.
  - rewrite IH, refsAt_indexStopTimes. split.
    + intros [[?|(k & st & Hk & Hst & ->)]|(? & ? & ?)].
      * by left.
      * right. simpl. split; [done|]. split; [by left|]. by exists st.
      * right. split; [done|]. split; [by right|done].
    + intros [?|(Hrid & Hin & st & Hk & Hst)]; [by left; left|].
      apply elem_of_cons in Hin as [Heq|Hin].
      * left. right. exists (tr_idx r), st. split; [by rewrite <- Heq|].
        split; [done|]. destruct r; simpl in *. by subst.
      * right. split; [done|]. split; [done|]. by exists st.
Qed.

Lemma refsAt_indexRoutes (tripsData : list (string * list Trip)) sid r :
  ∀ index,
    r ∈ refsAt (fold_left indexRoute tripsData index) sid
    ↔ r ∈ refsAt index sid ∨ callsAt tripsData sid r.
Proof.
  unfold callsAt.
  induction tripsData as [|route routes IH]; intros index; simpl.
  - split; [by left|]. intros [?|(trips & st & Hin & _)]; [done|].
    by apply elem_of_nil in Hin.
  - rewrite IH, refsAt_indexRoute. split.
    + intros [[?|(Hrid & Hin & st & Hk & Hst)]|(trips & st & Hr & ?)].
      * by left.
      * right. exists (snd route), st. split; [|done].
        rewrite Hrid. destruct route. by left.
      * right. exists trips, st. split; [by right|done].
    + intros [?|(trips & st & Hr & Hin & Hk & Hst)]; [by left; left|].
      apply elem_of_cons in Hr as [Heq|Hr].
      * left. right. rewrite <- Heq. simpl. split; [done|]. split; [done|].
        by exists st.
      * right. by exists trips, st.
Qed.

Lemma refsAt_buildStopToTrips
      (tripsData : list (string * list Trip)) (sid : string) (r : TripRef) :
  r ∈ refsAt (buildStopToTrips tripsData) sid ↔ callsAt tripsData sid r.
Proof.
  unfold buildStopToTrips. rewrite refsAt_indexRoutes.
  split; [|by right]. intros [Hin|?]; [|done].
  unfold refsAt in Hin. rewrite lookup_empty in Hin.
  by apply elem_of_nil in Hin.
Qed.

(** X1. [buildStopToTrips] lists, under a stop, exactly the calls made
    there: a reference (route, trip, position) is in the list of [sid] if
    and only if the trip belongs to that route of the timetable and its stop
    time at that position is at [sid]. *)
Theorem X1_stop_index_lists_calls
        (tripsData : list (string * list Trip)) (sid : string) (r : TripRef) :
  r ∈ refsAt (buildStopToTrips tripsData) sid ↔ callsAt tripsData sid r.
Proof. apply refsAt_buildStopToTrips. Qed.

(* ===================================================================== *)
(** * Date filtering and its cache *)
(* ===================================================================== *)

Lemma callsAt_filteredTrips routeTrips active sid r :
  callsAt (filteredTrips routeTrips active) sid r
  ↔ callsAt routeTrips sid r ∧ service_id (tr_trip r) ∈ active.
Proof.
  unfold callsAt, filteredTrips. split.
  - intros (trips & st & Hr & Hin & Hk & Hst).
    apply list_elem_of_filter in Hr as [_ Hr].
    apply list_elem_of_fmap in Hr as ([rid trips0] & [= Hrid ->] & Hr0).
    simpl in *. apply list_elem_of_filter in Hin as [Hact Hin].
    split; [|done]. exists trips0, st. by rewrite Hrid.
  - intros [(trips & st & Hr & Hin & Hk & Hst) Hact].
    exists (filter (fun t => service_id t ∈ active) trips), st.
    assert (tr_trip r ∈ filter (fun t => service_id t ∈ active) trips) as Hin'
      by (by apply list_elem_of_filter).
    split; [|done].
    apply list_elem_of_filter. split.
    + simpl. intros Hnil. rewrite Hnil in Hin'. by apply elem_of_nil in Hin'.
    + apply list_elem_of_fmap. by exists (tr_routeId r, trips).
Qed.

(** X2. For a date that is not the name of an inherited property,
    [getFilteredData] answers with an index that lists under a stop exactly
    the calls of the timetable made there by trips whose service is active
    on that date; when the date is empty or absent from the calendar no
    trip is filtered out. *)
Theorem X2_date_filter_keeps_active_services
        (routeTrips : list (string * list Trip))
        (calendarIndex : gmap string (list string)) (dateISO : string) :
  Js.inherited dateISO = false →
  ∃ stt,
    getFilteredData routeTrips calendarIndex dateISO = Some stt
    ∧ ∀ sid r,
        r ∈ refsAt stt sid
        ↔ callsAt routeTrips sid r
          ∧ match calendarIndex !! dateISO with
            | Some active =>
                Js.truthy dateISO = true → service_id (tr_trip r) ∈ active
            | None => True
            end.
Proof.
  intros Hinh. unfold getFilteredData. rewrite Hinh.
  destruct (Js.truthy dateISO) eqn:Ht.
  - destruct (calendarIndex !! dateISO) as [active|] eqn:Hcal.
    + eexists. split; [done|]. intros sid r.
      rewrite refsAt_buildStopToTrips.
      pose proof (callsAt_filteredTrips routeTrips active sid r) as Hf.
      unfold filteredTrips in Hf. rewrite Hf. naive_solver.
    + eexists. split; [done|]. intros sid r.
      rewrite refsAt_buildStopToTrips. naive_solver.
  - eexists. split; [done|]. intros sid r.
    rewrite refsAt_buildStopToTrips.
    destruct (calendarIndex !! dateISO); naive_solver.
Qed.

(** On the Monday calendar, the two-leg timetable keeps both its trips. *)
Lemma X2_date_filter_witness :
  Js.inherited "2025-06-02" = false
  ∧ ∃ stt,
      getFilteredData twoLegTrips mondayCalendar "2025-06-02" = Some stt
      ∧ ∀ sid r,
          r ∈ refsAt stt sid
          ↔ callsAt twoLegTrips sid r
            ∧ match mondayCalendar !! "2025-06-02" with
              | Some active =>
                  Js.truthy "2025-06-02" = true
                  → service_id (tr_trip r) ∈ active
              | None => True
              end.
Proof.
  split; [reflexivity|].
  exact (X2_date_filter_keeps_active_services twoLegTrips mondayCalendar
           "2025-06-02" eq_refl).
Defined.

Section DateCache.
Variable routeTrips    : list (string * list Trip).
Variable calendarIndex : gmap string (list string).

Lemma getFilteredDataCached_spec dateCache dateISO :
  cacheOK routeTrips calendarIndex dateCache →
  let '(answer, cache') :=
    getFilteredDataCached routeTrips calendarIndex dateCache dateISO in
  answer = getFilteredData routeTrips calendarIndex dateISO
  ∧ cacheOK routeTrips calendarIndex cache'.
Proof.
  intros [Hlen Hok]. unfold getFilteredDataCached, getFilteredData.
  destruct (Js.truthy dateISO) eqn:Ht; cbn [negb]; [|done].
  destruct (oget dateISO dateCache) as [cached|] eqn:Hget.
  { split; [|done]. apply oget_Some_elem in Hget.
    destruct (Hok _ _ Hget) as [_ Hv]. unfold getFilteredData in Hv.
    by rewrite Ht in Hv. }
  destruct (Js.inherited dateISO) eqn:Hinh; [done|].
  destruct (calendarIndex !! dateISO) as [active|] eqn:Hcal; [|done].
  split; [done|].
  set (evicted := if (7 <=? length dateCache)%nat then drop 1 dateCache
                  else dateCache).
  assert ((length evicted <= 6)%nat ∧ ∀ e, e ∈ evicted → e ∈ dateCache)
    as [Hlen' Hsub].
  { unfold evicted. destruct (Nat.leb_spec 7 (length dateCache)).
    - split; [rewrite length_drop; lia|].
      intros e He. by apply (subseteq_drop 1 dateCache).
    - split; [lia|done]. }
  assert (dateISO ∉ evicted.*1) as Hfresh.
  { intros Hin. apply list_elem_of_fmap in Hin as ([d v] & -> & Hin).
    apply Hsub in Hin. simpl in Hget.
    apply oget_None_keys in Hget. apply Hget.
    apply list_elem_of_fmap. by exists (d, v). }
  split.
  - assert (length (oset dateISO
                      (buildStopToTrips (filteredTrips routeTrips active))
                      evicted).*1 = S (length evicted)) as Hl.
    { rewrite oset_keys, decide_False by done.
      rewrite length_app, length_fmap. simpl. lia. }
    rewrite length_fmap in Hl. rewrite Hl. lia.
  - intros d v Hin. apply elem_of_oset in Hin as [[-> ->]|Hin].
    + split; [done|]. unfold getFilteredData. by rewrite Ht, Hinh, Hcal.
    + by apply Hok, Hsub.
Qed.

Lemma serveDates_spec dates :
  ∀ dateCache,
    cacheOK routeTrips calendarIndex dateCache →
    (serveDates routeTrips calendarIndex dateCache dates).1
    = getFilteredData routeTrips calendarIndex <$> dates
    ∧ cacheOK routeTrips calendarIndex
        (serveDates routeTrips calendarIndex dateCache dates).2.
Proof.
  induction dates as [|d dates IH]; intros dateCache Hok; simpl; [done|].
  pose proof (getFilteredDataCached_spec dateCache d Hok) as Hstep.
  destruct (getFilteredDataCached routeTrips calendarIndex dateCache d)
    as [answer cache1].
  destruct Hstep as [-> Hok1].
  destruct (IH cache1 Hok1) as [Hans Hok2].
  destruct (serveDates routeTrips calendarIndex cache1 dates)
    as [answers cache2].
  simpl in *. by rewrite Hans.
Qed.

End DateCache.

(** X3. The date cache of [getFilteredData] is transparent and bounded:
    whatever dates are requested, starting from the empty cache, every call
    gives the answer of the uncached computation (an exception included),
    and the cache never holds more than seven entries. *)
Theorem X3_date_cache_transparent
        (routeTrips : list (string * list Trip))
        (calendarIndex : gmap string (list string)) (dates : list string) :
  (serveDates routeTrips calendarIndex [] dates).1
  = getFilteredData routeTrips calendarIndex <$> dates
  ∧ (length (serveDates routeTrips calendarIndex [] dates).2 <= 7)%nat.
Proof.
  destruct (serveDates_spec routeTrips calendarIndex dates []) as [Hans [Hlen _]].
  - split; [simpl; lia|]. intros d v Hin. by apply elem_of_nil in Hin.
  - done.
Qed.

(* ===================================================================== *)
(** * Resolution of the stop identifiers of a query *)
(* ===================================================================== *)

Lemma set_add_NoDup (x : string) (s : list string) :
  NoDup s → NoDup (Js.set_add x s).
Proof.
  intros Hnd. unfold Js.set_add. destruct (decide (x ∈ s)); [done|].
  apply NoDup_app. split; [done|]. split; [|apply NoDup_singleton].
  intros y Hy Hy'. apply list_elem_of_singleton in Hy'. by subst.
Qed.

Lemma set_add_prefix (x : string) (s : list string) :
  s `prefix_of` Js.set_add x s.
Proof.
  unfold Js.set_add. destruct (decide (x ∈ s)); [done|].
  by apply prefix_app_r.
Qed.

Lemma uniq_fold_NoDup (l acc : list string) :
  NoDup acc → NoDup (fold_left (fun acc y => Js.set_add y acc) l acc).
Proof.
  revert acc. induction l as [|y l IH]; intros acc Hnd; simpl; [done|].
  by apply IH, set_add_NoDup.
Qed.

Lemma uniq_NoDup (l : list string) : NoDup (uniq l).
Proof. apply uniq_fold_NoDup. constructor. Qed.

Lemma growing_fold {E : Type} (step : list string → E → list string)
      (l : list E) :
  (∀ e, growing (fun out => step out e)) →
  growing (fun out => fold_left step l out).
Proof.
  intros Hstep. induction l as [|e l IH]; intros out; simpl; [done|].
  destruct (Hstep e out) as [Hnd Hpre]. destruct (IH (step out e)) as [Hnd' Hpre'].
  split; [by intros ?; apply Hnd', Hnd|]. by etrans.
Qed.

Section ResolveFacts.
Variable transferIndex : gmap string (list RawTransfer).
Variable stopKeys      : list string.

Lemma expandArea_growing id : growing (expandArea stopKeys id).
Proof.
  unfold expandArea. destruct (areaMatch id) as [uic|]; [|done].
  apply (growing_fold
           (fun o sid => if Js.ends_with sid ("-" +:+ uic)
                         then Js.set_add sid o else o)).
  intros sid out. destruct (Js.ends_with _ _); [|done].
  split; [apply set_add_NoDup|apply set_add_prefix].
Qed.

Lemma addSister_growing mode inputSet id e :
  growing (fun out => addSister mode inputSet id out e).
Proof.
  intros out. unfold addSister. destruct mode.
  - split; [apply set_add_NoDup|apply set_add_prefix].
  - destruct (Js.set_has _ _); [done|]. destruct (te_interCity e); [done|].
    destruct (bool_decide _); [|done].
    split; [apply set_add_NoDup|apply set_add_prefix].
Qed.

Lemma elem_of_expandArea id out x :
  x ∈ expandArea stopKeys id out
  ↔ x ∈ out ∨ (x ∈ stopKeys ∧ designates id x = true).
Proof.
  unfold expandArea, designates. destruct (areaMatch id) as [uic|];
    [|naive_solver].
  revert out. induction stopKeys as [|sid keys IH]; intros out; simpl.
  - split; [by left|]. intros [?|[Hin _]]; [done|]. by apply elem_of_nil in Hin.
  - rewrite IH. destruct (Js.ends_with sid _) eqn:Hends.
    + rewrite set_add_elem, elem_of_cons. naive_solver.
    + rewrite elem_of_cons. split; [naive_solver|].
      intros [?|[[->|?] Hx]]; [by left|congruence|right; done].
Qed.

Lemma elem_of_addSisters mode inputSet id entries out x :
  (∀ y, y ∈ inputSet → y ∈ out) →
  x ∈ fold_left (addSister mode inputSet id) entries out
  ↔ x ∈ out ∨ ∃ e, e ∈ entries ∧ te_id e = x ∧ sisterKept mode id e.
Proof.
  revert out. induction entries as [|e entries IH]; intros out Hinp; simpl.
  - split; [by left|]. intros [?|(e & Hin & _)]; [done|].
    by apply elem_of_nil in Hin.
  - assert (∀ y, y ∈ inputSet → y ∈ addSister mode inputSet id out e) as Hinp'.
    { intros y Hy. destruct (addSister_growing mode inputSet id e out)
        as [_ [k ->]]. apply elem_of_app. left. by apply Hinp. }
    rewrite (IH _ Hinp').
    assert (x ∈ addSister mode inputSet id out e
            ↔ x ∈ out ∨ (te_id e = x ∧ sisterKept mode id e)) as ->.
    { unfold addSister, sisterKept, Js.set_has. destruct mode.
      - rewrite set_add_elem. naive_solver.
      - destruct (decide (te_id e ∈ inputSet)) as [Hin|Hnin].
        { split; [by left|]. intros [?|[<- _]]; [done|]. by apply Hinp. }
        destruct (te_interCity e); [naive_solver|].
        destruct (bool_decide_reflect
                    (extractOperator id = extractOperator (te_id e)))
          as [Hop|Hop]; [|naive_solver].
        rewrite set_add_elem. naive_solver. }
    split.
    + intros [[?|[? ?]]|(e' & ? & ? & ?)].
      * by left.
      * right. exists e. split; [by left|done].
      * right. exists e'. split; [by right|done].
    + intros [?|(e' & Hin & ? & ?)]; [by left; left|].
      apply elem_of_cons in Hin as [->|Hin]; [left; by right|].
      right. by exists e'.
Qed.

Lemma resolveOne_fold_spec mode inputSet (ids : list string) :
  ∀ out res,
    fold_left (resolveOne transferIndex stopKeys mode inputSet) ids (Some out)
    = Some res →
    (∀ y, y ∈ inputSet → y ∈ out) →
    (NoDup out → NoDup res) ∧ out `prefix_of` res
    ∧ ∀ x, x ∈ res
           ↔ x ∈ out
             ∨ (∃ id, id ∈ ids ∧ x ∈ stopKeys ∧ designates id x = true)
             ∨ (∃ id e, id ∈ ids ∧ e ∈ transferEntries transferIndex id
                        ∧ te_id e = x ∧ sisterKept mode id e).
Proof.
  induction ids as [|id ids IH]; intros out res Hres Hinp.
  - injection Hres as <-. split; [done|]. split; [done|]. intros x.
    split; [by left|]. intros [?|[(id & Hin & _)|(id & e & Hin & _)]];
      [done|by apply elem_of_nil in Hin..].
  - simpl in Hres. unfold transferEntriesOf in Hres.
    destruct (Js.inherited id); [by rewrite resolveOne_fold_thrown in Hres|].
    set (out1 := fold_left (addSister mode inputSet id)
                   (transferEntries transferIndex id)
                   (expandArea stopKeys id out)) in *.
    destruct (expandArea_growing id out) as [Hnd0 Hpre0].
    destruct (growing_fold (addSister mode inputSet id)
                (transferEntries transferIndex id)
                (fun e => addSister_growing mode inputSet id e)
                (expandArea stopKeys id out)) as [Hnd1 Hpre1].
    fold out1 in Hnd1, Hpre1.
    assert (∀ y, y ∈ inputSet → y ∈ expandArea stopKeys id out) as Hinp0.
    { intros y Hy. apply elem_of_expandArea. left. by apply Hinp. }
    assert (∀ y, y ∈ inputSet → y ∈ out1) as Hinp1.
    { intros y Hy. destruct Hpre1 as [k ->]. apply elem_of_app. left.
      by apply Hinp0. }
    destruct (IH out1 res Hres Hinp1) as (Hnd & Hpre & Hmem).
    split; [by intros ?; apply Hnd, Hnd1, Hnd0|].
    split; [by etrans; [|etrans]|].
    intros x. rewrite Hmem. unfold out1.
    rewrite (elem_of_addSisters mode inputSet id _ _ x Hinp0).
    rewrite elem_of_expandArea. split.
    + intros [[[?|[? ?]]|(e & ? & ? & ?)]|[(id' & ? & ?)|(id' & e & ? & ?)]].
      * by left.
      * right. left. exists id. split; [by left|done].
      * right. right. exists id, e. split; [by left|done].
      * right. left. exists id'. split; [by right|done].
      * right. right. exists id', e. split; [by right|done].
    + intros [?|[(id' & Hin & ?)|(id' & e & Hin & ?)]].
      * by left; left; left.
      * apply elem_of_cons in Hin as [->|Hin]; [left; left; by right|].
        right. left. by exists id'.
      * apply elem_of_cons in Hin as [->|Hin]; [left; right; by exists e|].
        right. right. by exists id', e.
Qed.

Lemma resolveStopIds_spec ids mode out :
  resolveStopIds transferIndex stopKeys ids mode = Some out →
  NoDup out ∧ uniq ids `prefix_of` out
  ∧ ∀ x, x ∈ out
         ↔ x ∈ ids
           ∨ (∃ id, id ∈ ids ∧ x ∈ stopKeys ∧ designates id x = true)
           ∨ (∃ id e, id ∈ ids ∧ e ∈ transferEntries transferIndex id
                      ∧ te_id e = x ∧ sisterKept mode id e).
Proof.
  intros Hres. unfold resolveStopIds in Hres.
  destruct (resolveOne_fold_spec mode ids ids (uniq ids) out Hres)
    as (Hnd & Hpre & Hmem).
  { intros y Hy. by apply uniq_elem. }
  split; [apply Hnd, uniq_NoDup|]. split; [done|].
  intros x. rewrite Hmem, uniq_elem. done.
Qed.

End ResolveFacts.

(** X4. When [resolveStopIds] returns, its list has no duplicate and starts
    with the identifiers it was given (deduplicated, in their order): an
    input identifier is never dropped, whatever the mode. *)
Theorem X4_resolve_keeps_inputs
        (transferIndex : gmap string (list RawTransfer))
        (stopKeys ids : list string) (mode : Mode) (out : list string) :
  resolveStopIds transferIndex stopKeys ids mode = Some out →
  NoDup out ∧ uniq ids `prefix_of` out ∧ ∀ id, id ∈ ids → id ∈ out.
Proof.
  intros Hres.
  destruct (resolveStopIds_spec transferIndex stopKeys ids mode out Hres)
    as (Hnd & Hpre & Hmem).
  split; [done|]. split; [done|]. intros id Hid. apply Hmem. by left.
Qed.

Lemma X4_resolve_witness :
  resolveStopIds parisTransfers parisKeys ["SNCF:StopArea:OCE87686006"] Dest
  = Some ["SNCF:StopArea:OCE87686006";
          "SNCF:StopPoint:OCETGV INOUI-87686006";
          "SNCF:StopPoint:OCEOUIGO-87686006"]
  ∧ NoDup ["SNCF:StopArea:OCE87686006";
           "SNCF:StopPoint:OCETGV INOUI-87686006";
           "SNCF:StopPoint:OCEOUIGO-87686006"]
  ∧ uniq ["SNCF:StopArea:OCE87686006"]
      `prefix_of` ["SNCF:StopArea:OCE87686006";
                   "SNCF:StopPoint:OCETGV INOUI-87686006";
                   "SNCF:StopPoint:OCEOUIGO-87686006"]
  ∧ ∀ id, id ∈ ["SNCF:StopArea:OCE87686006"]
          → id ∈ ["SNCF:StopArea:OCE87686006";
                  "SNCF:StopPoint:OCETGV INOUI-87686006";
                  "SNCF:StopPoint:OCEOUIGO-87686006"].
Proof.
  split; [vm_compute; reflexivity|].
  apply (X4_resolve_keeps_inputs parisTransfers parisKeys
           ["SNCF:StopArea:OCE87686006"] Dest).
  vm_compute. reflexivity.
Defined.

(** X5. The list returned by [resolveStopIds] holds exactly: the given
    identifiers; the stops whose key ends with the UIC code of a given stop
    area; and the transfer neighbours of the given identifiers, all of them
    in mode [origin], only those of the same operator that are not
    inter-station links in mode [dest]. *)
Theorem X5_resolve_membership
        (transferIndex : gmap string (list RawTransfer))
        (stopKeys ids : list string) (mode : Mode) (out : list string)
        (x : string) :
  resolveStopIds transferIndex stopKeys ids mode = Some out →
  x ∈ out
  ↔ x ∈ ids
    ∨ (∃ id, id ∈ ids ∧ x ∈ stopKeys ∧ designates id x = true)
    ∨ (∃ id e, id ∈ ids ∧ e ∈ transferEntries transferIndex id
               ∧ te_id e = x ∧ sisterKept mode id e).
Proof.
  intros Hres.
  by destruct (resolveStopIds_spec transferIndex stopKeys ids mode out Hres)
    as (_ & _ & Hmem).
Qed.

Lemma X5_resolve_membership_witness :
  resolveStopIds parisTransfers parisKeys ["SNCF:StopArea:OCE87686006"] Origin
  = Some ["SNCF:StopArea:OCE87686006";
          "SNCF:StopPoint:OCETGV INOUI-87686006";
          "SNCF:StopPoint:OCEOUIGO-87686006";
          "TI:S08727"; "SNCF:StopArea:OCE87113001"]
  ∧ ("TI:S08727" ∈ ["SNCF:StopArea:OCE87686006";
                    "SNCF:StopPoint:OCETGV INOUI-87686006";
                    "SNCF:StopPoint:OCEOUIGO-87686006";
                    "TI:S08727"; "SNCF:StopArea:OCE87113001"]
     ↔ "TI:S08727" ∈ ["SNCF:StopArea:OCE87686006"]
       ∨ (∃ id, id ∈ ["SNCF:StopArea:OCE87686006"]
                ∧ "TI:S08727" ∈ parisKeys ∧ designates id "TI:S08727" = true)
       ∨ (∃ id e, id ∈ ["SNCF:StopArea:OCE87686006"]
                  ∧ e ∈ transferEntries parisTransfers id
                  ∧ te_id e = "TI:S08727" ∧ sisterKept Origin id e)).
Proof.
  split; [vm_compute; reflexivity|].
  apply (X5_resolve_membership parisTransfers parisKeys
           ["SNCF:StopArea:OCE87686006"] Origin).
  vm_compute. reflexivity.
Defined.

(* ===================================================================== *)
(** * The list returned by searchJourneys *)
(* ===================================================================== *)

Section StableSortOrder.
Context {A : Type} (leb : A → A → bool).
Hypothesis leb_total : ∀ a b, leb a b = true ∨ leb b a = true.
Hypothesis leb_trans :
  ∀ a b c, leb a b = true → leb b c = true → leb a c = true.

Lemma insert_sorted_strongly (x : A) (l : list A) :
  StronglySorted (fun a b => leb a b = true) l →
  StronglySorted (fun a b => leb a b = true) (insert_sorted leb x l).
Proof.
  induction l as [|y l IH]; intros Hs; simpl.
  - repeat constructor.
  - apply StronglySorted_cons in Hs as [Hy Hs].
    destruct (leb x y) eqn:Hxy.
    + apply StronglySorted_cons. split.
      * constructor; [done|]. eapply Forall_impl; [exact Hy|].
        intros z Hz. by apply (leb_trans x y z).
      * by apply StronglySorted_cons.
    + apply StronglySorted_cons. split; [|by apply IH].
      assert (leb y x = true) as Hyx by (destruct (leb_total x y); congruence).
      apply Forall_forall. intros z Hz.
      rewrite (insert_sorted_perm leb x l) in Hz.
      apply elem_of_cons in Hz as [->|Hz]; [done|].
      rewrite Forall_forall in Hy. by apply Hy.
Qed.

Lemma stable_sort_strongly (l : list A) :
  StronglySorted (fun a b => leb a b = true) (stable_sort leb l).
Proof.
  induction l as [|x l IH]; simpl; [constructor|].
  by apply insert_sorted_strongly.
Qed.

End StableSortOrder.

Lemma journeyLeb_before (a b : Journey) :
  journeyLeb a b = true ↔ journeyBefore a b.
Proof.
  unfold journeyLeb, journeyCmp, journeyBefore. rewrite Z.leb_le.
  destruct (Z.eqb_spec (j_transfers a - j_transfers b) 0);
    destruct (Z.eqb_spec (j_duration a - j_duration b) 0); simpl; lia.
Qed.

Lemma journeyLeb_total (a b : Journey) :
  journeyLeb a b = true ∨ journeyLeb b a = true.
Proof. rewrite !journeyLeb_before. unfold journeyBefore. lia. Qed.

Lemma journeyLeb_trans (a b c : Journey) :
  journeyLeb a b = true → journeyLeb b c = true → journeyLeb a c = true.
Proof. rewrite !journeyLeb_before. unfold journeyBefore. lia. Qed.

Lemma slice0_strongly {A : Type} (R : A → A → Prop) (n : Z) (l : list A) :
  StronglySorted R l → StronglySorted R (Js.slice0 n l).
Proof.
  intros Hs. unfold Js.slice0.
  destruct (0 <=? n);
    [rewrite <- (take_drop (Z.to_nat n) l) in Hs
    |rewrite <- (take_drop (length l - Z.to_nat (- n)) l) in Hs];
    by apply StronglySorted_app_1_l in Hs.
Qed.

Lemma finishSearch_sorted cityKey limit (results : list Journey) :
  StronglySorted journeyBefore (finishSearch cityKey limit results).
Proof.
  unfold finishSearch. apply slice0_strongly.
  pose proof (stable_sort_strongly journeyLeb journeyLeb_total
                journeyLeb_trans
                (dedupeByArrCity cityKey (stable_sort journeyLeb results)))
    as Hs.
  induction Hs as [|a l Hs IH Ha]; constructor; [done|].
  eapply Forall_impl; [exact Ha|]. intros b. by rewrite journeyLeb_before.
Qed.

(** X6. The list returned by [searchJourneys] is ordered: of two journeys,
    the one with fewer transfers comes first; with equal transfers, the
    shorter one; with equal durations, the one that leaves first. *)
Theorem X6_results_are_ordered
        (transferIndex : gmap string (list RawTransfer))
        (stopsIndex : list Station)
        (utcMonth : string → option Z) (normCity : string → string)
        (detectUnstored : string → string → string → string → string)
        (originIds destIds : list string) (startTime : Z)
        (stt : gmap string (list TripRef)) (limit : Z) (dateISO : string)
        (allowedTypes : option (list string)) :
  StronglySorted journeyBefore
    (searchJourneys transferIndex stopsIndex utcMonth normCity
       detectUnstored originIds destIds startTime stt limit dateISO
       allowedTypes).
Proof. apply finishSearch_sorted. Qed.

(** ** Length *)

Lemma slice0_length {A : Type} (n : Z) (l : list A) :
  Z.of_nat (length (Js.slice0 n l)) <= Z.max 0 n ∨ (n < 0 ∧ l ≠ []).
Proof.
  unfold Js.slice0. destruct (Z.leb_spec 0 n).
  - left. rewrite length_take. lia.
  - destruct l; [left; rewrite take_nil; simpl; lia|right; done].
Qed.

Lemma searchJourneysWith_length core cityKey startTime limit allowedTypes :
  Z.of_nat (length (searchJourneysWith core cityKey startTime limit
                      allowedTypes)) <= Z.max 0 limit.
Proof.
  unfold searchJourneysWith, finishSearch.
  destruct (Z.le_gt_cases limit 0) as [Hle|Hgt].
  - unfold collectJourneys. rewrite searchLoop_length by done. simpl.
    unfold Js.slice0. destruct (0 <=? limit); rewrite take_nil; simpl; lia.
  - destruct (slice0_length limit
                (stable_sort journeyLeb
                   (dedupeByArrCity cityKey
                      (stable_sort journeyLeb
                         (ls_results (collectJourneys core startTime limit
                                        allowedTypes))))))
      as [?|[? _]]; lia.
Qed.

(** X7. [searchJourneys] never returns more journeys than the limit it is
    given, and none when the limit is zero or negative. *)
Theorem X7_results_within_limit
        (transferIndex : gmap string (list RawTransfer))
        (stopsIndex : list Station)
        (utcMonth : string → option Z) (normCity : string → string)
        (detectUnstored : string → string → string → string → string)
        (originIds destIds : list string) (startTime : Z)
        (stt : gmap string (list TripRef)) (limit : Z) (dateISO : string)
        (allowedTypes : option (list string)) :
  Z.of_nat (length (searchJourneys transferIndex stopsIndex utcMonth normCity
                      detectUnstored originIds destIds startTime stt limit
                      dateISO allowedTypes)) <= Z.max 0 limit.
Proof. apply searchJourneysWith_length. Qed.

(** ** Search window and distinct trip sequences *)

Section WindowFacts.
Variable core         : Z → list Journey.
Variable cityKey      : string → string.
Variable startTime    : Z.
Variable limit        : Z.
Variable allowedTypes : option (list string).

Lemma searchLoop_window (fuel : nat) (st : LoopState) :
  startTime <= ls_t st →
  Forall (foundInWindow core startTime) (ls_results st) →
  Forall (foundInWindow core startTime)
    (ls_results (searchLoop core startTime limit allowedTypes fuel st)).
Proof.
  revert st. induction fuel as [|fuel IH]; intros st Ht Hst; simpl; [done|].
  destruct (loopGuard startTime limit st) eqn:Hguard; [|done].
  destruct (searchIter_decreases core startTime limit allowedTypes st Ht
              Hguard) as [Ht' _].
  assert (Forall (foundInWindow core startTime)
            (ls_results (searchIter core startTime allowedTypes st))) as Hst'.
  { destruct (searchIter_spec core startTime allowedTypes st)
      as (new & Hres & Hall & _). simpl in Hres. rewrite Hres.
    apply Forall_app. split; [done|].
    eapply Forall_impl; [exact Hall|]. intros j (Hin & Hdep & _).
    split; [|done]. exists (ls_t st). split; [|done].
    unfold loopGuard, maxT in Hguard.
    apply andb_true_iff in Hguard as [_ Hmax]. apply Z.leb_le in Hmax. lia. }
  destruct (ls_broke _); [done|by apply IH].
Qed.

Lemma takeJourney_fold_seen (batch : list Journey) :
  ∀ res seen m,
    seenInv res seen →
    let '(res', seen', _) :=
      fold_left (takeJourney startTime allowedTypes) batch (res, seen, m) in
    seenInv res' seen'.
Proof.
  induction batch as [|j batch IH]; intros res seen m Hinv; simpl; [done|].
  destruct (j_dep_time j <? startTime); [by apply IH|].
  destruct (passesFilter allowedTypes j); simpl; [|by apply IH].
  destruct (decide (journeyKey j ∈ seen)) as [Hin|Hnew]; [by apply IH|].
  apply IH. destruct Hinv as [Hnd Hseen]. split.
  - rewrite fmap_app. apply NoDup_app. split; [done|].
    split; [|apply NoDup_singleton].
    intros k Hk Hk'. apply list_elem_of_singleton in Hk' as ->.
    apply list_elem_of_fmap in Hk as (j' & Hkey & Hj').
    apply Hnew. rewrite Hkey. by apply Hseen.
  - intros j' Hj'. apply elem_of_app in Hj' as [Hj'|Hj'].
    + apply elem_of_union. right. by apply Hseen.
    + apply list_elem_of_singleton in Hj' as ->. apply elem_of_union. left.
      by apply elem_of_singleton.
Qed.

Lemma searchIter_seen (st : LoopState) :
  seenInv (ls_results st) (ls_seen st) →
  seenInv (ls_results (searchIter core startTime allowedTypes st))
          (ls_seen (searchIter core startTime allowedTypes st)).
Proof.
  intros Hinv. unfold searchIter.
  pose proof (takeJourney_fold_seen (core (ls_t st)) _ _ (-1) Hinv) as Hfold.
  destruct (fold_left _ _ _) as [[res' seen'] m].
  by destruct (0 <=? m).
Qed.

Lemma searchLoop_seen (fuel : nat) (st : LoopState) :
  seenInv (ls_results st) (ls_seen st) →
  NoDup (journeyKey <$>
           ls_results (searchLoop core startTime limit allowedTypes fuel st)).
Proof.
  revert st. induction fuel as [|fuel IH]; intros st Hinv; simpl;
    [by destruct Hinv|].
  destruct (loopGuard _ _ _); [|by destruct Hinv].
  pose proof (searchIter_seen st Hinv) as Hinv'.
  destruct (ls_broke _); [by destruct Hinv'|by apply IH].
Qed.

Lemma NoDup_fmap_inj_on {A B : Type} (f : A → B) (l : list A) x y :
  NoDup (f <$> l) → x ∈ l → y ∈ l → f x = f y → x = y.
Proof.
  induction l as [|a l IH]; intros Hnd Hx Hy Hf.
  - by apply elem_of_nil in Hx.
  - rewrite fmap_cons in Hnd. apply NoDup_cons in Hnd as [Ha Hnd].
    apply elem_of_cons in Hx as [->|Hx]; apply elem_of_cons in Hy as [->|Hy].
    + done.
    + exfalso. apply Ha. rewrite Hf. apply list_elem_of_fmap. by exists y.
    + exfalso. apply Ha. rewrite <- Hf. apply list_elem_of_fmap. by exists x.
    + by apply IH.
Qed.

Lemma finishSearch_keys (results : list Journey) :
  NoDup (journeyKey <$> results) →
  NoDup (journeyKey <$> finishSearch cityKey limit results).
Proof.
  intros Hnd. unfold finishSearch.
  destruct (dedupeByArrCity_spec cityKey (stable_sort journeyLeb results))
    as [Hd Hin].
  set (d := dedupeByArrCity cityKey (stable_sort journeyLeb results)) in *.
  assert (NoDup (journeyKey <$> d)) as Hnd'.
  { apply NoDup_fmap_2_strong; [|by apply NoDup_fmap_1 in Hd].
    intros x y Hx Hy. apply (NoDup_fmap_inj_on journeyKey results); [done|..].
    - apply (stable_sort_elem journeyLeb). by apply Hin.
    - apply (stable_sort_elem journeyLeb). by apply Hin. }
  apply (sublist_NoDup _ (journeyKey <$> stable_sort journeyLeb d)).
  - by rewrite stable_sort_perm.
  - apply fmap_sublist, slice0_sublist.
Qed.

Lemma searchJourneysWith_window :
  Forall (foundInWindow core startTime)
    (searchJourneysWith core cityKey startTime limit allowedTypes).
Proof.
  unfold searchJourneysWith. apply Forall_forall. intros j Hj.
  destruct (finishSearch_spec cityKey limit
              (ls_results (collectJourneys core startTime limit allowedTypes)))
    as [_ Hmin].
  destruct (Hmin j Hj) as [Hin _].
  assert (Forall (foundInWindow core startTime)
            (ls_results (collectJourneys core startTime limit allowedTypes)))
    as Hw.
  { apply searchLoop_window; [simpl; lia|constructor]. }
  rewrite Forall_forall in Hw. by apply Hw.
Qed.

Lemma searchJourneysWith_keys :
  NoDup (journeyKey <$>
           searchJourneysWith core cityKey startTime limit allowedTypes).
Proof.
  unfold searchJourneysWith. apply finishSearch_keys.
  apply searchLoop_seen. split; [constructor|].
  intros j Hj. by apply elem_of_nil in Hj.
Qed.

End WindowFacts.

(** X8. Every journey returned by [searchJourneys] leaves at or after the
    requested start time, and was found by a run of the core started at
    some time between the start time and 14 hours later. *)
Theorem X8_results_in_search_window
        (transferIndex : gmap string (list RawTransfer))
        (stopsIndex : list Station)
        (utcMonth : string → option Z) (normCity : string → string)
        (detectUnstored : string → string → string → string → string)
        (originIds destIds : list string) (startTime : Z)
        (stt : gmap string (list TripRef)) (limit : Z) (dateISO : string)
        (allowedTypes : option (list string)) :
  Forall (foundInWindow
            (fun t => raptorCore transferIndex utcMonth detectUnstored
                        originIds (Some destIds) t stt dateISO)
            startTime)
    (searchJourneys transferIndex stopsIndex utcMonth normCity
       detectUnstored originIds destIds startTime stt limit dateISO
       allowedTypes).
Proof. apply searchJourneysWith_window. Qed.

(** X9. No two journeys returned by [searchJourneys] ride the same sequence
    of trips: their keys (the trip identifiers of the legs joined by a
    vertical bar) are pairwise distinct. *)
Theorem X9_results_have_distinct_trips
        (transferIndex : gmap string (list RawTransfer))
        (stopsIndex : list Station)
        (utcMonth : string → option Z) (normCity : string → string)
        (detectUnstored : string → string → string → string → string)
        (originIds destIds : list string) (startTime : Z)
        (stt : gmap string (list TripRef)) (limit : Z) (dateISO : string)
        (allowedTypes : option (list string)) :
  NoDup (journeyKey <$>
           searchJourneys transferIndex stopsIndex utcMonth normCity
             detectUnstored originIds destIds startTime stt limit dateISO
             allowedTypes).
Proof. apply searchJourneysWith_keys. Qed.

(** ** The answer of /api/search *)

Lemma maxDepOf_ge (js : list Journey) (j : Journey) :
  j ∈ js → j_dep_time j <= maxDepOf js.
Proof.
  destruct js as [|j0 js]; intros Hin; [by apply elem_of_nil in Hin|].
  simpl. apply elem_of_cons in Hin as [->|Hin].
  - apply fold_max_ge_init.
  - apply fold_max_ge_elem. apply list_elem_of_fmap. by exists j.
Qed.

(** X10. An answer of [/api/search] holds at most 32 journeys, all leaving
    at or after the start second [max(time + offset, after_dep)] and no
    later than [last_dep_time]; [last_dep_time] is never before the start
    second, [next_offset] is [last_dep_time] minus the requested time and
    is never smaller than the offset of the request. *)
Theorem X10_search_answer_cursor
        (transferIndex : gmap string (list RawTransfer))
        (stopsIndex : list Station) (stopKeys : list string)
        (routeTrips : list (string * list Trip))
        (calendarIndex : gmap string (list string))
        (utcMonth : string → option Z) (normCity : string → string)
        (detectUnstored : string → string → string → string → string)
        (q : SearchQuery) (status : Z) (journeys : list Journey)
        (next_offset last_dep_time : Z) :
  handleSearch transferIndex stopsIndex stopKeys routeTrips calendarIndex
               utcMonth normCity detectUnstored q
  = JsonOk status journeys next_offset last_dep_time →
  let startSec := Z.max (q_time q + q_offset q) (q_after_dep q) in
  status = 200
  ∧ (length journeys <= 32)%nat
  ∧ Forall (fun j => startSec <= j_dep_time j <= last_dep_time) journeys
  ∧ startSec <= last_dep_time
  ∧ next_offset = last_dep_time - q_time q
  ∧ q_offset q <= next_offset.
Proof.
  intros Hq startSec. unfold handleSearch in Hq.
  destruct (q_from q) as [|f fs]; [destruct (q_to q); done|].
  destruct (q_to q) as [|d ds]; [done|].
  destruct (getFilteredData _ _ _) as [stt|]; [|done].
  destruct (resolveStopIds _ _ (uniq (f :: fs)) Origin) as [uniqueFrom|];
    [|done].
  destruct (resolveStopIds _ _ (uniq (d :: ds)) Dest) as [uniqueTo|]; [|done].
  fold startSec in Hq.
  set (js := searchJourneys transferIndex stopsIndex utcMonth normCity
               detectUnstored uniqueFrom uniqueTo startSec stt
               (Z.min (q_limit q) 32) (q_date q) (q_train_types q)) in *.
  assert (Forall (fun j => startSec <= j_dep_time j) js) as Hdep.
  { eapply Forall_impl; [apply searchJourneysWith_window|].
    by intros j [_ ?]. }
  assert (Z.of_nat (length js) <= Z.max 0 (Z.min (q_limit q) 32)) as Hlen
    by apply searchJourneysWith_length.
  injection Hq as <- <- <- <-.
  split; [done|]. split; [lia|].
  assert (Forall (fun j => startSec <= j_dep_time j
                           <= match js with
                              | [] => startSec
                              | _ :: _ => maxDepOf js
                              end) js) as Hall.
  { apply Forall_forall. intros j Hj. rewrite Forall_forall in Hdep.
    split; [by apply Hdep|].
    destruct js as [|j0 js0] eqn:Hjs; [by apply elem_of_nil in Hj|].
    by apply maxDepOf_ge. }
  split; [done|].
  assert (startSec <= match js with
                      | [] => startSec
                      | _ :: _ => maxDepOf js
                      end) as Hlast.
  { destruct js as [|j0 js0] eqn:Hjs; [lia|].
    apply Forall_cons in Hall as [[? ?] _]. lia. }
  split; [done|]. split; [done|]. unfold startSec in *. lia.
Qed.

Lemma X10_search_answer_witness :
  handleSearch ∅ [] [] twoLegTrips ∅ isoMonth asciiNorm fallbackType
               twoLegQuery
  = JsonOk 200 [twoLegJourney] 0 25200
  ∧ let startSec :=
      Z.max (q_time twoLegQuery + q_offset twoLegQuery)
            (q_after_dep twoLegQuery) in
    200 = 200
    ∧ (length [twoLegJourney] <= 32)%nat
    ∧ Forall (fun j => startSec <= j_dep_time j <= 25200) [twoLegJourney]
    ∧ startSec <= 25200
    ∧ 0 = 25200 - q_time twoLegQuery
    ∧ q_offset twoLegQuery <= 0.
Proof.
  split; [vm_compute; reflexivity|].
  apply (X10_search_answer_cursor ∅ [] [] twoLegTrips ∅ isoMonth asciiNorm
           fallbackType twoLegQuery).
  vm_compute. reflexivity.
Defined.

(* ===================================================================== *)
(** * Soundness of the journeys of the core *)
(* ===================================================================== *)

Lemma transferTime_pos (fromId : string) (e : TransferEntry) :
  0 < transferTime fromId e.
Proof.
  unfold transferTime, MIN_TRANSFER_CITY, MIN_TRANSFER_SAME,
    MIN_TRANSFER_CROSS.
  destruct (te_interCity e); [lia|]. destruct (bool_decide _); lia.
Qed.

Lemma tau_le_improve (tau : gmap string Z) (sid : string) (v : Z) :
  Js.lt_inf v (tau !! sid) = true → tau_le (<[sid := v]> tau) tau.
Proof.
  intros Hlt x b Hb. destruct (decide (sid = x)) as [->|Hne].
  - rewrite lookup_insert_eq. exists v. split; [done|].
    rewrite Hb in Hlt. simpl in Hlt. apply Z.ltb_lt in Hlt. lia.
  - rewrite lookup_insert_ne by done. exists b. split; [done|lia].
Qed.

Lemma tau_le_bound (tau tau' : gmap string Z) (x : string) (b : Z) :
  tau_le tau' tau →
  (∃ a, tau !! x = Some a ∧ a <= b) → ∃ a, tau' !! x = Some a ∧ a <= b.
Proof.
  intros Hle (a & Ha & Hab). destruct (Hle x a Ha) as (a' & Ha' & Hle').
  exists a'. split; [done|lia].
Qed.

Lemma curOK_le (tau tau' : gmap string Z) (cur : list (string * Z)) :
  tau_le tau' tau → curOK tau cur → curOK tau' cur.
Proof.
  intros Hle Hcur sid arr Hin. eapply tau_le_bound; [done|by apply Hcur].
Qed.

Section EngineInvariant.
Variable transferIndex  : gmap string (list RawTransfer).
Variable utcMonth       : string → option Z.
Variable detectUnstored : string → string → string → string → string.
Variable stt            : gmap string (list TripRef).
Variable dateISO        : string.

Local Abbreviation inv := (engineInv transferIndex utcMonth stt dateISO).
Local Abbreviation pOK := (parentOK transferIndex utcMonth stt dateISO).
Local Abbreviation scanInv := (scanInv transferIndex utcMonth stt dateISO).

(** The one way labels and predecessors are written together. *)
Lemma engineInv_improve O tau par sid v p :
  inv O tau par →
  Js.lt_inf v (tau !! sid) = true →
  entryArr p = v → pOK sid p →
  (∃ a, tau !! entryFrom p = Some a ∧ a <= entryDep p) →
  inv O (<[sid := v]> tau) (<[sid := p]> par).
Proof.
  intros (Hok & Harr & Hfrom) Hlt Hv Hp Hbound.
  pose proof (tau_le_improve tau sid v Hlt) as Hle.
  split; [|split].
  - intros x q Hq. destruct (decide (sid = x)) as [->|Hne].
    + rewrite lookup_insert_eq in Hq. by injection Hq as <-.
    + rewrite lookup_insert_ne in Hq by done. by apply Hok.
  - intros x q Hq Hx. destruct (decide (sid = x)) as [->|Hne].
    + rewrite lookup_insert_eq in Hq. injection Hq as <-.
      by rewrite lookup_insert_eq, Hv.
    + rewrite lookup_insert_ne in Hq by done.
      rewrite lookup_insert_ne by done. by apply Harr.
  - intros x q Hq. eapply tau_le_bound; [exact Hle|].
    destruct (decide (sid = x)) as [->|Hne].
    + rewrite lookup_insert_eq in Hq. by injection Hq as <-.
    + rewrite lookup_insert_ne in Hq by done. by eapply Hfrom.
Qed.

Lemma engineInv_origin O X tau par :
  inv O tau par → inv (X ∪ O) tau par.
Proof.
  intros (Hok & Harr & Hfrom). split; [done|]. split; [|done].
  intros x q Hq Hx. apply Harr; [done|]. set_solver.
Qed.

(** ** Initialisation *)

Lemma seedSister_inv startTime oid (c : CoreState) (e : TransferEntry) :
  e ∈ transferEntries transferIndex oid →
  (∃ a, cs_tau_best c !! oid = Some a ∧ a <= startTime) →
  inv (cs_originSet c) (cs_tau_best c) (cs_parent c) →
  let c' := seedSister startTime oid c e in
  inv (cs_originSet c') (cs_tau_best c') (cs_parent c').
Proof.
  intros He Hoid Hinv. unfold seedSister.
  set (t := startTime + transferTime oid e).
  assert (inv (cs_originSet c)
              (cs_tau_best (if Js.lt_inf t (cs_tau_best c !! te_id e)
                            then mkCore (<[te_id e := t]> (cs_tau_best c))
                                   (<[te_id e := Walk oid startTime t]>
                                      (cs_parent c))
                                   (cs_originSet c)
                                   (Js.set_add (te_id e) (cs_marked c))
                            else c))
              (cs_parent (if Js.lt_inf t (cs_tau_best c !! te_id e)
                          then mkCore (<[te_id e := t]> (cs_tau_best c))
                                 (<[te_id e := Walk oid startTime t]>
                                    (cs_parent c))
                                 (cs_originSet c)
                                 (Js.set_add (te_id e) (cs_marked c))
                          else c))
          ∧ cs_originSet (if Js.lt_inf t (cs_tau_best c !! te_id e)
                          then mkCore (<[te_id e := t]> (cs_tau_best c))
                                 (<[te_id e := Walk oid startTime t]>
                                    (cs_parent c))
                                 (cs_originSet c)
                                 (Js.set_add (te_id e) (cs_marked c))
                          else c) = cs_originSet c) as [H1 HO].
  { destruct (Js.lt_inf t (cs_tau_best c !! te_id e)) eqn:Hlt; [|done].
    simpl. split; [|done].
    apply engineInv_improve; [done|done|done| |done].
    exists e. done. }
  destruct (negb (te_interCity e)); simpl; [|by rewrite HO].
  rewrite HO. by apply engineInv_origin.
Qed.

Lemma seedSisters_inv startTime oid entries :
  ∀ c : CoreState,
    (∀ e, e ∈ entries → e ∈ transferEntries transferIndex oid) →
    (∃ a, cs_tau_best c !! oid = Some a ∧ a <= startTime) →
    inv (cs_originSet c) (cs_tau_best c) (cs_parent c) →
    let c' := fold_left (seedSister startTime oid) entries c in
    inv (cs_originSet c') (cs_tau_best c') (cs_parent c').
Proof.
  induction entries as [|e entries IH]; intros c Hsub Hoid Hinv; simpl;
    [done|].
  apply IH.
  - intros e' He'. apply Hsub. by right.
  - eapply tau_le_bound; [apply seedSister_le|done].
  - apply seedSister_inv; [apply Hsub; by left|done|done].
Qed.

Lemma seedOrigin_inv startTime (c : CoreState) oid :
  inv (cs_originSet c) (cs_tau_best c) (cs_parent c) →
  let c' := seedOrigin transferIndex startTime c oid in
  inv (cs_originSet c') (cs_tau_best c') (cs_parent c').
Proof.
  intros Hinv. unfold seedOrigin. apply seedSisters_inv; [done|..]; simpl.
  - destruct (cs_tau_best c !! oid) as [old|] eqn:Hold; simpl.
    + destruct (Z.ltb_spec startTime old); simpl.
      * rewrite lookup_insert_eq. exists startTime. split; [done|lia].
      * rewrite Hold. exists old. split; [done|lia].
    + rewrite lookup_insert_eq. exists startTime. split; [done|lia].
  - destruct Hinv as (Hok & Harr & Hfrom).
    destruct (Js.inf_gt (cs_tau_best c !! oid) startTime) eqn:Hgt; simpl;
      [|by apply engineInv_origin].
    assert (tau_le (<[oid := startTime]> (cs_tau_best c)) (cs_tau_best c))
      as Hle.
    { apply tau_le_improve. by destruct (cs_tau_best c !! oid). }
    split; [done|]. split.
    + intros x q Hq Hx. rewrite lookup_insert_ne by set_solver.
      apply Harr; [done|set_solver].
    + intros x q Hq. eapply tau_le_bound; [exact Hle|by eapply Hfrom].
Qed.

Lemma raptorInit_inv originIds startTime :
  let c := raptorInit transferIndex originIds startTime in
  inv (cs_originSet c) (cs_tau_best c) (cs_parent c).
Proof.
  unfold raptorInit.
  assert (∀ c : CoreState,
            inv (cs_originSet c) (cs_tau_best c) (cs_parent c) →
            let c' := fold_left (seedOrigin transferIndex startTime)
                                originIds c in
            inv (cs_originSet c') (cs_tau_best c') (cs_parent c')) as Hfold.
  { induction originIds as [|o os IH]; intros c Hinv; simpl; [done|].
    by apply IH, seedOrigin_inv. }
  apply Hfold. simpl. split; [|split]; intros x q Hq;
    by rewrite lookup_empty in Hq.
Qed.

(** ** Trip scans *)

Lemma relaxArrival_inv O (r : TripRef) (n : nat) bs bd (st : StopTime) arr
      (s : ScanState) stop :
  r ∈ refsAt stt stop →
  stop_times (tr_trip r) !! n = Some st →
  readArr utcMonth (tr_trip r) st dateISO = Some arr →
  boardedOK utcMonth dateISO r n (Some (bs, bd)) (tauBest s) →
  scanInv O s →
  scanInv O (relaxArrival (tr_trip r) (tr_routeId r) bs bd (stop_id st) arr s).
Proof.
  intros Hr Hn Harr [Hb (i & sti & Hi & Hin & Hsti & Hbs & Hdep)] [Hinv Hcur].
  unfold relaxArrival.
  destruct (Js.lt_inf arr (tauBest s !! stop_id st)) eqn:Hlt; [|done].
  split; simpl.
  - apply engineInv_improve; [done|done|done| |done].
    exists stop, r, i, n, sti, st. done.
  - intros x v Hx. apply elem_of_oset in Hx as [[-> ->]|Hx].
    + rewrite lookup_insert_eq. exists arr. split; [done|lia].
    + eapply tau_le_bound; [by apply tau_le_improve|by apply Hcur].
Qed.

Lemma scanFrom_inv O (r : TripRef) stop (sts : list StopTime) :
  r ∈ refsAt stt stop →
  ∀ n boarded s,
    drop n (stop_times (tr_trip r)) = sts →
    (tr_idx r <= n)%nat →
    boardedOK utcMonth dateISO r n boarded (tauBest s) →
    scanInv O s →
    scanInv O (scanFrom utcMonth (tr_trip r) (tr_routeId r) dateISO sts
                        boarded s).
Proof.
  intros Hr. induction sts as [|st rest IH];
    intros n boarded s Hdrop Hidx Hb Hinv; simpl; [done|].
  assert (stop_times (tr_trip r) !! n = Some st) as Hn.
  { pose proof (lookup_drop (stop_times (tr_trip r)) n 0) as Hl.
    rewrite Hdrop, Nat.add_0_r in Hl. by rewrite <- Hl. }
  assert (drop (S n) (stop_times (tr_trip r)) = rest) as Hdrop'.
  { replace (S n) with (n + 1)%nat by lia.
    by rewrite <- drop_drop, Hdrop. }
  destruct boarded as [[bs bd]|].
  - destruct (readArr utcMonth (tr_trip r) st dateISO) as [arr|] eqn:Harr.
    + apply (IH (S n)); [done|lia| |by eapply relaxArrival_inv].
      destruct Hb as [Hbound (i & sti & ? & ? & ?)]. split.
      * eapply tau_le_bound; [apply relaxArrival_le|done].
      * exists i, sti. split; [done|]. split; [lia|done].
    + apply (IH (S n)); [done|lia| |done].
      destruct Hb as [Hbound (i & sti & ? & ? & ?)]. split; [done|].
      exists i, sti. split; [done|]. split; [lia|done].
  - apply (IH (S n)); [done|lia| |done].
    destruct (tauBest s !! stop_id st) as [tau|] eqn:Htau; [|done].
    destruct (readDep utcMonth (tr_trip r) st dateISO) as [dep|] eqn:Hdep;
      [|done].
    destruct (Z.leb_spec tau dep); [|done]. split.
    + exists tau. done.
    + exists n, st. split; [done|]. split; [lia|done].
Qed.

Lemma scanStop_inv O (s : ScanState) stop :
  scanInv O s → scanInv O (scanStop utcMonth stt dateISO s stop).
Proof.
  unfold scanStop. fold (refsAt stt stop).
  assert (∀ refs (s : ScanState),
            (∀ r, r ∈ refs → r ∈ refsAt stt stop) →
            scanInv O s →
            scanInv O
              (fold_left
                 (fun s r => scanTrip utcMonth (tr_trip r) (tr_idx r) s
                                      (tr_routeId r) dateISO) refs s))
    as Hfold.
  { induction refs as [|r refs IH]; intros s0 Hsub Hinv; simpl; [done|].
    apply IH; [intros r' Hr'; apply Hsub; by right|].
    unfold scanTrip.
    apply (scanFrom_inv O r stop _ (Hsub r ltac:(by left)) (tr_idx r));
      done. }
  intros Hinv. by apply Hfold.
Qed.

Lemma scanMarked_inv O marked (s : ScanState) :
  scanInv O s → scanInv O (scanMarked utcMonth stt dateISO marked s).
Proof.
  revert s. induction marked as [|stop marked IH]; intros s Hinv; simpl;
    [done|].
  by apply IH, scanStop_inv.
Qed.

(** ** Transfer relaxation *)

Lemma relaxSister_le sid arr (acc : ScanState * list string) e :
  tau_le (tauBest (relaxSister sid arr acc e).1) (tauBest acc.1).
Proof.
  destruct acc as [s nm]. unfold relaxSister.
  destruct (Js.lt_inf _ _) eqn:Hlt; simpl; [|apply tau_le_refl].
  by apply tau_le_improve.
Qed.

Lemma relaxSister_inv O sid arr (acc : ScanState * list string) e :
  e ∈ transferEntries transferIndex sid →
  (∃ a, tauBest acc.1 !! sid = Some a ∧ a <= arr) →
  inv O (tauBest acc.1) (parent acc.1) →
  inv O (tauBest (relaxSister sid arr acc e).1)
        (parent (relaxSister sid arr acc e).1).
Proof.
  intros He Hb Hinv. destruct acc as [s nm]. unfold relaxSister.
  destruct (Js.lt_inf _ _) eqn:Hlt; simpl; [|done].
  apply engineInv_improve; [done|done|done| |done].
  exists e. done.
Qed.

Lemma relaxSisters_inv O sid arr entries :
  ∀ acc : ScanState * list string,
    (∀ e, e ∈ entries → e ∈ transferEntries transferIndex sid) →
    (∃ a, tauBest acc.1 !! sid = Some a ∧ a <= arr) →
    inv O (tauBest acc.1) (parent acc.1) →
    let acc' := fold_left (relaxSister sid arr) entries acc in
    inv O (tauBest acc'.1) (parent acc'.1)
    ∧ tau_le (tauBest acc'.1) (tauBest acc.1).
Proof.
  induction entries as [|e entries IH]; intros acc Hsub Hb Hinv; simpl.
  - split; [done|apply tau_le_refl].
  - destruct (IH (relaxSister sid arr acc e)) as [Hinv' Hle'].
    + intros e' He'. apply Hsub. by right.
    + eapply tau_le_bound; [apply relaxSister_le|done].
    + apply relaxSister_inv; [apply Hsub; by left|done|done].
    + split; [done|]. eapply tau_le_trans; [exact Hle'|apply relaxSister_le].
Qed.

Lemma relaxEntry_inv O tau_prev (acc : ScanState * list string) sid arr :
  (∃ a, tauBest acc.1 !! sid = Some a ∧ a <= arr) →
  inv O (tauBest acc.1) (parent acc.1) →
  let acc' := relaxEntry transferIndex tau_prev acc (sid, arr) in
  inv O (tauBest acc'.1) (parent acc'.1)
  ∧ tau_le (tauBest acc'.1) (tauBest acc.1).
Proof.
  intros Hb Hinv. unfold relaxEntry.
  set (acc1 := if Js.lt_inf arr (tau_prev !! sid)
               then (acc.1, Js.set_add sid acc.2) else acc).
  assert (acc1.1 = acc.1) as H1 by (unfold acc1; by destruct (Js.lt_inf _ _)).
  rewrite <- H1 in Hb, Hinv |- *.
  by apply relaxSisters_inv.
Qed.

Lemma relaxTransfers_fold_inv O tau_prev (cur : list (string * Z)) :
  ∀ acc : ScanState * list string,
    curOK (tauBest acc.1) cur →
    inv O (tauBest acc.1) (parent acc.1) →
    let acc' := fold_left (relaxEntry transferIndex tau_prev) cur acc in
    inv O (tauBest acc'.1) (parent acc'.1)
    ∧ tau_le (tauBest acc'.1) (tauBest acc.1).
Proof.
  induction cur as [|[sid arr] cur IH]; intros acc Hcur Hinv; simpl.
  - split; [done|apply tau_le_refl].
  - destruct (relaxEntry_inv O tau_prev acc sid arr) as [Hinv1 Hle1];
      [apply Hcur; by left|done|].
    destruct (IH (relaxEntry transferIndex tau_prev acc (sid, arr)))
      as [Hinv2 Hle2]; [|done|].
    + eapply curOK_le; [exact Hle1|]. intros x v Hx. apply Hcur. by right.
    + split; [done|]. by eapply tau_le_trans.
Qed.

Lemma relaxTransfers_inv O tau_prev (s : ScanState) :
  scanInv O s →
  let acc' := relaxTransfers transferIndex tau_prev s in
  inv O (tauBest acc'.1) (parent acc'.1)
  ∧ tau_le (tauBest acc'.1) (tauBest s).
Proof.
  intros [Hinv Hcur]. unfold relaxTransfers.
  by apply (relaxTransfers_fold_inv O tau_prev (tauCur s) (s, [])).
Qed.

(** ** Labels only improve *)

Lemma scanFrom_le trip routeId (sts : list StopTime) :
  ∀ boarded (s : ScanState),
    tau_le (tauBest (scanFrom utcMonth trip routeId dateISO sts boarded s))
           (tauBest s).
Proof.
  induction sts as [|st rest IH]; intros boarded s; simpl;
    [apply tau_le_refl|].
  destruct boarded as [[bs bd]|]; [|apply IH].
  destruct (readArr utcMonth trip st dateISO) as [arr|]; [|apply IH].
  eapply tau_le_trans; [apply IH|apply relaxArrival_le].
Qed.

Lemma scanStop_le (s : ScanState) stop :
  tau_le (tauBest (scanStop utcMonth stt dateISO s stop)) (tauBest s).
Proof.
  unfold scanStop. generalize (default [] (stt !! stop)). intros refs.
  revert s. induction refs as [|r refs IH]; intros s; simpl;
    [apply tau_le_refl|].
  eapply tau_le_trans; [apply IH|apply scanFrom_le].
Qed.

Lemma scanMarked_le marked (s : ScanState) :
  tau_le (tauBest (scanMarked utcMonth stt dateISO marked s)) (tauBest s).
Proof.
  revert s. induction marked as [|stop marked IH]; intros s; simpl;
    [apply tau_le_refl|].
  eapply tau_le_trans; [apply IH|apply scanStop_le].
Qed.

(** ** The back-walk *)

Lemma lastToOf_cons (l l' : Leg) (legs : list Leg) :
  lastToOf (l :: l' :: legs) = lastToOf (l' :: legs).
Proof. done. Qed.

Lemma walkBack_sound O tau par destId :
  inv O tau par →
  ∀ fuel current visited legs res,
    walkInv transferIndex utcMonth stt dateISO tau destId current legs →
    walkBack detectUnstored fuel par O current visited legs = Some res →
    Forall (rideLeg utcMonth stt dateISO) res
    ∧ Sorted (feasible transferIndex) res
    ∧ match res with
      | [] => True
      | first :: _ =>
          (∃ o d, o ∈ O ∧ walks transferIndex o (leg_from_id first) d)
          ∧ ∃ d, walks transferIndex (lastToOf res) destId d
      end.
Proof.
  intros (Hok & Harr & Hfrom).
  induction fuel as [|fuel IH]; intros current visited legs res Hw Hres;
    simpl in Hres.
  - destruct (decide (current ∈ O)) as [HO|]; [|done].
    injection Hres as <-. destruct Hw as (Hrides & Hsorted & Hends).
    split; [done|]. split; [done|].
    destruct legs as [|first legs]; [done|].
    destruct Hends as [(a & d & _ & Hd & _) Hlast]. split; [|done].
    by exists current, d.
  - destruct (decide (current ∈ O)) as [HO|HO].
    { injection Hres as <-. destruct Hw as (Hrides & Hsorted & Hends).
      split; [done|]. split; [done|].
      destruct legs as [|first legs]; [done|].
      destruct Hends as [(a & d & _ & Hd & _) Hlast]. split; [|done].
      by exists current, d. }
    destruct (decide (current ∈ visited)); [done|].
    destruct (par !! current) as [p|] eqn:Hp; [|done].
    pose proof (Hok _ _ Hp) as Hpok.
    pose proof (Harr _ _ Hp HO) as Hlabel.
    pose proof (Hfrom _ _ Hp) as (a' & Ha' & Hle').
    destruct Hw as (Hrides & Hsorted & Hends).
    destruct p as [from tid rid dep arr stored pop|from dw t];
      simpl in Hpok, Hlabel, Ha', Hle'.
    + eapply IH; [|exact Hres]. split; [|split].
      * constructor; [exact Hpok|done].
      * constructor; [done|].
        destruct legs as [|first legs]; constructor.
        destruct Hends as [(a & d & Ha & Hd & Hle) _].
        exists d. simpl. split; [done|].
        rewrite Hlabel in Ha. injection Ha as <-. done.
      * split.
        -- exists a', 0. simpl. split; [done|]. split; [constructor|lia].
        -- destruct legs as [|first legs]; [done|].
           rewrite lastToOf_cons. by destruct Hends.
    + destruct Hpok as (e & He & Hid & Ht).
      eapply IH; [|exact Hres]. split; [done|]. split; [done|].
      destruct legs as [|first legs].
      * destruct Hends as [d Hd]. exists (transferTime from e + d).
        apply (walks_step transferIndex from destId d e); [done|].
        by rewrite Hid.
      * destruct Hends as [(a & d & Ha & Hd & Hle) Hlast]. split; [|done].
        exists a', (transferTime from e + d). split; [done|]. split.
        -- apply (walks_step transferIndex from _ d e); [done|].
           by rewrite Hid.
        -- rewrite Hlabel in Ha. injection Ha as <-. lia.
Qed.

Lemma reconstructJourney_sound O tau par destId j :
  inv O tau par →
  reconstructJourney detectUnstored par O destId = Some j →
  journeySound transferIndex utcMonth stt dateISO O destId j.
Proof.
  intros Hinv. unfold reconstructJourney.
  destruct (walkBack _ _ _ _ _ _ _) as [legs|] eqn:Hwalk; [|done].
  intros Hj.
  destruct (walkBack_sound O tau par destId Hinv _ _ _ _ _
              ltac:(split; [constructor|split; [constructor|
                      exists 0; constructor]]) Hwalk)
    as (Hrides & Hsorted & Hends).
  destruct legs as [|first legs]; [done|].
  assert (j_legs j = first :: legs) as Hlegs by (by injection Hj as <-).
  unfold journeySound, lastStopOf. rewrite Hlegs.
  destruct Hends as [(o & d & Ho & Hd) Hlast].
  split; [done|]. split; [done|]. split; [|done].
  by exists first, o, d.
Qed.

(** ** Rounds *)

Local Abbreviation rInv := (roundInv transferIndex utcMonth stt dateISO).

Lemma collectDest_sound O destIds tau_prev (s : ScanState) dests :
  inv O (tauBest s) (parent s) →
  (∀ d, d ∈ dests → destOK destIds d) →
  ∀ results,
    Forall (fun j => ∃ did, destOK destIds did
                            ∧ journeySound transferIndex utcMonth stt dateISO
                                           O did j) results →
    Forall (fun j => ∃ did, destOK destIds did
                            ∧ journeySound transferIndex utcMonth stt dateISO
                                           O did j)
      (fold_left (collectDest detectUnstored tau_prev s O) dests results).
Proof.
  intros Hinv. induction dests as [|d dests IH]; intros Hd results Hres;
    simpl; [done|].
  apply IH; [intros d' Hd'; apply Hd; by right|].
  unfold collectDest. destruct (oget d (tauCur s)); [|done].
  destruct (Js.lt_inf _ _); [|done].
  destruct (reconstructJourney _ _ _ _) as [j|] eqn:Hj; [|done].
  destruct (existsb _ _); [done|].
  apply Forall_app. split; [done|]. apply Forall_singleton.
  exists d. split; [apply Hd; by left|].
  by eapply reconstructJourney_sound.
Qed.

Lemma collectAny_sound O tau_prev (s : ScanState) entries :
  inv O (tauBest s) (parent s) →
  ∀ acc : list Journey * gset string,
    Forall (fun j => ∃ did, destOK None did
                            ∧ journeySound transferIndex utcMonth stt dateISO
                                           O did j) acc.1 →
    Forall (fun j => ∃ did, destOK None did
                            ∧ journeySound transferIndex utcMonth stt dateISO
                                           O did j)
      (fold_left (collectAny detectUnstored tau_prev s O) entries acc).1.
Proof.
  intros Hinv. induction entries as [|[sid a] entries IH];
    intros [results collected] Hres; simpl; [done|].
  apply IH. simpl in Hres.
  destruct (decide _); [done|].
  destruct (oget sid (tauCur s)); [|done].
  destruct (Js.lt_inf _ _); [|done].
  destruct (reconstructJourney _ _ _ _) as [j|] eqn:Hj; [|done].
  simpl. apply Forall_app. split; [done|]. apply Forall_singleton.
  exists sid. split; [done|]. by eapply reconstructJourney_sound.
Qed.

Lemma raptorRound_sound O destIds (r : RoundState) :
  rInv O destIds r →
  let r' := raptorRound transferIndex utcMonth detectUnstored stt dateISO O
                        destIds r in
  rInv O destIds r' ∧ tau_le (rs_tau_best r') (rs_tau_best r).
Proof.
  intros [Hinv Hres]. unfold raptorRound.
  set (s1 := scanMarked utcMonth stt dateISO (rs_marked r)
               (mkScan (rs_tau_best r) [] (rs_parent r))).
  assert (scanInv O s1) as Hs1.
  { apply scanMarked_inv. split; [done|].
    intros x v Hx. by apply elem_of_nil in Hx. }
  assert (tau_le (tauBest s1) (rs_tau_best r)) as Hle1
    by apply scanMarked_le.
  destruct (relaxTransfers_inv O (rs_tau_best r) s1 Hs1) as [Hinv2 Hle2].
  destruct (relaxTransfers transferIndex (rs_tau_best r) s1)
    as [s2 newMarked].
  simpl in Hinv2, Hle2.
  assert (tau_le (tauBest s2) (rs_tau_best r)) as Hle
    by (by eapply tau_le_trans).
  destruct destIds as [dests|].
  - split; [|done]. split; [done|].
    apply (collectDest_sound O (Some dests) (rs_tau_best r) s2 (uniq dests));
      [done| |done].
    intros d Hd. simpl. by apply uniq_elem.
  - pose proof (collectAny_sound O (rs_tau_best r) s2 (tauCur s2) Hinv2
                  (rs_results r, rs_collected r) Hres) as Hany.
    destruct (fold_left _ _ _) as [results collected]. simpl. done.
Qed.

Lemma raptorRounds_sound O destIds rounds :
  ∀ r : RoundState,
    rInv O destIds r →
    rInv O destIds
      (raptorRounds transferIndex utcMonth detectUnstored rounds stt dateISO
                    O destIds r).
Proof.
  induction rounds as [|rounds IH]; intros r Hr; [done|].
  cbn [raptorRounds].
  destruct (raptorRound_sound O destIds r Hr) as [Hr' _].
  destruct (rs_marked _); [done|by apply IH].
Qed.

Lemma raptorCore_sound originIds destIds startTime :
  Forall (fun j =>
            ∃ did, destOK destIds did
                   ∧ journeySound transferIndex utcMonth stt dateISO
                       (cs_originSet
                          (raptorInit transferIndex originIds startTime))
                       did j)
    (raptorCore transferIndex utcMonth detectUnstored originIds destIds
                startTime stt dateISO).
Proof.
  unfold raptorCore.
  apply (raptorRounds_sound
           (cs_originSet (raptorInit transferIndex originIds startTime))
           destIds MAX_ROUNDS).
  split; [apply raptorInit_inv|constructor].
Qed.

End EngineInvariant.

(** ** Consequences for the journeys returned by raptorCore *)

Lemma walks_trans transferIndex a b c d1 d2 :
  walks transferIndex a b d1 → walks transferIndex b c d2 →
  walks transferIndex a c (d1 + d2).
Proof.
  intros H1 H2. induction H1 as [a|a b d e He H1 IH]; simpl; [done|].
  rewrite <- Z.add_assoc. by apply (walks_step transferIndex a c (d + d2) e),
    IH.
Qed.

Lemma originLike_walks transferIndex originIds x :
  originLike transferIndex originIds x →
  ∃ oid d, oid ∈ originIds ∧ walks transferIndex oid x d.
Proof.
  intros [Hx|(oid & e & Ho & He & <- & _)].
  - exists x, 0. split; [done|constructor].
  - exists oid, (transferTime oid e + 0). split; [done|].
    apply (walks_step transferIndex oid (te_id e) 0 e); [done|constructor].
Qed.

(** X11. Every leg of every journey returned by [raptorCore] is a ride of
    the timetable: an indexed trip with the leg's trip and route
    identifiers calls at the leg's boarding stop, where [scanTrip] reads
    the leg's departure time, and at a later position at the leg's
    alighting stop, where it reads the leg's arrival time.  Walks never
    appear as legs. *)
Theorem X11_legs_are_timetable_rides
        (transferIndex : gmap string (list RawTransfer))
        (utcMonth : string → option Z)
        (detectUnstored : string → string → string → string → string)
        (originIds : list string) (destIds : option (list string))
        (startTime : Z) (stt : gmap string (list TripRef))
        (dateISO : string) :
  Forall (fun j => Forall (rideLeg utcMonth stt dateISO) (j_legs j))
    (raptorCore transferIndex utcMonth detectUnstored originIds destIds
                startTime stt dateISO).
Proof.
  eapply Forall_impl; [apply raptorCore_sound|].
  by intros j (did & _ & Hrides & _).
Qed.

(** X12. In every journey returned by [raptorCore] each leg can be boarded
    after the previous one: the boarding stop of a leg is the alighting
    stop of the previous leg or is reached from it along edges of the
    transfer index, and the previous arrival time plus the transfer times
    of those edges is not later than the departure of the leg. *)
Theorem X12_connections_are_feasible
        (transferIndex : gmap string (list RawTransfer))
        (utcMonth : string → option Z)
        (detectUnstored : string → string → string → string → string)
        (originIds : list string) (destIds : option (list string))
        (startTime : Z) (stt : gmap string (list TripRef))
        (dateISO : string) :
  Forall (fun j => Sorted (feasible transferIndex) (j_legs j))
    (raptorCore transferIndex utcMonth detectUnstored originIds destIds
                startTime stt dateISO).
Proof.
  eapply Forall_impl; [apply raptorCore_sound|].
  by intros j (did & _ & _ & Hsorted & _).
Qed.

(** X13. A journey returned by [raptorCore] for a list of destinations
    starts and ends where it was asked to, up to transfers: its first leg
    is boarded at a stop reached from a requested origin along edges of the
    transfer index (none, or more), and its last leg ends at a stop from
    which a requested destination is reached along such edges. *)
Theorem X13_journey_endpoints
        (transferIndex : gmap string (list RawTransfer))
        (utcMonth : string → option Z)
        (detectUnstored : string → string → string → string → string)
        (originIds destIds : list string)
        (startTime : Z) (stt : gmap string (list TripRef))
        (dateISO : string) :
  Forall (fun j =>
            (∃ first oid d, head (j_legs j) = Some first ∧ oid ∈ originIds
                            ∧ walks transferIndex oid (leg_from_id first) d)
            ∧ ∃ did d, did ∈ destIds
                       ∧ walks transferIndex (lastStopOf j) did d)
    (raptorCore transferIndex utcMonth detectUnstored originIds
                (Some destIds) startTime stt dateISO).
Proof.
  eapply Forall_impl; [apply raptorCore_sound|].
  intros j (did & Hdid & _ & _ & (first & o & d & Hhead & Ho & Hd) & (d' & Hd')).
  split; [|by exists did, d'].
  apply raptorInit_originSet, originLike_walks in Ho as (oid & d0 & Hoid & Hd0).
  exists first, oid, (d0 + d). split; [done|]. split; [done|].
  by eapply walks_trans.
Qed.

Section RoundLabels.
Variable transferIndex  : gmap string (list RawTransfer).
Variable utcMonth       : string → option Z.
Variable detectUnstored : string → string → string → string → string.

Lemma relaxSisters_le sid arr entries (acc : ScanState * list string) :
  tau_le (tauBest (fold_left (relaxSister sid arr) entries acc).1)
         (tauBest acc.1).
Proof.
  revert acc. induction entries as [|e entries IH]; intros acc; simpl;
    [apply tau_le_refl|].
  eapply tau_le_trans; [apply IH|apply relaxSister_le].
Qed.

Lemma relaxTransfers_le tau_prev (s : ScanState) :
  tau_le (tauBest (relaxTransfers transferIndex tau_prev s).1) (tauBest s).
Proof.
  unfold relaxTransfers.
  assert (∀ cur (acc : ScanState * list string),
            tau_le (tauBest (fold_left (relaxEntry transferIndex tau_prev)
                                       cur acc).1)
                   (tauBest acc.1)) as Hfold.
  { induction cur as [|[sid arr] cur IH]; intros acc; simpl;
      [apply tau_le_refl|].
    eapply tau_le_trans; [apply IH|]. unfold relaxEntry.
    eapply tau_le_trans; [apply relaxSisters_le|].
    destruct (Js.lt_inf _ _); apply tau_le_refl. }
  apply (Hfold (tauCur s) (s, [])).
Qed.

Lemma raptorRound_le stt dateISO O destIds (r : RoundState) :
  tau_le (rs_tau_best (raptorRound transferIndex utcMonth detectUnstored stt
                                   dateISO O destIds r))
         (rs_tau_best r).
Proof.
  unfold raptorRound.
  set (s1 := scanMarked utcMonth stt dateISO (rs_marked r)
               (mkScan (rs_tau_best r) [] (rs_parent r))).
  pose proof (relaxTransfers_le (rs_tau_best r) s1) as Hle2.
  pose proof (scanMarked_le utcMonth stt dateISO (rs_marked r)
                (mkScan (rs_tau_best r) [] (rs_parent r))) as Hle1.
  fold s1 in Hle1. simpl in Hle1.
  destruct (relaxTransfers transferIndex (rs_tau_best r) s1)
    as [s2 newMarked]. simpl in Hle2.
  assert (tau_le (tauBest s2) (rs_tau_best r)) as Hle
    by (by eapply tau_le_trans).
  destruct destIds as [dests|]; [done|].
  by destruct (fold_left _ _ _).
Qed.

Lemma originSet_sisters startTime oid entries (c : CoreState) x :
  (x ∈ cs_originSet c
   ∨ ∃ e, e ∈ entries ∧ te_id e = x ∧ te_interCity e = false) →
  x ∈ cs_originSet (fold_left (seedSister startTime oid) entries c).
Proof.
  revert c. induction entries as [|e entries IH]; intros c Hx; simpl.
  - destruct Hx as [?|(e & He & _)]; [done|]. by apply elem_of_nil in He.
  - apply IH.
    assert (cs_originSet c ⊆ cs_originSet (seedSister startTime oid c e))
      as Hsub.
    { unfold seedSister. destruct (Js.lt_inf _ _), (negb _); simpl;
        set_solver. }
    destruct Hx as [Hx|(e' & He' & Hid & Hic)]; [left; by apply Hsub|].
    apply elem_of_cons in He' as [->|He']; [|right; by exists e'].
    left. unfold seedSister. rewrite Hic. simpl. rewrite Hid.
    destruct (Js.lt_inf _ _); simpl; set_solver.
Qed.

Lemma originSet_origins startTime originIds (c : CoreState) x :
  (x ∈ cs_originSet c ∨ originLike transferIndex originIds x) →
  x ∈ cs_originSet (fold_left (seedOrigin transferIndex startTime)
                              originIds c).
Proof.
  revert c. induction originIds as [|o os IH]; intros c Hx; simpl.
  - destruct Hx as [?|[Hx|(oid & e & Ho & _)]]; [done|..];
      [by apply elem_of_nil in Hx|by apply elem_of_nil in Ho].
  - apply IH.
    assert (cs_originSet c ⊆ cs_originSet (seedOrigin transferIndex startTime
                                                      c o)) as Hsub.
    { intros y Hy. unfold seedOrigin. apply originSet_sisters. left. simpl.
      destruct (Js.inf_gt _ _); set_solver. }
    assert (o ∈ cs_originSet (seedOrigin transferIndex startTime c o)) as Ho.
    { unfold seedOrigin. apply originSet_sisters. left. simpl. set_solver. }
    destruct Hx as [Hx|[Hx|(oid & e & Hoid & He & Hid & Hic)]].
    + left. by apply Hsub.
    + apply elem_of_cons in Hx as [->|Hx]; [by left|]. right. by left.
    + apply elem_of_cons in Hoid as [->|Hoid].
      * left. unfold seedOrigin. apply originSet_sisters. right. by exists e.
      * right. right. by exists oid, e.
Qed.

Lemma raptorInit_originLike startTime originIds x :
  originLike transferIndex originIds x →
  x ∈ cs_originSet (raptorInit transferIndex originIds startTime).
Proof. intros Hx. apply originSet_origins. by right. Qed.

Lemma collectDest_origin tau_prev (s : ScanState) (O : gset string) dests :
  (∀ d, d ∈ dests → d ∈ O) →
  ∀ results,
    fold_left (collectDest detectUnstored tau_prev s O) dests results
    = results.
Proof.
  induction dests as [|d dests IH]; intros Hd results; simpl; [done|].
  rewrite <- (IH (fun d' Hd' => Hd d' ltac:(by right)) results) at 2.
  f_equal. unfold collectDest. destruct (oget d (tauCur s)); [|done].
  destruct (Js.lt_inf _ _); [|done].
  unfold reconstructJourney. simpl.
  by rewrite decide_True by (apply Hd; by left).
Qed.

Lemma raptorRounds_origin stt dateISO O dests rounds :
  (∀ d, d ∈ dests → d ∈ O) →
  ∀ r : RoundState,
    rs_results (raptorRounds transferIndex utcMonth detectUnstored rounds stt
                             dateISO O (Some dests) r)
    = rs_results r.
Proof.
  intros Hd. induction rounds as [|rounds IH]; intros r; [done|].
  cbn [raptorRounds].
  assert (rs_results (raptorRound transferIndex utcMonth detectUnstored stt
                                  dateISO O (Some dests) r) = rs_results r)
    as Hr.
  { unfold raptorRound. destruct (relaxTransfers _ _ _) as [s2 newMarked].
    simpl. apply collectDest_origin. intros d Hin. apply Hd.
    by apply uniq_elem. }
  destruct (rs_marked _); [done|]. by rewrite IH.
Qed.

End RoundLabels.

(** X14. A round of [raptorCore] never removes nor worsens a label: every
    stop that had an arrival time before the round still has one after it,
    and it is not later. *)
Theorem X14_round_only_improves_labels
        (transferIndex : gmap string (list RawTransfer))
        (utcMonth : string → option Z)
        (detectUnstored : string → string → string → string → string)
        (stt : gmap string (list TripRef)) (dateISO : string)
        (originSet : gset string) (destIds : option (list string))
        (r : RoundState) :
  tau_le (rs_tau_best (raptorRound transferIndex utcMonth detectUnstored stt
                                   dateISO originSet destIds r))
         (rs_tau_best r).
Proof. apply raptorRound_le. Qed.

(** X15. When every requested destination is itself a requested origin, or
    a neighbour of one by an edge that is not tagged inter-city,
    [raptorCore] returns no journey at all: a search between the stops of
    one station finds nothing. *)
Theorem X15_no_journey_within_origin_set
        (transferIndex : gmap string (list RawTransfer))
        (utcMonth : string → option Z)
        (detectUnstored : string → string → string → string → string)
        (originIds destIds : list string) (startTime : Z)
        (stt : gmap string (list TripRef)) (dateISO : string) :
  (∀ d, d ∈ destIds → originLike transferIndex originIds d) →
  raptorCore transferIndex utcMonth detectUnstored originIds (Some destIds)
             startTime stt dateISO = [].
Proof.
  intros Hd. unfold raptorCore.
  rewrite raptorRounds_origin; [done|].
  intros d Hin. by apply raptorInit_originLike, Hd.
Qed.

(** From O, whose neighbour X is a stop of the two-leg timetable, nothing is
    found to X although a trip runs from O to X. *)
Lemma X15_no_journey_witness :
  (∀ d, d ∈ ["SNCF:X"] →
        originLike (<["SNCF:O" := [RawId "SNCF:X"]]> ∅) ["SNCF:O"] d)
  ∧ raptorCore (<["SNCF:O" := [RawId "SNCF:X"]]> ∅) isoMonth fallbackType
               ["SNCF:O"] (Some ["SNCF:X"]) 0
               (buildStopToTrips twoLegTrips) "" = [].
Proof.
  assert (∀ d, d ∈ ["SNCF:X"] →
               originLike (<["SNCF:O" := [RawId "SNCF:X"]]> ∅) ["SNCF:O"] d)
    as Hd.
  { intros d Hin. apply list_elem_of_singleton in Hin as ->. right.
    exists "SNCF:O", (mkEntry "SNCF:X" false).
    split; [by left|]. split; [|done].
    unfold transferEntries. rewrite lookup_insert_eq. simpl. by left. }
  split; [exact Hd|].
  exact (X15_no_journey_within_origin_set
           (<["SNCF:O" := [RawId "SNCF:X"]]> ∅) isoMonth fallbackType
           ["SNCF:O"] ["SNCF:X"] 0 (buildStopToTrips twoLegTrips) "" Hd).
Defined.

(* ===================================================================== *)
(** * Reading a CSV line (gtfs-ingest.js) *)
(* ===================================================================== *)

Lemma str_app_assoc (a b c : string) : (a +:+ b) +:+ c = a +:+ (b +:+ c).
Proof.
  induction a as [|x a IH]; [done|].
  change (String x ((a +:+ b) +:+ c) = String x (a +:+ (b +:+ c))).
  by f_equal.
Qed.

Lemma str_app_nil_r (a : string) : a +:+ "" = a.
Proof.
  induction a as [|x a IH]; [done|].
  change (String x (a +:+ "") = String x a). by f_equal.
Qed.

Lemma hasChar_app (c : ascii) (a b : string) :
  hasChar c (a +:+ b) = hasChar c a || hasChar c b.
Proof.
  induction a as [|x a IH]; simpl; [done|]. by rewrite IH, orb_assoc.
Qed.

(** Characters that are neither quote nor separator are appended to the
    current field. *)
Lemma parseCSVFrom_content (s rest cur : string) (inQ : bool)
      (result : list string) :
  hasChar dquote s = false →
  (inQ = false → hasChar comma s = false) →
  parseCSVFrom (s +:+ rest) cur inQ result
  = parseCSVFrom rest (cur +:+ s) inQ result.
Proof.
  revert cur. induction s as [|c s IH]; intros cur Hq Hc; simpl.
  - by rewrite str_app_nil_r.
  - simpl in Hq. apply orb_false_iff in Hq as [Hq1 Hq2].
    apply bool_decide_eq_false in Hq1.
    rewrite decide_False by done.
    assert (bool_decide (c = comma) && negb inQ = false) as ->.
    { destruct inQ; [by rewrite andb_false_r|].
      specialize (Hc eq_refl). simpl in Hc.
      apply orb_false_iff in Hc as [-> _]. done. }
    rewrite IH; [|done|].
    + by rewrite str_app_assoc.
    + intros HinQ. specialize (Hc HinQ). simpl in Hc.
      by apply orb_false_iff in Hc as [_ ?].
Qed.

Lemma parseCSVFrom_cell (cell : bool * string) (rest cur : string)
      (result : list string) :
  cellOK cell →
  parseCSVFrom (renderCell cell +:+ rest) cur false result
  = parseCSVFrom rest (cur +:+ snd cell) false result.
Proof.
  intros [Hq Hc]. destruct cell as [[|] s]; unfold renderCell; simpl in *.
  - by rewrite str_app_assoc, parseCSVFrom_content by done.
  - by apply parseCSVFrom_content.
Qed.

Lemma parseCSVFrom_cells (cells : list (bool * string)) :
  cells ≠ [] → Forall cellOK cells →
  ∀ result,
    parseCSVFrom (Js.join "," (renderCell <$> cells)) "" false result
    = result ++ (snd <$> cells).
Proof.
  induction cells as [|cell cells IH]; intros Hne Hok result; [done|].
  apply Forall_cons in Hok as [Hcell Hok].
  destruct cells as [|cell' cells].
  - simpl. rewrite <- (str_app_nil_r (renderCell cell)).
    by rewrite parseCSVFrom_cell.
  - change (Js.join "," (renderCell <$> cell :: cell' :: cells))
      with (renderCell cell +:+ "," +:+ Js.join "," (renderCell <$> cell' :: cells)).
    rewrite parseCSVFrom_cell by done.
    change ("," +:+ Js.join "," (renderCell <$> cell' :: cells))
      with (String comma (Js.join "," (renderCell <$> cell' :: cells))).
    cbn [parseCSVFrom]. rewrite decide_False by done.
    rewrite bool_decide_eq_true_2 by done. cbn [andb negb].
    rewrite IH by done. simpl. by rewrite <- app_assoc.
Qed.

(** X16. Reading back a written CSV line gives the cells that were
    written: for a non-empty list of cells, none of which contains a double
    quote and of which those holding a comma are wrapped in double quotes,
    [parseCSVLine] applied to the cells joined by commas returns their
    contents, in order. *)
Theorem X16_csv_line_round_trip (cells : list (bool * string)) :
  cells ≠ [] → Forall cellOK cells →
  parseCSVLine (Js.join "," (renderCell <$> cells)) = snd <$> cells.
Proof.
  intros Hne Hok. unfold parseCSVLine. by rewrite parseCSVFrom_cells.
Qed.

Lemma X16_csv_line_witness :
  [(false, "87686006"); (true, "Paris, Gare de Lyon"); (false, "")] ≠ []
  ∧ Forall cellOK
      [(false, "87686006"); (true, "Paris, Gare de Lyon"); (false, "")]
  ∧ parseCSVLine
      (Js.join ","
         (renderCell <$>
            [(false, "87686006"); (true, "Paris, Gare de Lyon"); (false, "")]))
    = snd <$> [(false, "87686006"); (true, "Paris, Gare de Lyon"); (false, "")].
Proof.
  assert (Forall cellOK
            [(false, "87686006"); (true, "Paris, Gare de Lyon"); (false, "")])
    as Hok.
  { repeat (apply Forall_cons; split; [split; [reflexivity|]; simpl;
              (reflexivity || discriminate || (intros _; reflexivity))|]).
    constructor. }
  split; [discriminate|]. split; [exact Hok|].
  exact (X16_csv_line_round_trip
           [(false, "87686006"); (true, "Paris, Gare de Lyon"); (false, "")]
           ltac:(discriminate) Hok).
Defined.

(** Fields never hold a double quote. *)
Lemma parseCSVFrom_no_quote (line : string) :
  ∀ cur inQ result,
    hasChar dquote cur = false →
    Forall (fun f => hasChar dquote f = false) result →
    Forall (fun f => hasChar dquote f = false)
           (parseCSVFrom line cur inQ result).
Proof.
  induction line as [|c line IH]; intros cur inQ result Hcur Hres; simpl.
  - apply Forall_app. split; [done|]. by apply Forall_singleton.
  - destruct (decide (c = dquote)) as [->|Hc]; [by apply IH|].
    destruct (bool_decide (c = comma) && negb inQ).
    + apply IH; [done|]. apply Forall_app. split; [done|].
      by apply Forall_singleton.
    + apply IH; [|done]. rewrite hasChar_app, Hcur. simpl.
      by rewrite bool_decide_eq_false_2.
Qed.

Lemma parseCSVFrom_length (line : string) :
  ∀ cur inQ result,
    (length result < length (parseCSVFrom line cur inQ result))%nat.
Proof.
  induction line as [|c line IH]; intros cur inQ result; simpl.
  - rewrite length_app. simpl. lia.
  - destruct (decide (c = dquote)); [apply IH|].
    destruct (bool_decide (c = comma) && negb inQ); [|apply IH].
    specialize (IH "" inQ (result ++ [cur])). rewrite length_app in IH.
    simpl in IH. lia.
Qed.

(** X17. [parseCSVLine] always returns at least one field, and no field it
    returns contains a double quote: quotes are dropped wherever they
    stand, a doubled quote inside a quoted field included. *)
Theorem X17_csv_fields_have_no_quote (line : string) :
  parseCSVLine line ≠ []
  ∧ Forall (fun f => hasChar dquote f = false) (parseCSVLine line).
Proof.
  unfold parseCSVLine. split.
  - pose proof (parseCSVFrom_length line "" false []) as Hlen.
    intros Hnil. rewrite Hnil in Hlen. simpl in Hlen. lia.
  - by apply parseCSVFrom_no_quote.
Qed.

(* ===================================================================== *)
(** * Clock strings *)
(* ===================================================================== *)

Lemma padStart_decimal (n : Z) :
  0 <= n < 100 → padStart 2 "0" (decimalOf n) = twoDigits n.
Proof.
  intros Hn.
  assert (forallb (fun k => bool_decide
                              (padStart 2 "0" (decimalOf (Z.of_nat k))
                               = twoDigits (Z.of_nat k)))
                  (seq 0 100) = true) as Hall by (vm_compute; reflexivity).
  rewrite forallb_forall in Hall.
  specialize (Hall (Z.to_nat n)). rewrite Z2Nat.id in Hall by lia.
  eapply bool_decide_eq_true_1, Hall, in_seq. lia.
Qed.

Lemma twoDigits_spec (n : Z) :
  0 <= n < 100 →
  Js.all_chars Js.is_digit (twoDigits n) = true
  ∧ digitsValue (twoDigits n) = n.
Proof.
  intros Hn.
  assert (forallb (fun k => Js.all_chars Js.is_digit (twoDigits (Z.of_nat k))
                            && bool_decide
                                 (digitsValue (twoDigits (Z.of_nat k))
                                  = Z.of_nat k))
                  (seq 0 100) = true) as Hall by (vm_compute; reflexivity).
  rewrite forallb_forall in Hall.
  specialize (Hall (Z.to_nat n)). rewrite Z2Nat.id in Hall by lia.
  assert (In (Z.to_nat n) (seq 0 100)) as Hin by (apply in_seq; lia).
  apply Hall, andb_true_iff in Hin as [H1 H2].
  by apply bool_decide_eq_true in H2.
Qed.

Lemma is_digit_not_colon (c : ascii) :
  Js.is_digit c = true → c ≠ ":"%char.
Proof. intros Hd ->. vm_compute in Hd. discriminate. Qed.

(** Characters other than the separator are appended to the current
    piece. *)
Lemma splitFrom_digits (a rest cur : string) :
  Js.all_chars Js.is_digit a = true →
  splitFrom ":" (a +:+ rest) cur = splitFrom ":" rest (cur +:+ a).
Proof.
  revert cur. induction a as [|c a IH]; intros cur Hall; simpl.
  - by rewrite str_app_nil_r.
  - simpl in Hall. apply andb_true_iff in Hall as [Hc Ha].
    rewrite decide_False by (by apply is_digit_not_colon).
    rewrite IH by done. by rewrite str_app_assoc.
Qed.

Lemma splitFrom_last (a cur : string) :
  Js.all_chars Js.is_digit a = true → splitFrom ":" a cur = [cur +:+ a].
Proof.
  intros Ha. rewrite <- (str_app_nil_r a) at 1.
  by rewrite (splitFrom_digits a "" cur) by done.
Qed.

Lemma split_two (a b : string) :
  Js.all_chars Js.is_digit a = true → Js.all_chars Js.is_digit b = true →
  split ":" (a +:+ ":" +:+ b) = [a; b].
Proof.
  intros Ha Hb. unfold split.
  rewrite (splitFrom_digits a (":" +:+ b) "") by done. simpl.
  change ("" +:+ b) with b.
  by rewrite (splitFrom_last b "") by done.
Qed.

Lemma split_three (a b c : string) :
  Js.all_chars Js.is_digit a = true → Js.all_chars Js.is_digit b = true →
  Js.all_chars Js.is_digit c = true →
  split ":" (a +:+ ":" +:+ b +:+ ":" +:+ c) = [a; b; c].
Proof.
  intros Ha Hb Hc. unfold split.
  rewrite (splitFrom_digits a (":" +:+ b +:+ ":" +:+ c) "") by done. simpl.
  change ("" +:+ b +:+ ":" +:+ c) with (b +:+ ":" +:+ c).
  rewrite (splitFrom_digits b (":" +:+ c) "") by done. simpl.
  change ("" +:+ c) with c.
  by rewrite (splitFrom_last c "") by done.
Qed.

Lemma twoDigits_nonempty (n : Z) : twoDigits n ≠ "".
Proof. done. Qed.

(** X18. Formatting a non-negative number of seconds with [secondsToHHMM]
    and reading the result back with [timeToSeconds] gives the time of day
    truncated to the minute: the whole minutes of [s], modulo 24 hours, in
    seconds. *)
Theorem X18_clock_round_trip (Number : string → option Z) (s : Z) :
  readsDecimals Number → 0 <= s →
  timeToSeconds Number (secondsToHHMM (Some s))
  = Some (60 * ((s / 60) mod 1440)).
Proof.
  intros HN Hs. unfold secondsToHHMM, timeToSeconds.
  set (T := s / 60).
  assert (0 <= T) as HT by (apply Z.div_pos; lia).
  assert (0 <= T / 60) as HT' by (apply Z.div_pos; lia).
  rewrite !Z.rem_mod_nonneg by lia.
  pose proof (Z.mod_pos_bound (T / 60) 24 ltac:(lia)) as HH.
  pose proof (Z.mod_pos_bound T 60 ltac:(lia)) as HM.
  rewrite !padStart_decimal by lia.
  destruct (twoDigits_spec ((T / 60) mod 24) ltac:(lia)) as [Hd1 Hv1].
  destruct (twoDigits_spec (T mod 60) ltac:(lia)) as [Hd2 Hv2].
  rewrite split_two by done. simpl.
  rewrite !HN by done. rewrite Hv1, Hv2. f_equal.
  replace 1440 with (60 * 24) by lia.
  rewrite Z.rem_mul_r by lia. lia.
Qed.

Lemma decimalNumber_reads : readsDecimals decimalNumber.
Proof.
  intros s Hne Hall. unfold decimalNumber. rewrite Hall.
  by destruct s.
Qed.

(** 17:45:30 is shown as 17:45 and read back as 63900 s. *)
Lemma X18_clock_witness :
  readsDecimals decimalNumber ∧ 0 <= 63930
  ∧ timeToSeconds decimalNumber (secondsToHHMM (Some 63930))
    = Some (60 * ((63930 / 60) mod 1440)).
Proof.
  split; [exact decimalNumber_reads|]. split; [lia|].
  exact (X18_clock_round_trip decimalNumber 63930 decimalNumber_reads
           ltac:(lia)).
Defined.

Lemma all_chars_app (p : ascii → bool) (a b : string) :
  Js.all_chars p (a +:+ b) = Js.all_chars p a && Js.all_chars p b.
Proof.
  induction a as [|c a IH]; simpl; [done|]. by rewrite IH, andb_assoc.
Qed.

Lemma all_chars_impl (p q : ascii → bool) (a : string) :
  (∀ c, p c = true → q c = true) →
  Js.all_chars p a = true → Js.all_chars q a = true.
Proof.
  intros Hpq. induction a as [|c a IH]; simpl; [done|].
  intros [Hc Ha]%andb_true_iff. by rewrite (Hpq c Hc), IH.
Qed.

(** X19. The GTFS reader of times accepts any hour: for non-empty strings
    of decimal digits [h], [m] and [s], [timeToSeconds] of gtfs-ingest.js
    applied to [h:m:s] is [3600 h + 60 m + s], without any reduction modulo
    24 hours (times after midnight keep their hour above 23). *)
Theorem X19_gtfs_time_reading
        (Number : string → option Z) (trim : string → string)
        (h m s : string) :
  readsDecimals Number → keepsDigits trim →
  h ≠ "" → m ≠ "" → s ≠ "" →
  Js.all_chars Js.is_digit h = true → Js.all_chars Js.is_digit m = true →
  Js.all_chars Js.is_digit s = true →
  gtfsTimeToSeconds Number trim (h +:+ ":" +:+ m +:+ ":" +:+ s)
  = Some (digitsValue h * 3600 + digitsValue m * 60 + digitsValue s).
Proof.
  intros HN Htrim Hh Hm Hs Hdh Hdm Hds. unfold gtfsTimeToSeconds.
  assert (Js.truthy (h +:+ ":" +:+ m +:+ ":" +:+ s) = true) as ->
    by (by destruct h).
  assert (hasChar ":" (h +:+ ":" +:+ m +:+ ":" +:+ s) = true) as ->.
  { rewrite hasChar_app. simpl. by rewrite orb_true_r. }
  simpl. rewrite Htrim.
  - rewrite split_three by done. simpl. by rewrite !HN.
  - assert (∀ a, Js.all_chars Js.is_digit a = true →
                 Js.all_chars (fun c => Js.is_digit c
                                        || bool_decide (c = ":"%char)) a
                 = true) as Hd.
    { intros a. apply all_chars_impl. intros c ->. done. }
    by rewrite !all_chars_app, (Hd h Hdh), (Hd m Hdm), (Hd s Hds).
Qed.

Lemma asciiTrim_keeps : keepsDigits asciiTrim.
Proof.
  assert (∀ c, Js.is_digit c || bool_decide (c = ":"%char) = true →
               Ascii.is_space c = false) as Hsp.
  { intros c Hc. destruct c as [[] [] [] [] [] [] [] []];
      vm_compute in Hc |- *; congruence. }
  assert (∀ s, Js.all_chars (fun c => Js.is_digit c
                                      || bool_decide (c = ":"%char)) s = true →
               trimStart s = s) as Hstart.
  { intros [|c s]; simpl; [done|]. intros [Hc _]%andb_true_iff.
    by rewrite (Hsp c Hc). }
  assert (∀ s acc,
            Js.all_chars (fun c => Js.is_digit c
                                   || bool_decide (c = ":"%char)) s = true →
            Js.all_chars (fun c => Js.is_digit c
                                   || bool_decide (c = ":"%char)) acc = true →
            Js.all_chars (fun c => Js.is_digit c
                                   || bool_decide (c = ":"%char))
                         (String.rev_app s acc) = true) as Hrev.
  { induction s as [|c s IH]; intros acc Hs Hacc; simpl; [done|].
    simpl in Hs. apply andb_true_iff in Hs as [Hc Hs].
    apply IH; [done|]. simpl. by rewrite Hc. }
  assert (∀ s acc, String.rev_app (String.rev_app s acc) ""
                   = String.rev_app acc s) as Hinv.
  { induction s as [|c s IH]; intros acc; simpl; [done|]. by rewrite IH. }
  intros s Hs. unfold asciiTrim. rewrite (Hstart s Hs).
  unfold String.rev. rewrite Hstart by (by apply Hrev).
  by rewrite Hinv.
Qed.

(** A GTFS arrival after midnight: 25:10:05 is 90605 s. *)
Lemma X19_gtfs_time_witness :
  readsDecimals decimalNumber ∧ keepsDigits asciiTrim
  ∧ gtfsTimeToSeconds decimalNumber asciiTrim "25:10:05" = Some 90605.
Proof.
  split; [exact decimalNumber_reads|]. split; [exact asciiTrim_keeps|].
  exact (X19_gtfs_time_reading decimalNumber asciiTrim "25" "10" "05"
           decimalNumber_reads asciiTrim_keeps
           ltac:(discriminate) ltac:(discriminate) ltac:(discriminate)
           eq_refl eq_refl eq_refl).
Defined.

(* ===================================================================== *)
(** * The service calendar *)
(* ===================================================================== *)

Lemma set_delete_elem (x y : string) (s : list string) :
  x ∈ set_delete y s ↔ x ∈ s ∧ x ≠ y.
Proof. unfold set_delete. rewrite list_elem_of_filter. naive_solver. Qed.

Lemma addRegular_fold (dateValue : string → option Z)
      (weekday : string → option nat) gtfsDate svc
      (rows : list CalendarRow) :
  ∀ active,
    svc ∈ fold_left (addRegular dateValue weekday gtfsDate) rows active
    ↔ svc ∈ active ∨ runsRegularly dateValue weekday rows gtfsDate svc.
Proof.
  unfold runsRegularly.
  induction rows as [|row rows IH]; intros active; simpl.
  - split; [by left|]. intros [?|(row & Hin & _)]; [done|].
    by apply elem_of_nil in Hin.
  - rewrite IH. unfold addRegular.
    destruct (coversDate dateValue weekday row gtfsDate) eqn:Hcov.
    + rewrite set_add_elem. split.
      * intros [[?| ->]|(row' & ? & ? & ?)]; [by left| |].
        -- right. exists row. split; [by left|done].
        -- right. exists row'. split; [by right|done].
      * intros [?|(row' & Hin & Hsvc & Hc)]; [by left; left|].
        apply elem_of_cons in Hin as [->|Hin]; [left; by right|].
        right. by exists row'.
    + split.
      * intros [?|(row' & ? & ? & ?)]; [by left|].
        right. exists row'. split; [by right|done].
      * intros [?|(row' & Hin & Hsvc & Hc)]; [by left|].
        apply elem_of_cons in Hin as [->|Hin]; [congruence|].
        right. by exists row'.
Qed.

Lemma applyException_fold (trim : string → string) gtfsDate svc
      (rows : list CalendarDateRow) :
  ∀ active,
    svc ∈ fold_left (applyException trim gtfsDate) rows active
    ↔ match last (exceptionsFor trim rows gtfsDate svc) with
      | Some row => cd_exception_type row = "1"
      | None => svc ∈ active
      end.
Proof.
  induction rows as [|row rows IH] using rev_ind; intros active; [done|].
  rewrite fold_left_app. simpl. unfold exceptionsFor.
  rewrite filter_app. fold (exceptionsFor trim rows gtfsDate svc).
  unfold applyException at 1.
  destruct (bool_decide_reflect (trim (cd_date row) = gtfsDate)) as [Hd|Hd].
  2:{ rewrite filter_cons_False by naive_solver.
      rewrite filter_nil, app_nil_r. apply IH. }
  destruct (bool_decide_reflect (cd_exception_type row = "1")) as [H1|H1].
  { destruct (decide (cd_service_id row = svc)) as [Hs|Hs].
    - rewrite filter_cons_True by naive_solver. rewrite filter_nil.
      rewrite last_snoc, set_add_elem. naive_solver.
    - rewrite filter_cons_False by naive_solver.
      rewrite filter_nil, app_nil_r, set_add_elem, IH.
      destruct (last _); naive_solver. }
  destruct (bool_decide_reflect (cd_exception_type row = "2")) as [H2|H2].
  { destruct (decide (cd_service_id row = svc)) as [Hs|Hs].
    - rewrite filter_cons_True by naive_solver. rewrite filter_nil.
      rewrite last_snoc, set_delete_elem. naive_solver.
    - rewrite filter_cons_False by naive_solver.
      rewrite filter_nil, app_nil_r, set_delete_elem, IH.
      destruct (last _); naive_solver. }
  rewrite filter_cons_False by naive_solver.
  rewrite filter_nil, app_nil_r. apply IH.
Qed.

(** X20. On a date, the last exception of calendar_dates.txt for a service
    decides whether [computeActiveServices] keeps it: the service is active
    when that exception has type 1 and inactive when it has type 2,
    whatever calendar.txt says; without any exception of type 1 or 2 for
    it on that date, the service is active exactly when a row of
    calendar.txt runs it on that date. *)
Theorem X20_last_exception_decides
        (dateValue : string → option Z) (weekday : string → option nat)
        (trim : string → string)
        (calendarRows : list CalendarRow)
        (calendarDatesRows : list CalendarDateRow) (gtfsDate svc : string) :
  svc ∈ computeActiveServices dateValue weekday trim calendarRows
          calendarDatesRows gtfsDate
  ↔ match last (exceptionsFor trim calendarDatesRows gtfsDate svc) with
    | Some row => cd_exception_type row = "1"
    | None => runsRegularly dateValue weekday calendarRows gtfsDate svc
    end.
Proof.
  unfold computeActiveServices. rewrite applyException_fold.
  destruct (last _); [done|]. rewrite addRegular_fold.
  split; [|by right]. intros [Hin|?]; [|done]. by apply elem_of_nil in Hin.
Qed.

(* ===================================================================== *)
(** * Merging the operators *)
(* ===================================================================== *)

Lemma mergeCalendar_push (k : string) (services : list string) :
  ∀ m : list (string * list string),
    is_Some (oget k m) →
    ∀ d, default [] (oget d
           (fold_left (fun m s => oset k (default [] (oget k m) ++ [s]) m)
                      services m))
         = default [] (oget d m) ++ (if decide (k = d) then services else []).
Proof.
  induction services as [|s services IH]; intros m Hk d; simpl.
  - destruct (decide (k = d)); by rewrite app_nil_r.
  - rewrite IH by (rewrite oget_oset_eq; eauto).
    destruct (decide (k = d)) as [->|Hne].
    + rewrite oget_oset_eq. simpl. by rewrite <- app_assoc.
    + rewrite oget_oset_ne by done. done.
Qed.

Lemma mergeCalendar_lookup (m : list (string * list string))
      (e : string * list string) (d : string) :
  default [] (oget d (mergeCalendar m e))
  = default [] (oget d m) ++ (if decide (fst e = d) then snd e else []).
Proof.
  unfold mergeCalendar. destruct (oget (fst e) m) as [cur|] eqn:Hget.
  - apply mergeCalendar_push. rewrite Hget. eauto.
  - destruct (decide (fst e = d)) as [<-|Hne].
    + by rewrite oget_oset_eq, Hget.
    + rewrite oget_oset_ne by done. by rewrite app_nil_r.
Qed.

Lemma mergeCalendar_fold (entries : list (string * list string)) (d : string) :
  ∀ m, default [] (oget d (fold_left mergeCalendar entries m))
       = default [] (oget d m) ++ servicesOn entries d.
Proof.
  unfold servicesOn.
  induction entries as [|e entries IH]; intros m; simpl.
  - by rewrite app_nil_r.
  - by rewrite IH, mergeCalendar_lookup, <- app_assoc.
Qed.

(** X21. Merging the operators loses no service: for every date, the list
    of the merged calendar is the concatenation, in the order of the
    operators, of the services that each operator's calendar gives for that
    date. *)
Theorem X21_merged_calendar_is_concatenation
        {Stop RouteInfo RawTrip : Type}
        (results : list (option (OperatorResult Stop RouteInfo RawTrip)))
        (date : string) :
  default [] (oget date (or_calendarIndex (mergeResults results)))
  = results ≫= servicesOfResult date.
Proof.
  unfold mergeResults.
  assert (∀ merged : OperatorResult Stop RouteInfo RawTrip,
            default [] (oget date
                          (or_calendarIndex (fold_left mergeOne results merged)))
            = default [] (oget date (or_calendarIndex merged))
              ++ (results ≫= servicesOfResult date)) as Hfold.
  { induction results as [|r results IH]; intros merged; simpl.
    - by rewrite app_nil_r.
    - rewrite IH. destruct r as [r|]; simpl; [|done].
      by rewrite mergeCalendar_fold, <- app_assoc. }
  by rewrite Hfold.
Qed.

(* ===================================================================== *)
(** * The transfer index at start-up *)
(* ===================================================================== *)

Lemma rawLinks_ensureRaw T k a : rawLinks (ensureRaw T k) a = rawLinks T a.
Proof.
  unfold rawLinks, ensureRaw. destruct (T !! k) as [l|] eqn:Hk; [done|].
  destruct (decide (k = a)) as [->|Hne].
  - by rewrite lookup_insert_eq, Hk.
  - by rewrite lookup_insert_ne.
Qed.

Lemma rawLinks_pushRaw T a b x e :
  e ∈ rawLinks (pushRaw T a b) x
  ↔ e ∈ rawLinks T x ∨ (x = a ∧ e = RawId b).
Proof.
  unfold rawLinks, pushRaw.
  destruct (bool_decide_reflect (RawId b ∈ default [] (T !! a))) as [Hin|Hnin].
  - split; [by left|]. intros [?|[-> ->]]; done.
  - destruct (decide (a = x)) as [->|Hne].
    + rewrite lookup_insert_eq. simpl. rewrite elem_of_app,
        list_elem_of_singleton. naive_solver.
    + rewrite lookup_insert_ne by done. naive_solver.
Qed.

Section LinkFacts.
Variable norm : string → string.

Lemma indexName_fold (stops : list (string * string)) (n sid : string) :
  ∀ m, sid ∈ default [] (oget n (fold_left (indexName norm) stops m))
       ↔ sid ∈ default [] (oget n m)
         ∨ ∃ name, (sid, name) ∈ stops ∧ Js.starts_with "TI:" sid = false
                   ∧ norm name = n ∧ n ≠ "".
Proof.
  induction stops as [|[s0 name0] stops IH]; intros m; simpl.
  - split; [by left|]. intros [?|(name & Hin & _)]; [done|].
    by apply elem_of_nil in Hin.
  - rewrite IH. clear IH.
    assert (sid ∈ default [] (oget n (indexName norm m (s0, name0)))
            ↔ sid ∈ default [] (oget n m)
              ∨ (sid = s0 ∧ Js.starts_with "TI:" s0 = false
                 ∧ norm name0 = n ∧ n ≠ "")) as ->.
    { unfold indexName. destruct (Js.starts_with "TI:" s0) eqn:Hti;
        [naive_solver|].
      destruct (Js.truthy (norm name0)) eqn:Htr; simpl.
      - destruct (decide (norm name0 = n)) as [<-|Hne].
        + rewrite oget_oset_eq. simpl.
          rewrite elem_of_app, list_elem_of_singleton.
          split; [|naive_solver]. intros [?| ->]; [by left|right].
          repeat split; try done. intros Hnil. by rewrite Hnil in Htr.
        + rewrite oget_oset_ne by done. naive_solver.
      - split; [by left|]. intros [?|(-> & _ & <- & Hne)]; [done|].
        by destruct (norm name0). }
    split.
    + intros [[?|(-> & ? & ? & ?)]|(name & ? & ?)].
      * by left.
      * right. exists name0. split; [by left|done].
      * right. exists name. split; [by right|done].
    + intros [?|(name & Hin & Hti & Hn & Hne)]; [by left; left|].
      apply elem_of_cons in Hin as [[= -> ->]|Hin].
      * left. right. done.
      * right. by exists name.
Qed.

Lemma pushRaw_fold_left (sid : string) (sncfSids : list string) e x :
  ∀ T, e ∈ rawLinks (fold_left (fun T ss => pushRaw T sid ss) sncfSids T) x
       ↔ e ∈ rawLinks T x ∨ (x = sid ∧ ∃ ss, ss ∈ sncfSids ∧ e = RawId ss).
Proof.
  induction sncfSids as [|s l IH]; intros T; simpl.
  - split; [by left|]. intros [?|(_ & ss & Hin & _)]; [done|].
    by apply elem_of_nil in Hin.
  - rewrite IH, rawLinks_pushRaw. split.
    + intros [[?|[-> ->]]|(-> & ss & ? & ?)].
      * by left.
      * right. split; [done|]. exists s. split; [by left|done].
      * right. split; [done|]. exists ss. split; [by right|done].
    + intros [?|(-> & ss & Hin & ->)]; [by left; left|].
      apply elem_of_cons in Hin as [->|Hin]; [left; by right|].
      right. split; [done|]. by exists ss.
Qed.

Lemma pushRaw_fold_right (sid : string) (sncfSids : list string) e x :
  ∀ T, e ∈ rawLinks (fold_left (fun T ss => pushRaw (ensureRaw T ss) ss sid)
                               sncfSids T) x
       ↔ e ∈ rawLinks T x ∨ (x ∈ sncfSids ∧ e = RawId sid).
Proof.
  induction sncfSids as [|s l IH]; intros T; simpl.
  - split; [by left|]. intros [?|(Hin & _)]; [done|].
    by apply elem_of_nil in Hin.
  - rewrite IH, rawLinks_pushRaw, rawLinks_ensureRaw. split.
    + intros [[?|[-> ->]]|(? & ->)].
      * by left.
      * right. split; [by left|done].
      * right. split; [by right|done].
    + intros [?|(Hin & ->)]; [by left; left|].
      apply elem_of_cons in Hin as [->|Hin]; [left; by right|].
      by right.
Qed.

Lemma linkStop_links nameToSncf T (entry : string * string) e x :
  e ∈ rawLinks (linkStop norm nameToSncf T entry) x
  ↔ e ∈ rawLinks T x
    ∨ (Js.starts_with "TI:" (fst entry) = true
       ∧ ∃ ss, ss ∈ default [] (oget (norm (snd entry)) nameToSncf)
               ∧ ((x = fst entry ∧ e = RawId ss)
                  ∨ (x = ss ∧ e = RawId (fst entry)))).
Proof.
  destruct entry as [sid name]. unfold linkStop. cbn [fst snd].
  destruct (Js.starts_with "TI:" sid) eqn:Hti; cbn [negb].
  2:{ split; [by left|]. by intros [?|[? _]]. }
  destruct (default [] (oget (norm name) nameToSncf)) as [|s0 l] eqn:Hl.
  - split; [by left|]. intros [?|(_ & ss & Hin & _)]; [done|].
    by apply elem_of_nil in Hin.
  - rewrite pushRaw_fold_right, pushRaw_fold_left, rawLinks_ensureRaw.
    split.
    + intros [[?|(-> & ss & ? & ->)]|(? & ->)].
      * by left.
      * right. split; [done|]. exists ss. split; [done|by left].
      * right. split; [done|]. exists x. split; [done|by right].
    + intros [?|(_ & ss & Hss & [[-> ->]|[-> ->]])].
      * by left; left.
      * left. right. split; [done|]. by exists ss.
      * by right.
Qed.

Lemma linkStop_fold nameToSncf (stops : list (string * string)) e x :
  ∀ T, e ∈ rawLinks (fold_left (linkStop norm nameToSncf) stops T) x
       ↔ e ∈ rawLinks T x
         ∨ ∃ entry ss,
             entry ∈ stops ∧ Js.starts_with "TI:" (fst entry) = true
             ∧ ss ∈ default [] (oget (norm (snd entry)) nameToSncf)
             ∧ ((x = fst entry ∧ e = RawId ss)
                ∨ (x = ss ∧ e = RawId (fst entry))).
Proof.
  induction stops as [|entry stops IH]; intros T; simpl.
  - split; [by left|]. intros [?|(entry & ss & Hin & _)]; [done|].
    by apply elem_of_nil in Hin.
  - rewrite IH, linkStop_links. split.
    + intros [[?|(? & ss & ? & ?)]|(entry' & ss & ? & ?)].
      * by left.
      * right. exists entry, ss. split; [by left|done].
      * right. exists entry', ss. split; [by right|done].
    + intros [?|(entry' & ss & Hin & Hti & Hss & Hcase)]; [by left; left|].
      apply elem_of_cons in Hin as [->|Hin].
      * left. right. split; [done|]. by exists ss.
      * right. by exists entry', ss.
Qed.

Lemma linkSncfTI_links (stops : list (string * string)) T e x :
  e ∈ rawLinks (linkSncfTI norm stops T) x
  ↔ e ∈ rawLinks T x
    ∨ ∃ ti other, sameStation norm stops ti other
                  ∧ ((x = ti ∧ e = RawId other) ∨ (x = other ∧ e = RawId ti)).
Proof.
  unfold linkSncfTI. rewrite linkStop_fold. unfold sameStation. split.
  - intros [?|([sid name] & ss & Hin & Hti & Hss & Hcase)]; [by left|].
    simpl in *. apply indexName_fold in Hss as [Hnil|(n2 & ? & ? & ? & ?)];
      [by apply elem_of_nil in Hnil|].
    right. exists sid, ss. split; [|done].
    exists name, n2. repeat split; try done. congruence.
  - intros [?|(ti & other & (n1 & n2 & H1 & H2 & Hti & Hot & Hn & Hne) & Hcase)];
      [by left|].
    right. exists (ti, n1), other. split; [done|]. split; [done|].
    split; [|done]. simpl. apply indexName_fold. right.
    exists n2. repeat split; try done. congruence.
Qed.

End LinkFacts.

(** X22. After [linkSncfTI], the transfer list of a stop holds what it held
    before and, as plain identifiers, exactly the stops of the other side
    that bear its name: a Trenitalia stop and a stop of another operator
    are linked, in both directions, if and only if their normalised names
    are equal and not empty (or a link was already there). *)
Theorem X22_name_links_are_mutual
        (norm : string → string) (stops : list (string * string))
        (T : gmap string (list RawTransfer)) :
  let T' := linkSncfTI norm stops T in
  (∀ x e, e ∈ rawLinks T x → e ∈ rawLinks T' x)
  ∧ (∀ ti other, sameStation norm stops ti other →
                 RawId other ∈ rawLinks T' ti ∧ RawId ti ∈ rawLinks T' other)
  ∧ (∀ x e, e ∈ rawLinks T' x → e ∉ rawLinks T x →
            ∃ y, e = RawId y
                 ∧ (sameStation norm stops x y ∨ sameStation norm stops y x)).
Proof.
  intros T'. unfold T'. split; [|split].
  - intros x e He. apply linkSncfTI_links. by left.
  - intros ti other Hsame. split; apply linkSncfTI_links; right;
      exists ti, other; (split; [done|]); [by left|by right].
  - intros x e He Hold. apply linkSncfTI_links in He as [?|He]; [done|].
    destruct He as (ti & other & Hsame & [[-> ->]|[-> ->]]).
    + exists other. split; [done|by left].
    + exists ti. split; [done|by right].
Qed.

(* ===================================================================== *)
(** * Fares *)
(* ===================================================================== *)

Section FareFacts.
Variable Price    : Type.
Variable tarifIndex : gmap string (Price * Price).

Lemma lookupFare_reverse uO uD classe profil (trs : list string) :
  is_Some (lookupFare Price tarifIndex uO uD classe profil trs)
  ↔ is_Some (lookupFare Price tarifIndex uD uO classe profil trs).
Proof.
  induction trs as [|tr trs IH]; simpl; [done|].
  destruct (tarifIndex !! fareKey uO uD tr classe profil) as [[lo hi]|];
    destruct (tarifIndex !! fareKey uD uO tr classe profil) as [[lo' hi']|];
    try done; split; eauto.
Qed.

Lemma lookupFare_one_way uO uD classe profil (trs : list string) :
  (∀ tr, tr ∈ trs → tarifIndex !! fareKey uD uO tr classe profil = None) →
  lookupFare Price tarifIndex uD uO classe profil trs
  = lookupFare Price tarifIndex uO uD classe profil trs.
Proof.
  induction trs as [|tr trs IH]; intros Hnone; simpl; [done|].
  rewrite (Hnone tr) by (by left).
  destruct (tarifIndex !! fareKey uO uD tr classe profil) as [[lo hi]|];
    [done|].
  apply IH. intros tr' Htr'. apply Hnone. by right.
Qed.

End FareFacts.

(** X23. Fares do not depend on the direction of travel when the table has
    them one way only: [getTarifLeg] finds a fare for a leg if and only if
    it finds one for the reverse leg, it throws for the one exactly when it
    throws for the other, and when the table holds no entry keyed from the
    destination to the origin, both legs get the same fare. *)
Theorem X23_fare_found_both_ways
        (Price : Type) (tarifIndex : gmap string (Price * Price))
        (leg : FareLeg) (profil classe : string) :
  (priced Price tarifIndex leg profil classe
   ↔ priced Price tarifIndex (reverseLeg leg) profil classe)
  ∧ (getTarifLeg Price tarifIndex leg profil classe = None
     ↔ getTarifLeg Price tarifIndex (reverseLeg leg) profil classe = None)
  ∧ ((∀ uO uD tr,
        uicFromStopId (fl_from_id leg) = Some uO →
        uicFromStopId (fl_to_id leg) = Some uD →
        tarifIndex !! fareKey uD uO tr classe profil = None) →
     getTarifLeg Price tarifIndex (reverseLeg leg) profil classe
     = getTarifLeg Price tarifIndex leg profil classe).
Proof.
  unfold priced, getTarifLeg, reverseLeg. simpl.
  destruct (uicFromStopId (fl_from_id leg)) as [uO|];
    destruct (uicFromStopId (fl_to_id leg)) as [uD|];
    try (split; [done|split; [done|done]]).
  destruct (transporteursOf (fl_train_type leg)) as [trs|];
    [|split; [done|split; [done|done]]].
  split; [|split; [done|]].
  - pose proof (lookupFare_reverse Price tarifIndex uO uD classe profil trs)
      as Hrev.
    split; intros [t [= Ht]]; rewrite Ht in Hrev.
    + destruct (proj1 Hrev ltac:(eauto)) as [t' ->]. eauto.
    + destruct (proj2 Hrev ltac:(eauto)) as [t' ->]. eauto.
  - intros Hone. f_equal. apply lookupFare_one_way.
    intros tr _. by apply Hone.
Qed.

Section FareTotals.
Variable Price    : Type.
Variable addPrice : Price → Price → Price.
Variable tarifIndex : gmap string (Price * Price).

Lemma transporteursOf_other (train_type : string) trs :
  transporteursOf train_type = Some trs →
  train_type ∉ pricedTypes → trs = [].
Proof.
  unfold transporteursOf, pricedTypes. intros Htrs Hnot.
  destruct (Js.inherited train_type); [done|].
  destruct (bool_decide_reflect (train_type = "INOUI")) as [->|?];
    [exfalso; apply Hnot; set_solver|].
  destruct (bool_decide_reflect (train_type = "OUIGO")) as [->|?];
    [exfalso; apply Hnot; set_solver|].
  destruct (bool_decide_reflect (train_type = "OUIGO_CLASSIQUE")) as [->|?];
    [exfalso; apply Hnot; set_solver|].
  by injection Htrs as <-.
Qed.

Lemma priced_type leg profil classe :
  priced Price tarifIndex leg profil classe →
  fl_train_type leg ∈ pricedTypes.
Proof.
  intros [t Ht]. unfold getTarifLeg in Ht.
  destruct (uicFromStopId (fl_from_id leg)); [|done].
  destruct (uicFromStopId (fl_to_id leg)); [|done].
  destruct (transporteursOf (fl_train_type leg)) as [trs|] eqn:Htrs; [|done].
  destruct (decide (fl_train_type leg ∈ pricedTypes)) as [|Hnot]; [done|].
  rewrite (transporteursOf_other _ _ Htrs Hnot) in Ht. done.
Qed.

Lemma addLeg_fold profil classe (legs : list FareLeg) :
  ∀ tot res,
    fold_left (addLeg Price addPrice tarifIndex profil classe) legs (Some tot)
    = Some res →
    (allFound res = true
     ↔ allFound tot = true
       ∧ ∀ leg, leg ∈ legs → fl_train_type leg ∈ pricedTypes →
                priced Price tarifIndex leg profil classe)
    ∧ (hasTer res = true
       ↔ hasTer tot = true
         ∨ ∃ leg, leg ∈ legs ∧ fl_train_type leg ∉ pricedTypes).
Proof.
  induction legs as [|leg legs IH]; intros tot res Hres; simpl in Hres.
  - injection Hres as <-. split.
    + split; [intros ?; split; [done|]|by intros [? _]].
      intros leg Hin. by apply elem_of_nil in Hin.
    + split; [by left|]. intros [?|(leg & Hin & _)]; [done|].
      by apply elem_of_nil in Hin.
  - destruct (getTarifLeg Price tarifIndex leg profil classe) as [[t|]|]
      eqn:Hleg.
    + destruct (IH _ _ Hres) as [Hall Hter]. simpl in Hall, Hter.
      assert (fl_train_type leg ∈ pricedTypes) as Hty
        by (apply (priced_type leg profil classe); by exists t).
      split.
      * rewrite Hall. split; intros [Htot Hlegs]; (split; [done|]).
        -- intros l Hl Hpt. apply elem_of_cons in Hl as [->|Hl];
             [by exists t|by apply Hlegs].
        -- intros l Hl. apply Hlegs. by right.
      * rewrite Hter. split.
        -- intros [?|(l & ? & ?)]; [by left|]. right. exists l.
           split; [by right|done].
        -- intros [?|(l & Hl & Hnot)]; [by left|].
           apply elem_of_cons in Hl as [->|Hl]; [done|]. right. by exists l.
    + destruct (bool_decide_reflect (fl_train_type leg ∈ pricedTypes))
        as [Hty|Hty].
      * destruct (IH _ _ Hres) as [Hall Hter]. simpl in Hall, Hter. split.
        -- rewrite Hall. split; [by intros [? _]|].
           intros [_ Hlegs]. destruct (Hlegs leg ltac:(by left) Hty) as [t Ht].
           congruence.
        -- rewrite Hter. split.
           ++ intros [?|(l & ? & ?)]; [by left|]. right. exists l.
              split; [by right|done].
           ++ intros [?|(l & Hl & Hnot)]; [by left|].
              apply elem_of_cons in Hl as [->|Hl]; [done|]. right.
              by exists l.
      * destruct (IH _ _ Hres) as [Hall Hter]. simpl in Hall, Hter. split.
        -- rewrite Hall. split; intros [Htot Hlegs]; (split; [done|]).
           ++ intros l Hl Hpt. apply elem_of_cons in Hl as [->|Hl];
                [done|by apply Hlegs].
           ++ intros l Hl. apply Hlegs. by right.
        -- rewrite Hter. split.
           ++ intros _. right. exists leg. split; [by left|done].
           ++ intros _. by left.
    + assert (∀ l, fold_left (addLeg Price addPrice tarifIndex profil classe)
                             l None = None) as Hnone
        by (induction l; [done|simpl; done]).
      by rewrite Hnone in Hres.
Qed.

End FareTotals.

(** X24. When [getTarifJourney] returns, [allFound] is true exactly when a
    fare was found for every leg whose train type is OUIGO, OUIGO_CLASSIQUE
    or INOUI, and [hasTer] is true exactly when the journey has a leg of
    another train type (for which no fare is ever looked up). *)
Theorem X24_fare_flags
        (Price : Type) (addPrice : Price → Price → Price) (zero : Price)
        (tarifIndex : gmap string (Price * Price))
        (legs : list FareLeg) (profil classe : string)
        (res : FareTotal Price) :
  getTarifJourney Price addPrice zero tarifIndex legs profil classe
  = Some res →
  (allFound res = true
   ↔ ∀ leg, leg ∈ legs → fl_train_type leg ∈ pricedTypes →
            priced Price tarifIndex leg profil classe)
  ∧ (hasTer res = true
     ↔ ∃ leg, leg ∈ legs ∧ fl_train_type leg ∉ pricedTypes).
Proof.
  intros Hres. unfold getTarifJourney in Hres.
  destruct (addLeg_fold Price addPrice tarifIndex profil classe legs _ _ Hres)
    as [Hall Hter]. simpl in Hall, Hter.
  split.
  - rewrite Hall. split; [by intros [_ ?]|done].
  - rewrite Hter. split; [|by right]. by intros [?|?].
Qed.

Lemma X24_fare_flags_witness :
  getTarifJourney Z Z.add 0 parisLyonFares lyonParisLegs "Tarif Normal" "2"
  = Some (mkFareTotal Z 25 120 true true)
  ∧ (allFound (mkFareTotal Z 25 120 true true) = true
     ↔ ∀ leg, leg ∈ lyonParisLegs → fl_train_type leg ∈ pricedTypes →
              priced Z parisLyonFares leg "Tarif Normal" "2")
  ∧ (hasTer (mkFareTotal Z 25 120 true true) = true
     ↔ ∃ leg, leg ∈ lyonParisLegs ∧ fl_train_type leg ∉ pricedTypes).
Proof.
  split; [vm_compute; reflexivity|].
  apply (X24_fare_flags Z Z.add 0 parisLyonFares lyonParisLegs
           "Tarif Normal" "2").
  vm_compute. reflexivity.
Defined.

(* ===================================================================== *)
(** * The reachable destinations of /api/explore *)
(* ===================================================================== *)

Lemma lastStopOf_last (j : Journey) (l : Leg) :
  last (j_legs j) = Some l → lastStopOf j = leg_to_id l.
Proof.
  unfold lastStopOf. intros Hl.
  assert (∀ (legs : list Leg) d, last legs = Some l →
            List.last (Some <$> legs) d = Some l) as Hlast.
  { induction legs as [|a [|b legs] IH]; intros d Hlegs; [done|..].
    - simpl in Hlegs. by injection Hlegs as ->.
    - apply (IH d) in Hlegs. exact Hlegs. }
  by rewrite (Hlast _ None Hl).
Qed.

Lemma keepBest_inv originSet best seen j :
  bestInv originSet best seen →
  bestInv originSet (keepBest originSet best j) (seen ++ [j]).
Proof.
  intros (Hnd & Hkeys & Hmin).
  assert (∀ sid j0, (sid, j0) ∈ best →
            lastStopOf j0 = sid ∧ j0 ∈ seen ++ [j] ∧ (sid ∉ originSet)
            ∧ Js.inherited sid = false) as Hkeys'.
  { intros sid j0 Hin. destruct (Hkeys sid j0 Hin) as (? & ? & ? & ?).
    split; [done|]. split; [|done]. apply elem_of_app. by left. }
  (* the journey is skipped, or an entry at least as short is kept *)
  assert ((j_legs j ≠ [] → lastStopOf j ∉ originSet →
           Js.inherited (lastStopOf j) = false →
           ∃ j0, oget (lastStopOf j) best = Some j0
                 ∧ j_duration j0 <= j_duration j) →
          bestInv originSet best (seen ++ [j])) as Hskip.
  { intros Hj. split; [done|]. split; [done|].
    intros j' Hj' Hlegs Horig Hown.
    apply elem_of_app in Hj' as [Hj'|Hj']; [by apply Hmin|].
    apply list_elem_of_singleton in Hj' as ->. by apply Hj. }
  unfold keepBest.
  destruct (last (j_legs j)) as [lastLeg|] eqn:Hlast.
  2:{ apply Hskip. intros Hlegs. by apply last_None in Hlast. }
  pose proof (lastStopOf_last j lastLeg Hlast) as Hstop.
  rewrite <- Hstop. set (sid0 := lastStopOf j) in *.
  unfold Js.set_has.
  destruct (decide (sid0 ∈ originSet)) as [Horig|Horig];
    [by apply Hskip|].
  destruct (Js.inherited sid0) eqn:Hinh; [by apply Hskip|].
  (* the journey replaces the entry of its stop, or opens one *)
  assert ((∀ j0, oget sid0 best = Some j0 → j_duration j < j_duration j0) →
          bestInv originSet (oset sid0 j best) (seen ++ [j])) as Hstore.
  { intros Hlt. split; [by apply oset_NoDup|]. split.
    - intros sid j1 Hin. apply elem_of_oset in Hin as [[-> ->]|Hin];
        [|by apply Hkeys'].
      split; [done|]. split; [|done]. apply elem_of_app. right. by left.
    - intros j' Hj' Hlegs Horig' Hown.
      destruct (decide (sid0 = lastStopOf j')) as [Heq|Hne].
      + rewrite <- Heq, oget_oset_eq. exists j. split; [done|].
        apply elem_of_app in Hj' as [Hj'|Hj'].
        * destruct (Hmin j' Hj' Hlegs Horig' Hown) as (j0 & Hget & Hle).
          rewrite <- Heq in Hget. specialize (Hlt j0 Hget). lia.
        * apply list_elem_of_singleton in Hj' as ->. lia.
      + rewrite oget_oset_ne by done.
        apply elem_of_app in Hj' as [Hj'|Hj']; [by apply Hmin|].
        apply list_elem_of_singleton in Hj' as ->. done. }
  destruct (oget sid0 best) as [b|] eqn:Hget.
  - destruct (Z.ltb_spec (j_duration j) (j_duration b)) as [Hlt|Hge].
    + apply Hstore. by intros j0 [= <-].
    + apply Hskip. intros _ _ _. by exists b.
  - by apply Hstore.
Qed.

Lemma keepBest_fold originSet (batch : list Journey) :
  ∀ best seen,
    bestInv originSet best seen →
    bestInv originSet (fold_left (keepBest originSet) batch best)
            (seen ++ batch).
Proof.
  induction batch as [|j batch IH]; intros best seen Hinv; simpl.
  - by rewrite app_nil_r.
  - replace (seen ++ j :: batch) with ((seen ++ [j]) ++ batch)
      by (by rewrite <- app_assoc).
    by apply IH, keepBest_inv.
Qed.

Section ExploreFacts.
Variable transferIndex : gmap string (list RawTransfer).
Variable utcMonth       : string → option Z.
Variable detectUnstored : string → string → string → string → string.

Lemma exploreBest_inv uniqueFrom stt dateStr :
  bestInv uniqueFrom
    (exploreBest transferIndex utcMonth detectUnstored uniqueFrom stt dateStr)
    (exploreSlots ≫=
       reachedAt transferIndex utcMonth detectUnstored uniqueFrom stt dateStr).
Proof.
  unfold exploreBest.
  assert (∀ slots best seen,
            bestInv uniqueFrom best seen →
            bestInv uniqueFrom
              (fold_left
                 (fun best startSec =>
                    fold_left (keepBest uniqueFrom)
                      (reachedAt transferIndex utcMonth detectUnstored
                                 uniqueFrom stt dateStr startSec) best)
                 slots best)
              (seen ++ (slots ≫=
                          reachedAt transferIndex utcMonth detectUnstored
                                    uniqueFrom stt dateStr))) as Hfold.
  { induction slots as [|slot slots IH]; intros best seen Hinv; simpl.
    - by rewrite app_nil_r.
    - rewrite app_assoc. by apply IH, keepBest_fold. }
  apply (Hfold exploreSlots [] []).
  split; [constructor|]. split.
  - intros sid j Hin. by apply elem_of_nil in Hin.
  - intros j Hin. by apply elem_of_nil in Hin.
Qed.

End ExploreFacts.

(** X25. An answer of [/api/explore] holds one journey per destination
    stop: the journeys end at pairwise distinct stops, none of which is a
    resolved origin; each was reached by [raptorCore] from one of the eight
    departure slots (05:00, 07:00, ..., 19:00), and none of the journeys
    reached from any slot that ends at the same stop is shorter. *)
Theorem X25_explore_keeps_shortest_per_stop
        (transferIndex : gmap string (list RawTransfer))
        (stopKeys : list string) (routeTrips : list (string * list Trip))
        (calendarIndex : gmap string (list string))
        (utcMonth : string → option Z)
        (detectUnstored : string → string → string → string → string)
        (fromIds : list string) (dateStr : string)
        (journeys : list Journey) :
  handleExplore transferIndex stopKeys routeTrips calendarIndex utcMonth
                detectUnstored fromIds dateStr = ExploreOk journeys →
  ∃ stt uniqueFrom,
    getFilteredData routeTrips calendarIndex dateStr = Some stt
    ∧ resolveStopIds transferIndex stopKeys (uniq fromIds) Origin
      = Some uniqueFrom
    ∧ NoDup (lastStopOf <$> journeys)
    ∧ ∀ j, j ∈ journeys →
           (lastStopOf j ∉ uniqueFrom)
           ∧ (∃ slot, slot ∈ exploreSlots
                      ∧ j ∈ reachedAt transferIndex utcMonth detectUnstored
                                      uniqueFrom stt dateStr slot)
           ∧ ∀ slot j', slot ∈ exploreSlots →
                        j' ∈ reachedAt transferIndex utcMonth detectUnstored
                                       uniqueFrom stt dateStr slot →
                        lastStopOf j' = lastStopOf j →
                        j_duration j <= j_duration j'.
Proof.
  unfold handleExplore. destruct fromIds as [|f fs]; [done|].
  destruct (getFilteredData _ _ _) as [stt|]; [|done].
  destruct (resolveStopIds _ _ _ _) as [uniqueFrom|]; [|done].
  intros [= <-]. exists stt, uniqueFrom. split; [done|]. split; [done|].
  destruct (exploreBest_inv transferIndex utcMonth detectUnstored uniqueFrom
              stt dateStr) as (Hnd & Hkeys & Hmin).
  set (best := exploreBest transferIndex utcMonth detectUnstored uniqueFrom
                           stt dateStr) in *.
  split.
  - replace (lastStopOf <$> best.*2) with (best.*1); [done|].
    rewrite <- list_fmap_compose. apply list_fmap_ext.
    intros i [sid j] Hin%list_elem_of_lookup_2. simpl.
    by destruct (Hkeys sid j Hin) as (-> & _).
  - intros j Hj. apply list_elem_of_fmap in Hj as ([sid j0] & -> & Hin).
    simpl. destruct (Hkeys sid j0 Hin) as (Hstop & Hseen & Horig & Hown).
    split; [by rewrite Hstop|]. split.
    + apply list_elem_of_bind in Hseen as (slot & ? & ?). by exists slot.
    + intros slot j' Hslot Hj' Hsame.
      assert (j_legs j' ≠ []) as Hlegs.
      { apply journeyOfLegs_legs.
        pose proof (raptorCore_wf transferIndex utcMonth detectUnstored
                      uniqueFrom None slot stt dateStr) as Hwf.
        rewrite Forall_forall in Hwf. by apply Hwf. }
      destruct (Hmin j') as (j1 & Hget & Hle); [|done|congruence|congruence|].
      * apply list_elem_of_bind. by exists slot.
      * rewrite Hsame, Hstop in Hget.
        rewrite (elem_NoDup_oget _ _ _ Hnd Hin) in Hget.
        by injection Hget as <-.
Qed.

Lemma X25_explore_witness :
  handleExplore ∅ [] twoLegTrips ∅ isoMonth fallbackType ["SNCF:O"] ""
  = ExploreOk [firstLegJourney; twoLegJourney]
  ∧ ∃ stt uniqueFrom,
      getFilteredData twoLegTrips ∅ "" = Some stt
      ∧ resolveStopIds ∅ [] (uniq ["SNCF:O"]) Origin = Some uniqueFrom
      ∧ NoDup (lastStopOf <$> [firstLegJourney; twoLegJourney])
      ∧ ∀ j, j ∈ [firstLegJourney; twoLegJourney] →
             (lastStopOf j ∉ uniqueFrom)
             ∧ (∃ slot, slot ∈ exploreSlots
                        ∧ j ∈ reachedAt ∅ isoMonth fallbackType uniqueFrom stt
                                        "" slot)
             ∧ ∀ slot j', slot ∈ exploreSlots →
                          j' ∈ reachedAt ∅ isoMonth fallbackType uniqueFrom
                                         stt "" slot →
                          lastStopOf j' = lastStopOf j →
                          j_duration j <= j_duration j'.
Proof.
  split; [vm_compute; reflexivity|].
  apply (X25_explore_keeps_shortest_per_stop ∅ [] twoLegTrips ∅ isoMonth
           fallbackType ["SNCF:O"] "" [firstLegJourney; twoLegJourney]).
  vm_compute. reflexivity.
Defined.

(* ===================================================================== *)
(** * The transfer index built from the UIC codes *)
(* ===================================================================== *)

Lemma groupByUic_inv m seen sid :
  groupInv m seen → groupInv (groupByUic m sid) (seen ++ [sid]).
Proof.
  intros [Hnd Hget]. unfold groupByUic.
  destruct (uicSuffix sid) as [u|] eqn:Hu.
  - split; [by apply oset_NoDup|]. intros uic. rewrite filter_app.
    destruct (decide (u = uic)) as [->|Hne].
    + rewrite oget_oset_eq. simpl. rewrite Hget.
      by rewrite (filter_cons_True _ sid []) by done.
    + rewrite oget_oset_ne by done. rewrite Hget.
      rewrite (filter_cons_False _ sid []) by congruence.
      by rewrite filter_nil, app_nil_r.
  - split; [done|]. intros uic. rewrite filter_app, Hget.
    rewrite (filter_cons_False _ sid []) by congruence.
    by rewrite filter_nil, app_nil_r.
Qed.

Lemma uicGroups_inv (stopKeys : list string) :
  groupInv (uicGroups stopKeys) stopKeys.
Proof.
  unfold uicGroups.
  assert (∀ keys m seen, groupInv m seen →
            groupInv (fold_left groupByUic keys m) (seen ++ keys)) as Hfold.
  { induction keys as [|k keys IH]; intros m seen Hinv; simpl.
    - by rewrite app_nil_r.
    - replace (seen ++ k :: keys) with ((seen ++ [k]) ++ keys)
        by (by rewrite <- app_assoc).
      by apply IH, groupByUic_inv. }
  apply (Hfold stopKeys [] []). split; [constructor|done].
Qed.

(** The groups of [uicMap]: a stop is in the group of its own code, and in
    no other. *)
Lemma uicGroups_member (stopKeys sids : list string) (sid : string) :
  sids ∈ (uicGroups stopKeys).*2 → sid ∈ sids →
  sid ∈ stopKeys
  ∧ sids = filter (fun s => uicSuffix s = uicSuffix sid) stopKeys
  ∧ is_Some (uicSuffix sid).
Proof.
  destruct (uicGroups_inv stopKeys) as [Hnd Hget].
  intros ([uic g] & -> & Hin)%list_elem_of_fmap Hsid. simpl in Hsid.
  pose proof (Hget uic) as Hg.
  rewrite (elem_NoDup_oget _ _ _ Hnd Hin) in Hg. simpl in Hg, Hsid |- *.
  rewrite Hg in Hsid. apply list_elem_of_filter in Hsid as [Hu Hk].
  split; [done|]. split; [|by rewrite Hu]. by rewrite Hu.
Qed.

Lemma uicGroups_covers (stopKeys : list string) (sid uic : string) :
  sid ∈ stopKeys → uicSuffix sid = Some uic →
  ∃ sids, sids ∈ (uicGroups stopKeys).*2 ∧ sid ∈ sids.
Proof.
  destruct (uicGroups_inv stopKeys) as [Hnd Hget]. intros Hk Hu.
  pose proof (Hget uic) as Hg.
  assert (sid ∈ default [] (oget uic (uicGroups stopKeys))) as Hsid.
  { rewrite Hg. by apply list_elem_of_filter. }
  destruct (oget uic (uicGroups stopKeys)) as [sids|] eqn:Ho; simpl in Hsid.
  - exists sids. split; [|done]. apply list_elem_of_fmap.
    exists (uic, sids). split; [done|]. by apply oget_Some_elem.
  - by apply elem_of_nil in Hsid.
Qed.

Lemma linkGroup_lookup (T : gmap string (list RawTransfer))
      (sids : list string) (sid : string) :
  linkGroup T sids !! sid
  = if decide (sid ∈ sids)
    then Some (RawId <$> filter (fun s => s ≠ sid) sids)
    else T !! sid.
Proof.
  unfold linkGroup.
  assert (∀ (f : string → list RawTransfer) l
            (T : gmap string (list RawTransfer)),
            fold_left (fun T s => <[s := f s]> T) l T !! sid
            = if decide (sid ∈ l) then Some (f sid) else T !! sid) as Hfold.
  { intros f l. induction l as [|a l IH]; intros T0; simpl; [done|].
    rewrite IH. destruct (decide (sid ∈ l)) as [Hin|Hin].
    - rewrite decide_True; [done|]. by right.
    - destruct (decide (a = sid)) as [->|Hne].
      + rewrite lookup_insert_eq. rewrite decide_True; [done|]. by left.
      + rewrite lookup_insert_ne by done. rewrite decide_False; [done|].
        intros [?|?]%elem_of_cons; congruence. }
  apply (Hfold (fun sid => RawId <$> filter (fun s => s ≠ sid) sids)).
Qed.

Lemma linkGroups_other (groups : list (list string)) (sid : string) :
  ∀ T, Forall (fun g => sid ∉ g) groups →
       fold_left linkGroup groups T !! sid = T !! sid.
Proof.
  induction groups as [|g gs IH]; intros T Hall; simpl; [done|].
  apply Forall_cons in Hall as [Hg Hgs]. rewrite IH by done.
  rewrite linkGroup_lookup. by rewrite decide_False.
Qed.

Lemma linkGroups_member (groups : list (list string)) (sid : string)
      (sids0 : list string) :
  (∀ g, g ∈ groups → sid ∈ g → g = sids0) →
  ∀ T, Exists (fun g => sid ∈ g) groups
       ∨ T !! sid = Some (RawId <$> filter (fun s => s ≠ sid) sids0) →
       fold_left linkGroup groups T !! sid
       = Some (RawId <$> filter (fun s => s ≠ sid) sids0).
Proof.
  induction groups as [|g gs IH]; intros Hsame T Hcase; simpl.
  - destruct Hcase as [Hex|HT]; [|done]. by apply Exists_nil in Hex.
  - apply IH; [intros g' Hg'; apply Hsame; by right|].
    rewrite linkGroup_lookup.
    destruct (decide (sid ∈ g)) as [Hin|Hin].
    + right. rewrite (Hsame g); [done| by left |done].
    + destruct Hcase as [Hex|HT]; [|by right].
      apply Exists_cons in Hex as [?|?]; [done|by left].
Qed.

(** X26. Without transfer_index.json the server links the stops by their
    UIC code: in the index it builds, the transfers of a stop are the ids
    of the other stops whose id ends with a hyphen and the same eight
    digits, and nothing else; a stop without such an ending has no entry.
    The links are therefore mutual. *)
Theorem X26_uic_fallback_links
        (stopKeys : list string) (values : list (list string))
        (a : string) (t : RawTransfer) :
  values ≡ₚ (uicGroups stopKeys).*2 →
  t ∈ rawLinks (uicFallback values) a
  ↔ ∃ b uic, t = RawId b ∧ a ∈ stopKeys ∧ b ∈ stopKeys ∧ a ≠ b
             ∧ uicSuffix a = Some uic ∧ uicSuffix b = Some uic.
Proof.
  intros Hperm. unfold rawLinks, uicFallback.
  assert (∀ g, g ∈ values → a ∈ g →
               g = filter (fun s => uicSuffix s = uicSuffix a) stopKeys)
    as Hsame.
  { intros g Hg Ha. rewrite Hperm in Hg.
    by destruct (uicGroups_member stopKeys g a Hg Ha) as (_ & -> & _). }
  destruct (decide (Exists (fun g => a ∈ g) values)) as [Hex|Hex].
  - rewrite (linkGroups_member values a _ Hsame ∅) by by left.
    apply Exists_exists in Hex as (g & Hg & Ha). rewrite Hperm in Hg.
    destruct (uicGroups_member stopKeys g a Hg Ha) as (Hk & _ & [uic Hu]).
    simpl. split.
    + intros (b & -> & Hb)%list_elem_of_fmap.
      apply list_elem_of_filter in Hb as [Hne Hb].
      apply list_elem_of_filter in Hb as [Hub Hb].
      exists b, uic. repeat split; [done|done|congruence|done|congruence].
    + intros (b & uic' & -> & _ & Hb & Hne & Hua & Hub).
      apply list_elem_of_fmap. exists b. split; [done|].
      apply list_elem_of_filter. split; [congruence|].
      apply list_elem_of_filter. split; [congruence|done].
  - rewrite linkGroups_other.
    2:{ apply Forall_forall. intros g Hg Ha. apply Hex.
        apply Exists_exists. by exists g. }
    rewrite lookup_empty. simpl. split.
    + by intros ?%elem_of_nil.
    + intros (b & uic & _ & Hk & _ & _ & Hu & _). exfalso. apply Hex.
      destruct (uicGroups_covers stopKeys a uic Hk Hu) as (g & Hg & Ha).
      apply Exists_exists. exists g. split; [|done]. by rewrite Hperm.
Qed.

Lemma X26_uic_fallback_witness :
  reverse (uicGroups uicStops).*2 ≡ₚ (uicGroups uicStops).*2
  ∧ (RawId "SNCF:StopPoint:OCEOUIGO-87686006"
       ∈ rawLinks (uicFallback (reverse (uicGroups uicStops).*2))
                  "SNCF:StopPoint:OCETGV INOUI-87686006"
     ↔ ∃ b uic, RawId "SNCF:StopPoint:OCEOUIGO-87686006" = RawId b
                ∧ "SNCF:StopPoint:OCETGV INOUI-87686006" ∈ uicStops
                ∧ b ∈ uicStops
                ∧ "SNCF:StopPoint:OCETGV INOUI-87686006" ≠ b
                ∧ uicSuffix "SNCF:StopPoint:OCETGV INOUI-87686006" = Some uic
                ∧ uicSuffix b = Some uic).
Proof.
  split; [apply reverse_Permutation|].
  apply (X26_uic_fallback_links uicStops (reverse (uicGroups uicStops).*2)).
  apply reverse_Permutation.
Defined.

(* ===================================================================== *)
(** * The index of the cities with several stations *)
(* ===================================================================== *)

Lemma oget_filter {V : Type} (P : string * V → Prop)
      `{∀ e, Decision (P e)} (k : string) (m : list (string * V)) :
  NoDup m.*1 →
  oget k (filter P m)
  = match oget k m with
    | Some v => if decide (P (k, v)) then Some v else None
    | None => None
    end.
Proof.
  induction m as [|[k' v] m IH]; intros Hnd; [done|].
  apply NoDup_cons in Hnd as [Hk' Hnd]. specialize (IH Hnd).
  rewrite filter_cons. simpl.
  destruct (decide (k = k')) as [->|Hne].
  - destruct (decide (P (k', v))) as [HP|HP]; simpl.
    + by rewrite decide_True.
    + rewrite IH. destruct (oget k' m) as [v'|] eqn:Hget; [|done].
      apply oget_Some_elem in Hget. exfalso. apply Hk'.
      apply list_elem_of_fmap. by exists (k', v').
  - destruct (decide (P (k', v))) as [HP|HP]; simpl; [|done].
    by rewrite decide_False.
Qed.

Section StopsIndexFacts.
Variable normCity : string → string.

Lemma addStation_inv cityIndex seen s city :
  cityOf s = Some city →
  cityInv normCity cityIndex seen →
  cityInv normCity (addStation normCity cityIndex s city) (seen ++ [s]).
Proof.
  intros Hcity [Hnd Hkeys]. unfold addStation.
  assert (cityKey normCity s
          = Some (normCity city +:+ ":" +:+ countryOf s)) as Hkey
    by (unfold cityKey; by rewrite Hcity).
  set (key0 := normCity city +:+ ":" +:+ countryOf s) in *.
  split; [by apply oset_NoDup|]. intros key.
  unfold cityHolds, stationsOfCity in *. rewrite !filter_app.
  destruct (decide (key0 = key)) as [Heq|Hne].
  - rewrite Heq, oget_oset_eq. rewrite Heq in Hkey.
    rewrite (filter_cons_True _ s []) by done. rewrite filter_nil.
    specialize (Hkeys key). cbn [ce_stations ce_stopIds].
    destruct (oget key cityIndex) as [ce|].
    + destruct Hkeys as (Hst & Hnds & Hids).
      split; [by rewrite Hst, fmap_app|].
      split; [by apply uniq_fold_NoDup|].
      intros x. rewrite uniq_fold_elem, Hids. split.
      * intros [(s' & Hs' & Hx)|Hx].
        -- exists s'. split; [|done]. apply elem_of_app. by left.
        -- exists s. split; [|done]. apply elem_of_app. right. by left.
      * intros (s' & [Hs'|Hs']%elem_of_app & Hx).
        -- left. by exists s'.
        -- apply list_elem_of_singleton in Hs' as ->. by right.
    + rewrite Hkeys. cbn [ce_stations ce_stopIds].
      split; [done|]. split; [apply uniq_fold_NoDup, uniq_NoDup|].
      intros x. rewrite uniq_fold_elem, uniq_elem. split.
      * intros Hx. exists s. split; [by left|]. by destruct Hx.
      * intros (s' & Hs' & Hx). simpl in Hs'.
        apply list_elem_of_singleton in Hs' as ->. by left.
  - rewrite oget_oset_ne by done.
    rewrite (filter_cons_False _ s []) by congruence.
    rewrite filter_nil, app_nil_r. apply Hkeys.
Qed.

Lemma readStations_spec (raw : list RawStation) :
  ∀ stopsIndex cityIndex seen,
    cityInv normCity cityIndex seen →
    match readStations normCity raw stopsIndex cityIndex with
    | None => ∃ s, s ∈ raw ∧ cityOf s = None
    | Some (stopsIndex', cityIndex') =>
        (∀ s, s ∈ raw → is_Some (cityOf s))
        ∧ stopsIndex' = stopsIndex ++ (stationOf <$> raw)
        ∧ cityInv normCity cityIndex' (seen ++ raw)
    end.
Proof.
  induction raw as [|s rest IH]; intros stopsIndex cityIndex seen Hinv.
  - simpl. rewrite !app_nil_r. split; [|done].
    intros s Hs. by apply elem_of_nil in Hs.
  - cbn [readStations]. destruct (cityOf s) as [city|] eqn:Hcity.
    2:{ exists s. split; [by left|done]. }
    specialize (IH (stopsIndex ++ [stationOf s])
                   (addStation normCity cityIndex s city) (seen ++ [s])
                   (addStation_inv _ _ _ _ Hcity Hinv)).
    destruct (readStations normCity rest _ _) as [[si ci]|].
    + destruct IH as (Hall & -> & Hci). split; [|split].
      * intros s' [->|?]%elem_of_cons; [by rewrite Hcity|by apply Hall].
      * by rewrite <- app_assoc.
      * by rewrite <- app_assoc in Hci.
    + destruct IH as (s' & ? & ?). exists s'. split; [by right|done].
Qed.

End StopsIndexFacts.

(** X27. [buildStopsIndex] throws exactly when stations.json holds a
    station with neither a city nor a name.  Otherwise it pushes one
    element per station on [stopsIndex], and [cityIndex] has an entry for a
    city key exactly when at least two stations of the file have that key
    (the normalised city, or name, and the country, 'FR' by default); the
    entry lists those stations in file order, and its stop ids are, without
    repetition, the stop ids of those stations. *)
Theorem X27_city_index_holds_multi_station_cities
        (normCity : string → string) (raw : list RawStation) :
  match buildStopsIndex normCity raw with
  | None => ∃ s, s ∈ raw ∧ rs_city s = "" ∧ rs_name s = None
  | Some (stopsIndex, cityIndex) =>
      (∀ s, s ∈ raw → is_Some (cityOf s))
      ∧ stopsIndex = stationOf <$> raw
      ∧ NoDup cityIndex.*1
      ∧ ∀ key,
          let members := stationsOfCity normCity key raw in
          match oget key cityIndex with
          | Some ce =>
              (2 <= length members)%nat
              ∧ ce_stations ce
                = (fun s => (rs_name s, rs_stopIds s)) <$> members
              ∧ NoDup (ce_stopIds ce)
              ∧ ∀ x, x ∈ ce_stopIds ce
                     ↔ ∃ s, s ∈ members ∧ x ∈ rs_stopIds s
          | None => (length members < 2)%nat
          end
  end.
Proof.
  unfold buildStopsIndex.
  assert (cityInv normCity [] []) as H0 by (split; [constructor|done]).
  pose proof (readStations_spec normCity raw [] [] [] H0) as Hspec.
  destruct (readStations normCity raw [] []) as [[si ci]|].
  2:{ destruct Hspec as (s & Hs & Hcity). exists s. split; [done|].
      unfold cityOf in Hcity. destruct (rs_city s); [done|discriminate]. }
  destruct Hspec as (Hall & -> & Hnd & Hkeys). simpl in Hkeys.
  split; [exact Hall|]. split; [done|]. split.
  - eapply sublist_NoDup; [exact Hnd|]. apply fmap_sublist, sublist_filter.
  - intros key. cbv zeta. rewrite oget_filter by done. specialize (Hkeys key).
    destruct (oget key ci) as [ce|].
    + destruct Hkeys as (Hst & Hnds & Hids). cbn [snd].
      assert (length (ce_stations ce)
              = length (stationsOfCity normCity key raw)) as Hlen
        by by rewrite Hst, length_fmap.
      destruct (decide (2 <= length (ce_stations ce))%nat) as [Hge|Hlt].
      * split; [lia|done].
      * lia.
    + rewrite Hkeys. simpl. lia.
Qed.

(* ===================================================================== *)
(** * Station autocomplete *)
(* ===================================================================== *)



